(** * Shares-outstanding outlier adjustment: a shallow embedding

    Embedding of
    [Investment_Strategy/src/outlier_adjusted_data/shares_outstanding_outlier_adjusted.py].

    A pandas [Series] is an association list of (index label, value) pairs, in
    positional order; labels may repeat and need not be sorted, as in pandas.
    Values are IEEE binary64 numbers (Rocq's primitive floats), so that
    [NaN] ("missing"), the infinities produced by a division by zero and the
    comparisons of the source are the ones numpy computes.  Code that can
    raise runs in a small exception monad. *)

From Stdlib Require Import List ZArith Bool Arith Lia Floats Sorted.
Import ListNotations.

Set Warnings "-inexact-float".

Local Open Scope float_scope.

(** ** Exceptions *)

Inductive exn : Type :=
| KeyError            (* label absent from the index *)
| IndexError          (* positional access out of bounds *)
| NonIntegerLocation. (* [get_loc] of a repeated label is a slice or a boolean
                         array; comparing it with an int or slicing with it
                         raises TypeError / ValueError *)

Inductive result (A : Type) : Type :=
| Ok (a : A)
| Raise (e : exn).
Arguments Ok {A} a.
Arguments Raise {A} e.

Definition bind {A B : Type} (r : result A) (k : A -> result B) : result B :=
  match r with
  | Ok a => k a
  | Raise e => Raise e
  end.

Notation "x <- c ;; k" := (bind c (fun x => k))
  (at level 61, c at next level, right associativity).

(** A [for] loop whose body can raise. *)
Fixpoint for_each {St X : Type} (body : St -> X -> result St) (xs : list X)
    (st : St) : result St :=
  match xs with
  | [] => Ok st
  | x :: xs' => st' <- body st x ;; for_each body xs' st'
  end.

(** ** Series *)

Definition label := Z.
Definition Series (A : Type) := list (label * A).

Definition labels {A} (s : Series A) : list label := map fst s.
Definition values {A} (s : Series A) : list A := map snd s.

Definition map_values {A B} (f : A -> B) (s : Series A) : Series B :=
  map (fun e => (fst e, f (snd e))) s.

(** Element-wise binary operation of two series over the same index. *)
Definition zip_with {A B C} (f : A -> B -> C) (a : Series A) (b : Series B)
  : Series C :=
  map (fun e => (fst (fst e), f (snd (fst e)) (snd (snd e)))) (combine a b).

(** [series.shift(1)]: values move one position down, first one missing. *)
Definition shift1 (s : Series float) : Series float :=
  combine (labels s) (nan :: values s).

(** [pd.isna] on a float. *)
Definition isna (x : float) : bool := is_nan x.

(** [index.get_loc(label)]. *)
Fixpoint positions_of (ls : list label) (l : label) (i : nat) : list nat :=
  match ls with
  | [] => []
  | l' :: ls' =>
      if Z.eqb l' l then i :: positions_of ls' l (S i) else positions_of ls' l (S i)
  end.

Definition get_loc (ls : list label) (l : label) : result nat :=
  match positions_of ls l 0 with
  | [] => Raise KeyError
  | [p] => Ok p
  | _ => Raise NonIntegerLocation
  end.

(** [series.iloc[i]]. *)
Definition iloc (s : Series float) (i : nat) : result float :=
  match nth_error s i with
  | Some e => Ok (snd e)
  | None => Raise IndexError
  end.

(** [series.iloc[a:b]]. *)
Definition iloc_slice {A} (s : Series A) (a b : nat) : Series A :=
  firstn (b - a) (skipn a s).

(** [mask.iloc[a:b] = v]. *)
Fixpoint iloc_set_slice {A} (s : Series A) (a b : nat) (v : A) : Series A :=
  match s with
  | [] => []
  | e :: s' =>
      match b with
      | O => s
      | S b' =>
          match a with
          | O => (fst e, v) :: iloc_set_slice s' 0 b' v
          | S a' => e :: iloc_set_slice s' a' b' v
          end
      end
  end.

(** ** Configuration *)

Definition MAX_LOOKAHEAD_DAYS : nat := 600.
Definition ROLLING_WINDOW_DAYS : nat := 63.
Definition ROLLING_MIN_PERIODS : nat := 5.
Definition ROLLING_DEVIATION_THRESHOLD : float := 0.40.

(** ** Percentage change *)

(** [(x - base).abs() / base.abs()], the ratio every detector compares with
    its threshold. *)
Definition relative_deviation (base x : float) : float :=
  abs (x - base) / abs base.

Definition calculate_pct_change (series : Series float) : Series float :=
  let previous := shift1 series in
  zip_with (fun x p => relative_deviation p x) series previous.

(** ** Spike detection *)

Definition find_spike_start_indices (pct_change : Series float) (threshold : float)
  : list label :=
  labels (filter (fun e => threshold <? snd e) pct_change).

(** [b.any()] and [b.idxmax()] of a boolean series: the label of the first
    maximal entry, that is of the first [true] when there is one. *)
Definition any (b : Series bool) : bool := existsb snd b.

Definition idxmax (b : Series bool) : option label :=
  match find snd b with
  | Some e => Some (fst e)
  | None => option_map fst (hd_error b)
  end.

Definition find_reversion_index (series : Series float) (spike_start_position : nat)
    (pre_spike_value : float) (threshold : float) (max_lookahead : nat)
  : option label :=
  if isna pre_spike_value || (pre_spike_value =? 0) then None
  else
    let search_end := Nat.min (spike_start_position + max_lookahead) (length series) in
    let future_values := iloc_slice series spike_start_position search_end in
    let deviation := map_values (relative_deviation pre_spike_value) future_values in
    let reverted := map_values (fun d => d <=? threshold) deviation in
    if any reverted then idxmax reverted else None.

Definition mark_spike_region (outlier_mask : Series bool)
    (spike_start_label reversion_label : label) : result (Series bool) :=
  start_pos <- get_loc (labels outlier_mask) spike_start_label ;;
  end_pos <- get_loc (labels outlier_mask) reversion_label ;;
  Ok (iloc_set_slice outlier_mask start_pos end_pos true).

(** The state of the detection loop: the mask and [processed_until]. *)
Definition loop_state : Type := (Series bool * Z)%type.

Definition spike_loop_body (series : Series float) (threshold : float)
    (max_lookahead : nat) (st : loop_state) (spike_label : label)
  : result loop_state :=
  let '(outlier_mask, processed_until) := st in
  spike_pos <- get_loc (labels series) spike_label ;;
  if (Z.of_nat spike_pos <=? processed_until)%Z then Ok st
  else
    pre_spike_value <-
      (if (0 <? spike_pos)%nat then iloc series (spike_pos - 1) else Ok nan) ;;
    match find_reversion_index series spike_pos pre_spike_value threshold
                               max_lookahead with
    | Some reversion_label =>
        outlier_mask' <- mark_spike_region outlier_mask spike_label reversion_label ;;
        processed_until' <- get_loc (labels series) reversion_label ;;
        Ok (outlier_mask', Z.of_nat processed_until')
    | None => Ok st
    end.

Definition all_false {A} (s : Series A) : Series bool :=
  map_values (fun _ => false) s.

Definition detect_reverting_spikes (series : Series float) (threshold : float)
    (max_lookahead : nat) : result (Series bool) :=
  let outlier_mask := all_false series in
  let pct_change := calculate_pct_change series in
  let spike_starts := find_spike_start_indices pct_change threshold in
  st <- for_each (spike_loop_body series threshold max_lookahead) spike_starts
                 (outlier_mask, (-1)%Z) ;;
  Ok (fst st).

(** ** Rolling median *)

(** [rolling()] prepares its values before any window function runs: an
    infinity becomes missing. *)
Definition prep_value (x : float) : float := if is_infinity x then nan else x.

(** Insertion sort of the present observations of a window. *)
Fixpoint insert_sorted (x : float) (l : list float) : list float :=
  match l with
  | [] => [x]
  | y :: l' => if x <=? y then x :: l else y :: insert_sorted x l'
  end.

Definition sort_floats (l : list float) : list float :=
  fold_right insert_sorted [] l.

(** Median of the non-missing values of a window of prepared values (an
    infinity of the series is a missing value here, see [prep_value]);
    missing when fewer than [min_periods] of them are present. *)
Definition window_median (min_periods : nat) (w : list float) : float :=
  let obs := filter (fun x => negb (isna x)) w in
  let nobs := length obs in
  if (min_periods <=? nobs)%nat && (0 <? nobs)%nat then
    let sl := sort_floats obs in
    let midpoint := (nobs / 2)%nat in
    if Nat.odd nobs then nth midpoint sl nan
    else (nth midpoint sl nan + nth (midpoint - 1) sl nan) / 2
  else nan.

(** The centered window of position [i]: [window] positions ending
    [(window - 1) / 2] positions after [i], clipped to the series. *)
Definition centered_window {A} (window : nat) (s : Series A) (i : nat) : Series A :=
  let offset := ((window - 1) / 2)%nat in
  let stop := Nat.min (i + 1 + offset) (length s) in
  let start := (i + 1 + offset - window)%nat in
  iloc_slice s start stop.

(** [series.rolling(window, center=True, min_periods).median()]. *)
Definition rolling_median (window min_periods : nat) (s : Series float)
  : Series float :=
  let prepared := map_values prep_value s in
  combine (labels s)
          (map (fun i =>
                  window_median min_periods (values (centered_window window prepared i)))
               (seq 0 (length s))).

(** [mask.fillna(False)]: a comparison yields a boolean series, which has no
    missing entry to fill. *)
Definition fillna_false (mask : Series bool) : Series bool := mask.

Definition detect_rolling_median_outliers (series : Series float) : Series bool :=
  let rolling_median :=
    rolling_median ROLLING_WINDOW_DAYS ROLLING_MIN_PERIODS series in
  let deviation := zip_with (fun x m => relative_deviation m x) series rolling_median in
  let outlier_mask :=
    map_values (fun d => ROLLING_DEVIATION_THRESHOLD <? d) deviation in
  fillna_false outlier_mask.

(** ** Correction *)

(** [corrected[outlier_mask] = np.nan] for a mask over the same index. *)
Definition set_where (s : Series float) (mask : Series bool) (v : float)
  : Series float :=
  zip_with (fun x (m : bool) => if m then v else x) s mask.

(** [series.ffill()]: every missing entry takes the last non-missing value
    before it, and stays missing when there is none. *)
Fixpoint ffill_from (last : float) (s : Series float) : Series float :=
  match s with
  | [] => []
  | e :: s' =>
      if isna (snd e) then (fst e, last) :: ffill_from last s'
      else e :: ffill_from (snd e) s'
  end.

Definition ffill (s : Series float) : Series float := ffill_from nan s.

Definition apply_forward_fill_correction (series : Series float)
    (outlier_mask : Series bool) : Series float :=
  let corrected := set_where series outlier_mask nan in
  ffill corrected.

(** ** Pipeline *)

Definition correct_shares_outstanding_outliers (series : Series float)
  : result (Series float) :=
  let corrected := series in
  (* Pass 1: extreme spikes *)
  outliers <- detect_reverting_spikes corrected 1.00 MAX_LOOKAHEAD_DAYS ;;
  let corrected := apply_forward_fill_correction corrected outliers in
  (* Pass 2: medium spikes *)
  outliers <- detect_reverting_spikes corrected 0.50 MAX_LOOKAHEAD_DAYS ;;
  let corrected := apply_forward_fill_correction corrected outliers in
  (* Pass 3: smaller spikes *)
  outliers <- detect_reverting_spikes corrected 0.35 MAX_LOOKAHEAD_DAYS ;;
  let corrected := apply_forward_fill_correction corrected outliers in
  (* Pass 4: rolling median outliers *)
  let outliers := detect_rolling_median_outliers corrected in
  let corrected := apply_forward_fill_correction corrected outliers in
  Ok corrected.

(** ** Moving-average crossover signal

    Embedding of [c_sma_signal] of
    [Investment_Strategy/src/alpha_signals/simple_moving_average_alpha_signal.py],
    on the two pandas series its [DataColumn] arguments convert to (the
    conversions belong to the host library).  These series are Arrow-backed:
    an entry is either null ([None], no value) or a float, and NaN is a float
    like any other, not a missing entry.  The two series are columns of one
    table: they come over the same index, which the element-wise operations
    below rely on. *)

(** [series.notna()] of an Arrow-backed series: true for every entry that
    is not null, a NaN included. *)
Definition notna {A} (s : Series (option A)) : Series bool :=
  map_values (fun x => match x with Some _ => true | None => false end) s.

(** [a > b] on two entries: null when either is null, the comparison of
    the two floats otherwise. *)
Definition gt (a b : option float) : option bool :=
  match a, b with
  | Some x, Some y => Some (y <? x)
  | _, _ => None
  end.

(** [series[mask]] for a boolean mask over the same index. *)
Fixpoint select_where {A} (s : Series A) (mask : Series bool) : Series A :=
  match s, mask with
  | e :: s', m :: mask' =>
      if snd m then e :: select_where s' mask' else select_where s' mask'
  | _, _ => []
  end.

(** The value a series holds for a label, missing when it has none: how
    pandas aligns the right-hand side of an assignment. *)
Definition at_label (s : Series float) (l : label) : float :=
  match find (fun e => Z.eqb (fst e) l) s with
  | Some e => snd e
  | None => nan
  end.

(** [series[mask] = rhs] for a series [rhs]: each masked position takes
    the value [rhs] holds for its label. *)
Definition assign_where (s : Series float) (mask : Series bool)
    (rhs : Series float) : Series float :=
  map (fun em : (label * float) * (label * bool) =>
         (fst (fst em),
          if snd (snd em) then at_label rhs (fst (fst em))
          else snd (fst em)))
      (combine s mask).

(** [b.astype(float)]: a null converts to NaN. *)
Definition astype_float (b : option bool) : float :=
  match b with
  | Some true => 1
  | Some false => 0
  | None => nan
  end.

Definition c_sma_signal (sma_50 sma_200 : Series (option float)) : Series float :=
  (* Initialize signal as NaN (no signal during warmup) *)
  let signal := map_values (fun _ => nan) sma_50 in
  (* Only generate signal where both SMAs are valid *)
  let valid_mask := zip_with andb (notna sma_50) (notna sma_200) in
  (* Bullish when short-term > long-term *)
  assign_where signal valid_mask
    (map_values astype_float
       (zip_with gt
                 (select_where sma_50 valid_mask)
                 (select_where sma_200 valid_mask))).

(** A series over the default index [0, 1, 2, ...]. *)
Definition of_values {A} (vs : list A) : Series A :=
  combine (map Z.of_nat (seq 0 (length vs))) vs.

(** ** Proof devices

    The definitions below are not code of the repository: they name the
    positions, searches and regions the statements talk about. *)

(** Value at a position, missing out of range. *)
Definition value_at (s : Series float) (i : nat) : float := nth i (values s) nan.

(** Entry of an Arrow-backed series at a position, null out of range. *)
Definition entry_at {A} (s : Series (option A)) (i : nat) : option A :=
  nth i (values s) None.

(** Mask entry at a position, [false] out of range. *)
Definition flagged (m : Series bool) (i : nat) : bool := nth i (values m) false.

(** The value before position [p], as the loop reads it. *)
Definition pre_spike (s : Series float) (p : nat) : float :=
  if (0 <? p)%nat then value_at s (p - 1) else nan.

(** The percentage change at a position. *)
Definition pct_at (s : Series float) (i : nat) : float :=
  relative_deviation (pre_spike s i) (value_at s i).

(** [v] is back within [t] of [pre]. *)
Definition reverted (t pre v : float) : bool := relative_deviation pre v <=? t.

(** Offset of the first element satisfying [f]. *)
Fixpoint first_index {A} (f : A -> bool) (l : list A) : option nat :=
  match l with
  | [] => None
  | x :: l' => if f x then Some O else option_map S (first_index f l')
  end.

(** Positions, counted from [i], of the elements satisfying [f]. *)
Fixpoint positions_where {A} (f : A -> bool) (l : list A) (i : nat) : list nat :=
  match l with
  | [] => []
  | x :: l' =>
      if f x then i :: positions_where f l' (S i) else positions_where f l' (S i)
  end.

(** Candidate spike starts of a pass, by position. *)
Definition candidate_positions (s : Series float) (t : float) : list nat :=
  positions_where (fun e => t <? snd e) (calculate_pct_change s) 0.

(** The reversion search of [find_reversion_index], by position. *)
Definition reversion_pos (s : Series float) (p : nat) (pre t : float) (L : nat)
  : option nat :=
  if isna pre || (pre =? 0) then None
  else
    option_map (Nat.add p)
      (first_index (fun e => reverted t pre (snd e))
                   (iloc_slice s p (Nat.min (p + L) (length s)))).

(** A search of the detection loop: the position it starts at and the
    reversion position it finds, if any. *)
Definition search : Type := (nat * option nat)%type.

(** The body of the detection loop, recording the searches it performs. *)
Definition spike_loop_body_traced (series : Series float) (threshold : float)
    (max_lookahead : nat) (st : loop_state * list search) (spike_label : label)
  : result (loop_state * list search) :=
  let '((outlier_mask, processed_until), log) := st in
  spike_pos <- get_loc (labels series) spike_label ;;
  if (Z.of_nat spike_pos <=? processed_until)%Z then Ok st
  else
    pre_spike_value <-
      (if (0 <? spike_pos)%nat then iloc series (spike_pos - 1) else Ok nan) ;;
    match find_reversion_index series spike_pos pre_spike_value threshold
                               max_lookahead with
    | Some reversion_label =>
        outlier_mask' <- mark_spike_region outlier_mask spike_label reversion_label ;;
        processed_until' <- get_loc (labels series) reversion_label ;;
        Ok ((outlier_mask', Z.of_nat processed_until'),
            log ++ [(spike_pos, Some processed_until')])
    | None => Ok ((outlier_mask, processed_until), log ++ [(spike_pos, None)])
    end.

Definition detect_reverting_spikes_traced (series : Series float)
    (threshold : float) (max_lookahead : nat)
  : result (Series bool * list search) :=
  let outlier_mask := all_false series in
  let pct_change := calculate_pct_change series in
  let spike_starts := find_spike_start_indices pct_change threshold in
  st <- for_each (spike_loop_body_traced series threshold max_lookahead)
                 spike_starts ((outlier_mask, (-1)%Z), []) ;;
  Ok (fst (fst st), snd st).

(** The same loop over candidate positions instead of labels. *)
Definition step_pos (s : Series float) (t : float) (L : nat)
    (st : loop_state * list search) (p : nat) : loop_state * list search :=
  let '((m, pu), log) := st in
  if (Z.of_nat p <=? pu)%Z then st
  else
    match reversion_pos s p (pre_spike s p) t L with
    | Some r => ((iloc_set_slice m p r true, Z.of_nat r), log ++ [(p, Some r)])
    | None => ((m, pu), log ++ [(p, None)])
    end.

Definition run_pos (s : Series float) (t : float) (L : nat) (cands : list nat)
    (st : loop_state * list search) : loop_state * list search :=
  fold_left (step_pos s t L) cands st.

(** Marked regions of a log. *)
Definition in_region (log : list search) (i : nat) : Prop :=
  exists p r, In (p, Some r) log /\ (p <= i < r)%nat.

(** Order of the searches of one pass: a later search starts after the
    earlier one, and after its reversion position when it found one. *)
Definition search_before (a b : search) : Prop :=
  (fst a < fst b)%nat /\ forall r, snd a = Some r -> (r < fst b)%nat.

(** Invariant of the detection loop once the candidates [done] are
    processed. *)
Record loop_inv (s : Series float) (t : float) (L : nat) (done : list nat)
    (st : loop_state * list search) : Prop := {
  inv_labels : labels (fst (fst st)) = labels s;
  inv_mask : forall i, flagged (fst (fst st)) i = true <-> in_region (snd st) i;
  inv_log : forall p res, In (p, res) (snd st) ->
      In p done /\ res = reversion_pos s p (pre_spike s p) t L;
  inv_bound : forall p r, In (p, Some r) (snd st) ->
      (Z.of_nat r <= snd (fst st))%Z;
  inv_until : snd (fst st) = (-1)%Z \/
      exists p r, In (p, Some r) (snd st) /\ snd (fst st) = Z.of_nat r;
  inv_sorted : StronglySorted search_before (snd st);
  inv_complete : forall q, In q done ->
      (exists res, In (q, res) (snd st)) \/
      (exists p r, In (p, Some r) (snd st) /\ (p < q <= r)%nat)
}.

(** A value the rolling window counts as an observation: neither missing
    nor infinite. *)
Definition finite_value (x : float) : bool := negb (isna x) && negb (is_infinity x).

(** ** The detection loop as it is described

    The four definitions below are not translated from the code: they
    follow the description of the loop, position by position, and are what
    the loop of the source is compared with. *)

(** The candidates: the positions whose percentage change strictly exceeds
    [t], in increasing order. *)
Definition described_candidates (s : Series float) (t : float) : list nat :=
  filter (fun p => t <? pct_at s p) (seq 0 (length s)).

(** The smallest position [r] of [p, p+1, ..., min (p + L, length) - 1]
    with [|value[r] - v| / |v| <= t], if there is one. *)
Definition described_reversion (s : Series float) (t : float) (L p : nat)
    (v : float) : option nat :=
  find (fun r => relative_deviation v (value_at s r) <=? t)
       (seq p (Nat.min (p + L) (length s) - p)).

(** The mask with exactly the positions [p .. r-1] marked in addition. *)
Definition described_mark (m : Series bool) (p r : nat) : Series bool :=
  combine (labels m)
          (map (fun i => ((p <=? i) && (i <? r))%nat || flagged m i)
               (seq 0 (length m))).

(** One candidate [p], from a mask and a processed boundary: nothing
    happens when [p] is at or before the boundary, or when the pre-spike
    value [value[p-1]] is undefined or zero; otherwise the search decides:
    a reversion position [r] marks [p .. r-1] and becomes the boundary, no
    reversion position leaves mask and boundary as they are. *)
Definition described_step (s : Series float) (t : float) (L : nat)
    (st : loop_state) (p : nat) : loop_state :=
  let '(m, boundary) := st in
  if (Z.of_nat p <=? boundary)%Z then st
  else
    let v := value_at s (p - 1) in
    if (p =? 0)%nat || isna v || (v =? 0) then st
    else
      match described_reversion s t L p v with
      | Some r => (described_mark m p r, Z.of_nat r)
      | None => st
      end.

(** The whole loop: every candidate in turn, from the all-false mask and
    the boundary [-1]. *)
Definition described_loop (s : Series float) (t : float) (L : nat) : loop_state :=
  fold_left (described_step s t L) (described_candidates s t)
            (all_false s, (-1)%Z).

(** One reversion pass of the pipeline: detector, then corrector. *)
Definition reversion_pass (s : Series float) (t : float) : result (Series float) :=
  outliers <- detect_reverting_spikes s t MAX_LOOKAHEAD_DAYS ;;
  Ok (apply_forward_fill_correction s outliers).

(** Passes 1 to 3 of the pipeline. *)
Definition reversion_passes (s : Series float) : result (Series float) :=
  c1 <- reversion_pass s 1.00 ;;
  c2 <- reversion_pass c1 0.50 ;;
  reversion_pass c2 0.35.

(** Pass 4 of the pipeline. *)
Definition rolling_pass (s : Series float) : Series float :=
  apply_forward_fill_correction s (detect_rolling_median_outliers s).

(** [out] has the index of [s] and every present value of [out] is a
    present value of [s] at the same or an earlier position. *)
Definition copies_forward (s out : Series float) : Prop :=
  labels out = labels s /\
  forall i, (i < length s)%nat -> isna (value_at out i) = false ->
    exists j, (j <= i)%nat /\ isna (value_at s j) = false /\
              value_at out i = value_at s j.

(** No candidate of [s] at threshold [t] reverts: a reversion pass at [t]
    finds nothing to mark. *)
Definition stable (s : Series float) (t : float) (L : nat) : Prop :=
  forall q, In q (candidate_positions s t) ->
            reversion_pos s q (pre_spike s q) t L = None.

(** No value of the series is missing. *)
Definition all_present (s : Series float) : Prop :=
  forall i, (i < length s)%nat -> isna (value_at s i) = false.

(** The series has no gap: no value is missing after a present one. *)
Definition gap_free (s : Series float) : Prop :=
  forall i j, (i <= j < length s)%nat ->
              isna (value_at s i) = false -> isna (value_at s j) = false.

(** A lexicographic key that orders the non-missing binary64 numbers as
    their comparisons do. *)
Definition key (f : spec_float) : Z * Z * Z :=
  match f with
  | S754_nan => (0, 0, 0)
  | S754_zero _ => (0, 0, 0)
  | S754_infinity true => (-2, 0, 0)
  | S754_infinity false => (2, 0, 0)
  | S754_finite true m e => (-1, - e, Z.neg m)
  | S754_finite false m e => (1, e, Z.pos m)
  end%Z.

Definition lex_lt (a b : Z * Z * Z) : Prop :=
  let '(a1, a2, a3) := a in
  let '(b1, b2, b3) := b in
  (a1 < b1 \/ (a1 = b1 /\ (a2 < b2 \/ (a2 = b2 /\ a3 < b3))))%Z.

Definition lex_le (a b : Z * Z * Z) : Prop :=
  let '(a1, a2, a3) := a in
  let '(b1, b2, b3) := b in
  (a1 < b1 \/ (a1 = b1 /\ (a2 < b2 \/ (a2 = b2 /\ a3 <= b3))))%Z.

(** * Facts about binary64 arithmetic and comparisons *)

Module FloatFacts.

Lemma Prim2SF_nan : Prim2SF nan = S754_nan.
Proof. reflexivity. Qed.

Lemma Prim2SF_isna (x : float) : isna x = true -> Prim2SF x = S754_nan.
Proof. unfold isna, Prim2SF. intros ->. reflexivity. Qed.

Lemma isna_nan (x : float) : isna x = true -> x = nan.
Proof.
  intros H. apply Prim2SF_inj. rewrite Prim2SF_nan. now apply Prim2SF_isna.
Qed.

Lemma isna_Prim2SF (x : float) : Prim2SF x = S754_nan -> isna x = true.
Proof.
  intros H. unfold isna, is_nan. rewrite eqb_spec, H. reflexivity.
Qed.

Lemma isna_false_SF (x : float) : isna x = false -> Prim2SF x <> S754_nan.
Proof.
  intros H E. apply isna_Prim2SF in E. congruence.
Qed.

(** Arithmetic with a missing operand is missing. *)
Lemma sub_nan_l x : nan - x = nan.
Proof.
  apply Prim2SF_inj. rewrite sub_spec, Prim2SF_nan. reflexivity.
Qed.

Lemma div_nan_r x : x / nan = nan.
Proof.
  apply Prim2SF_inj. rewrite div_spec, Prim2SF_nan.
  now destruct (Prim2SF x) as [[|]|[|]| |[|] m e].
Qed.

Lemma div_nan_l x : nan / x = nan.
Proof.
  apply Prim2SF_inj. rewrite div_spec, Prim2SF_nan. reflexivity.
Qed.

Lemma abs_nan : abs nan = nan.
Proof. reflexivity. Qed.

Lemma ltb_nan_r t : (t <? nan) = false.
Proof.
  rewrite ltb_spec, Prim2SF_nan. unfold SFltb.
  now destruct (Prim2SF t) as [[|]|[|]| |[|] m e].
Qed.

Lemma ltb_nan_l t : (nan <? t) = false.
Proof.
  rewrite ltb_spec, Prim2SF_nan. reflexivity.
Qed.

Ltac cmp_cases :=
  repeat match goal with
  | |- context [Z.compare ?a ?b] => destruct (Z.compare_spec a b)
  | |- context [Pos.compare_cont Eq ?a ?b] =>
      change (Pos.compare_cont Eq a b) with (Pos.compare a b);
      destruct (Pos.compare_spec a b)
  end.

Lemma SFltb_key f g :
  f <> S754_nan -> g <> S754_nan ->
  SFltb f g = true <-> lex_lt (key f) (key g).
Proof.
  intros Hf Hg. unfold SFltb.
  destruct f as [[|]|[|]| |[|] m e]; destruct g as [[|]|[|]| |[|] m' e'];
    try congruence; simpl; cmp_cases; simpl; split; intros; try discriminate;
    try reflexivity; try lia.
Qed.

Lemma SFleb_key f g :
  f <> S754_nan -> g <> S754_nan ->
  SFleb f g = true <-> lex_le (key f) (key g).
Proof.
  intros Hf Hg. unfold SFleb.
  destruct f as [[|]|[|]| |[|] m e]; destruct g as [[|]|[|]| |[|] m' e'];
    try congruence; simpl; cmp_cases; simpl; split; intros; try discriminate;
    try reflexivity; try lia.
Qed.

Lemma SFleb_nan_l g : SFleb S754_nan g = false.
Proof. reflexivity. Qed.

Lemma SFleb_nan_r f : SFleb f S754_nan = false.
Proof. now destruct f as [[|]|[|]| |[|] m e]. Qed.

Lemma leb_true_not_nan d t :
  (d <=? t) = true -> Prim2SF d <> S754_nan /\ Prim2SF t <> S754_nan.
Proof.
  rewrite leb_spec. intros H. split; intros E; rewrite E in H.
  - now rewrite SFleb_nan_l in H.
  - now rewrite SFleb_nan_r in H.
Qed.

(** [d <= t'] and [t' <= t] exclude [t < d]. *)
Lemma leb_leb_not_ltb d t' t :
  (d <=? t') = true -> (t' <=? t) = true -> (t <? d) = false.
Proof.
  intros H1 H2.
  destruct (leb_true_not_nan _ _ H1) as [Nd Nt'].
  destruct (leb_true_not_nan _ _ H2) as [_ Nt].
  rewrite leb_spec in H1, H2. rewrite ltb_spec.
  apply (SFleb_key _ _ Nd Nt') in H1. apply (SFleb_key _ _ Nt' Nt) in H2.
  destruct (SFltb (Prim2SF t) (Prim2SF d)) eqn:E; [|reflexivity].
  apply (SFltb_key _ _ Nt Nd) in E.
  unfold lex_le, lex_lt in *.
  destruct (key (Prim2SF d)) as [[? ?] ?], (key (Prim2SF t')) as [[? ?] ?],
    (key (Prim2SF t)) as [[? ?] ?]. lia.
Qed.

Lemma leb_refl t : isna t = false -> (t <=? t) = true.
Proof.
  intros H. apply isna_false_SF in H. rewrite leb_spec.
  apply SFleb_key; auto. unfold lex_le. destruct (key (Prim2SF t)) as [[? ?] ?]. lia.
Qed.

Lemma leb_not_ltb d t : (d <=? t) = true -> (t <? d) = false.
Proof.
  intros H. apply leb_leb_not_ltb with (t' := t); auto.
  apply leb_refl. destruct (isna t) eqn:E; auto.
  apply Prim2SF_isna in E. now destruct (leb_true_not_nan _ _ H).
Qed.

(** The percentage change between two equal values never exceeds a
    non-negative threshold: it is zero, or missing. *)
Lemma SFsub_diag f :
  SF64sub f f = S754_nan \/ SF64sub f f = S754_zero false.
Proof.
  destruct f as [s|s| |s m e].
  - destruct s; simpl; auto.
  - destruct s; simpl; auto.
  - now left.
  - right. unfold SF64sub, SFsub. cbv zeta. rewrite Z.sub_diag. reflexivity.
Qed.

Lemma pct_same a t : (0 <=? t) = true -> (t <? abs (a - a) / abs a) = false.
Proof.
  intros Ht.
  destruct (isna (abs (a - a) / abs a)) eqn:E.
  - apply isna_nan in E. rewrite E. apply ltb_nan_r.
  - assert (Hz : Prim2SF (abs (a - a) / abs a) = S754_zero false).
    { assert (N := isna_false_SF _ E). revert N.
      rewrite div_spec, !abs_spec, sub_spec.
      destruct (SFsub_diag (Prim2SF a)) as [-> | ->]; simpl.
      - congruence.
      - now destruct (Prim2SF a) as [[|]|[|]| |[|] m e]. }
    assert (Hd : (abs (a - a) / abs a <=? 0) = true).
    { rewrite leb_spec, Hz. reflexivity. }
    eapply leb_leb_not_ltb; eauto.
Qed.

End FloatFacts.

(** Distinctness of the labels of a concrete index. *)
Ltac distinct_labels :=
  vm_compute; repeat (constructor; [simpl; intuition lia|]); constructor.

(** * Facts about lists *)

Section ListFacts.
Context {A : Type}.

Lemma first_index_Some (f : A -> bool) (l : list A) k :
  first_index f l = Some k ->
  (k < length l)%nat /\
  (exists x, nth_error l k = Some x /\ f x = true) /\
  (forall j x, (j < k)%nat -> nth_error l j = Some x -> f x = false).
Proof.
  revert k. induction l as [|y l IH]; intros k; simpl; [discriminate|].
  destruct (f y) eqn:Fy.
  - intros [= <-]. split; [lia|]. split; [exists y; auto|]. intros; lia.
  - destruct (first_index f l) as [k'|]; simpl; [|discriminate].
    intros [= <-]. destruct (IH k' eq_refl) as (Hk & Hx & Hj).
    split; [lia|]. split; [exact Hx|].
    intros [|j] x Hlt; simpl.
    + intros [= <-]. exact Fy.
    + apply Hj. lia.
Qed.

Lemma first_index_None (f : A -> bool) (l : list A) :
  first_index f l = None ->
  forall j x, nth_error l j = Some x -> f x = false.
Proof.
  induction l as [|y l IH]; simpl; intros H j x.
  - destruct j; discriminate.
  - destruct (f y) eqn:Fy; [discriminate|].
    destruct (first_index f l); [discriminate|].
    destruct j; simpl; [intros [= <-]; exact Fy | apply IH; reflexivity].
Qed.

Lemma positions_where_In (f : A -> bool) (l : list A) i p :
  In p (positions_where f l i) <->
  (i <= p)%nat /\ exists x, nth_error l (p - i) = Some x /\ f x = true.
Proof.
  revert i. induction l as [|y l IH]; intros i; simpl.
  - split; [tauto|]. intros (_ & x & H & _). destruct (p - i)%nat; discriminate.
  - assert (Hrec : In p (positions_where f l (S i)) <->
              (i <= p)%nat /\ p <> i /\
              exists x, nth_error (y :: l) (p - i) = Some x /\ f x = true).
    { rewrite IH. split.
      - intros (Hle & x & Hn & Fx). split; [lia|]. split; [lia|].
        exists x. split; auto. replace (p - i)%nat with (S (p - S i)) by lia. exact Hn.
      - intros (Hle & Hne & x & Hn & Fx). split; [lia|].
        exists x. split; auto.
        replace (p - i)%nat with (S (p - S i)) in Hn by lia. exact Hn. }
    destruct (f y) eqn:Fy; simpl; rewrite Hrec.
    + split.
      * intros [<- | H]; [|tauto]. split; [lia|]. exists y.
        rewrite Nat.sub_diag. auto.
      * intros (Hle & x & Hn & Fx). destruct (Nat.eq_dec i p); [now left|right].
        split; auto. split; [congruence|]. eauto.
    + split; [tauto|].
      intros (Hle & x & Hn & Fx). split; auto. split; [|eauto].
      intros ->. rewrite Nat.sub_diag in Hn. simpl in Hn. congruence.
Qed.

Lemma positions_where_lower (f : A -> bool) (l : list A) i :
  Forall (fun p => (i <= p)%nat) (positions_where f l i).
Proof.
  apply Forall_forall. intros p H. now apply positions_where_In in H.
Qed.

Lemma positions_where_sorted (f : A -> bool) (l : list A) i :
  StronglySorted lt (positions_where f l i).
Proof.
  revert i. induction l as [|y l IH]; intros i; simpl; [constructor|].
  destruct (f y); auto. constructor; auto.
  eapply Forall_impl; [|apply positions_where_lower]. simpl. intros; lia.
Qed.

End ListFacts.

(** * Facts about series *)

Section SeriesFacts.
Context {A : Type}.

Lemma labels_length (s : Series A) : length (labels s) = length s.
Proof. apply length_map. Qed.

Lemma values_length (s : Series A) : length (values s) = length s.
Proof. apply length_map. Qed.

Lemma labels_map_values {B} (f : A -> B) (s : Series A) :
  labels (map_values f s) = labels s.
Proof. unfold labels, map_values. rewrite map_map. reflexivity. Qed.

Lemma values_map_values {B} (f : A -> B) (s : Series A) :
  values (map_values f s) = map f (values s).
Proof. unfold values, map_values. now rewrite !map_map. Qed.

Lemma map_values_length {B} (f : A -> B) (s : Series A) :
  length (map_values f s) = length s.
Proof. apply length_map. Qed.

Lemma labels_all_false (s : Series A) : labels (all_false s) = labels s.
Proof. apply labels_map_values. Qed.

Lemma labels_iloc_set_slice (s : Series A) a b v :
  labels (iloc_set_slice s a b v) = labels s.
Proof.
  revert a b. induction s as [|e s IH]; intros a b; simpl; auto.
  destruct b; auto. destruct a; simpl; now rewrite IH.
Qed.

Lemma values_iloc_set_slice_nth (s : Series A) a b v d i :
  nth i (values (iloc_set_slice s a b v)) d =
  if ((a <=? i) && (i <? b) && (i <? length s))%nat then v
  else nth i (values s) d.
Proof.
  revert a b i. induction s as [|e s IH]; intros a b i.
  - simpl. rewrite andb_false_r. reflexivity.
  - destruct b as [|b].
    + simpl iloc_set_slice. rewrite andb_false_r. reflexivity.
    + destruct a as [|a]; destruct i as [|i]; simpl; auto;
        rewrite IH; reflexivity.
Qed.

Lemma nth_error_iloc_slice (s : Series A) a b k :
  (k < b - a)%nat -> nth_error (iloc_slice s a b) k = nth_error s (a + k).
Proof.
  intros H. unfold iloc_slice.
  rewrite nth_error_firstn.
  destruct (Nat.ltb_spec k (b - a)); [|lia].
  apply nth_error_skipn.
Qed.

Lemma iloc_slice_length (s : Series A) a b :
  (b <= length s)%nat -> length (iloc_slice s a b) = (b - a)%nat.
Proof.
  intros H. unfold iloc_slice. rewrite length_firstn, length_skipn. lia.
Qed.

Lemma labels_filter_positions (f : label * A -> bool) (s : Series A) i :
  Forall2 (fun l p => nth_error (labels s) (p - i) = Some l)
          (labels (filter f s)) (positions_where f s i).
Proof.
  revert i. induction s as [|e s IH]; intros i; simpl; [constructor|].
  assert (Hrec : Forall2 (fun l p => nth_error (fst e :: labels s) (p - i) = Some l)
                   (labels (filter f s)) (positions_where f s (S i))).
  { specialize (IH (S i)).
    pose proof (positions_where_lower f s (S i)) as Hlow.
    induction IH as [|l p ls ps H1 H2 IH2]; constructor.
    - inversion Hlow; subst.
      replace (p - i)%nat with (S (p - S i)) by lia. exact H1.
    - apply IH2. now inversion Hlow. }
  destruct (f e); simpl; auto. constructor; auto.
  rewrite Nat.sub_diag. reflexivity.
Qed.

End SeriesFacts.

(** * Index lookups *)

Lemma positions_of_notin ls l i : ~ In l ls -> positions_of ls l i = [].
Proof.
  revert i. induction ls as [|l' ls IH]; intros i H; simpl; auto.
  destruct (Z.eqb_spec l' l) as [->|_].
  - exfalso. apply H. now left.
  - apply IH. intros F. apply H. now right.
Qed.

Lemma positions_of_NoDup ls l i k :
  NoDup ls -> nth_error ls k = Some l -> positions_of ls l i = [(i + k)%nat].
Proof.
  revert i k. induction ls as [|l' ls IH]; intros i k Hnd Hk.
  - destruct k; discriminate.
  - inversion Hnd as [|? ? Hnotin Hnd']; subst. simpl.
    destruct k as [|k]; simpl in Hk.
    + injection Hk as ->. rewrite Z.eqb_refl, positions_of_notin by assumption.
      now rewrite Nat.add_0_r.
    + destruct (Z.eqb_spec l' l) as [->|_].
      * exfalso. apply Hnotin. eapply nth_error_In; eauto.
      * rewrite (IH (S i) k) by assumption. f_equal. lia.
Qed.

Lemma get_loc_NoDup ls l k :
  NoDup ls -> nth_error ls k = Some l -> get_loc ls l = Ok k.
Proof.
  intros Hnd Hk. unfold get_loc. now rewrite (positions_of_NoDup ls l 0 k).
Qed.

Lemma nth_error_labels {A} (s : Series A) i :
  (i < length s)%nat -> nth_error (labels s) i = Some (nth i (labels s) 0%Z).
Proof.
  intros H. apply nth_error_nth'. now rewrite labels_length.
Qed.

Lemma iloc_value_at (s : Series float) i :
  (i < length s)%nat -> iloc s i = Ok (value_at s i).
Proof.
  intros H. unfold iloc, value_at, values.
  destruct (nth_error s i) as [e|] eqn:E.
  - f_equal. symmetry. apply nth_error_nth. now rewrite nth_error_map, E.
  - apply nth_error_None in E. lia.
Qed.

(** * Percentage change, by position *)

Lemma zip_shift_nth (s : Series float) (prev : float) i :
  (i < length s)%nat ->
  nth_error (zip_with (fun x p => relative_deviation p x) s
                      (combine (labels s) (prev :: values s))) i
  = Some (nth i (labels s) 0%Z,
          relative_deviation (nth i (prev :: values s) nan) (nth i (values s) nan)).
Proof.
  revert prev i. induction s as [|[l x] s IH]; intros prev i Hi; simpl in Hi; [lia|].
  destruct i as [|i]; [reflexivity|].
  apply (IH x i). lia.
Qed.

Lemma pre_spike_nth (s : Series float) i :
  (i < length s)%nat -> nth i (nan :: values s) nan = pre_spike s i.
Proof.
  intros Hi. unfold pre_spike, value_at. destruct i as [|i]; simpl; auto.
  now rewrite Nat.sub_0_r.
Qed.

Lemma calculate_pct_change_nth (s : Series float) i :
  (i < length s)%nat ->
  nth_error (calculate_pct_change s) i = Some (nth i (labels s) 0%Z, pct_at s i).
Proof.
  intros Hi. unfold calculate_pct_change, shift1, pct_at.
  rewrite zip_shift_nth by assumption. now rewrite pre_spike_nth.
Qed.

Lemma calculate_pct_change_length (s : Series float) :
  length (calculate_pct_change s) = length s.
Proof.
  unfold calculate_pct_change, shift1, zip_with.
  rewrite length_map, !length_combine, labels_length. simpl.
  rewrite values_length. lia.
Qed.

Lemma labels_calculate_pct_change (s : Series float) :
  labels (calculate_pct_change s) = labels s.
Proof.
  apply nth_error_ext. intros i.
  destruct (Nat.lt_ge_cases i (length s)) as [Hi|Hi].
  - unfold labels at 1. rewrite nth_error_map, calculate_pct_change_nth by assumption.
    simpl. symmetry. now apply nth_error_labels.
  - transitivity (@None label); [|symmetry]; apply nth_error_None.
    + now rewrite labels_length, calculate_pct_change_length.
    + now rewrite labels_length.
Qed.

(** The candidate positions are the positions whose percentage change
    exceeds the threshold, in increasing order. *)
Lemma candidate_positions_In (s : Series float) t p :
  In p (candidate_positions s t) <->
  (p < length s)%nat /\ (t <? pct_at s p) = true.
Proof.
  unfold candidate_positions. rewrite positions_where_In, Nat.sub_0_r. split.
  - intros (_ & x & Hn & Hx).
    assert (Hp : (p < length s)%nat).
    { rewrite <- calculate_pct_change_length. apply nth_error_Some. congruence. }
    rewrite calculate_pct_change_nth in Hn by assumption.
    injection Hn as <-. auto.
  - intros (Hp & Ht). split; [lia|].
    eexists. rewrite calculate_pct_change_nth by assumption. split; eauto.
Qed.

Lemma candidate_positions_sorted (s : Series float) t :
  StronglySorted lt (candidate_positions s t).
Proof. apply positions_where_sorted. Qed.

Lemma candidate_labels (s : Series float) t :
  Forall2 (fun l p => nth_error (labels s) p = Some l /\ (p < length s)%nat)
          (find_spike_start_indices (calculate_pct_change s) t)
          (candidate_positions s t).
Proof.
  unfold find_spike_start_indices, candidate_positions.
  pose proof (labels_filter_positions (fun e => t <? snd e)
                (calculate_pct_change s) 0) as H.
  eapply Forall2_impl; [|exact H]. simpl.
  intros l p Hn. rewrite Nat.sub_0_r, labels_calculate_pct_change in Hn.
  split; auto. rewrite <- labels_length. apply nth_error_Some. congruence.
Qed.

(** * The reversion search, by position *)

Lemma any_idxmax_first_index {A} (g : A -> bool) (sl : Series A) :
  (if any (map_values g sl) then idxmax (map_values g sl) else None) =
  match first_index (fun e => g (snd e)) sl with
  | Some k => nth_error (labels sl) k
  | None => None
  end.
Proof.
  induction sl as [|[l x] sl IH]; [reflexivity|].
  unfold any, idxmax in *. simpl.
  destruct (g x) eqn:G; simpl; [reflexivity|].
  destruct (existsb snd (map_values g sl)) eqn:E.
  - destruct (find snd (map_values g sl)) as [e|] eqn:F.
    + rewrite IH. now destruct (first_index _ sl).
    + exfalso. apply existsb_exists in E. destruct E as (y & Hy & Sy).
      eapply find_none in F; eauto. congruence.
  - destruct (first_index _ sl); simpl; auto.
Qed.

Lemma map_values_compose {A B C} (f : A -> B) (g : B -> C) (s : Series A) :
  map_values g (map_values f s) = map_values (fun x => g (f x)) s.
Proof. unfold map_values. rewrite map_map. reflexivity. Qed.

Lemma find_reversion_index_pos (s : Series float) p pre t L :
  find_reversion_index s p pre t L =
  match reversion_pos s p pre t L with
  | Some r => nth_error (labels s) r
  | None => None
  end.
Proof.
  unfold find_reversion_index, reversion_pos.
  destruct (isna pre || (pre =? 0)); [reflexivity|].
  cbv zeta. rewrite map_values_compose.
  rewrite (any_idxmax_first_index (fun x => relative_deviation pre x <=? t)).
  set (e := Nat.min (p + L) (length s)).
  change (fun e0 : label * float => relative_deviation pre (snd e0) <=? t)
    with (fun e0 : label * float => reverted t pre (snd e0)).
  destruct (first_index _ (iloc_slice s p e)) as [k|] eqn:F; simpl; [|reflexivity].
  apply first_index_Some in F. destruct F as (Hk & _).
  assert (Hlt : (k < e - p)%nat).
  { rewrite iloc_slice_length in Hk; [exact Hk|]. unfold e. lia. }
  unfold labels. rewrite !nth_error_map. now rewrite nth_error_iloc_slice.
Qed.

(** What the search returns: the first position of the lookahead window
    whose value is back within the threshold of the pre-spike value. *)
Lemma reversion_pos_Some (s : Series float) p pre t L r :
  reversion_pos s p pre t L = Some r ->
  isna pre = false /\ (pre =? 0) = false /\
  (p <= r < Nat.min (p + L) (length s))%nat /\
  reverted t pre (value_at s r) = true /\
  (forall j, (p <= j < r)%nat -> reverted t pre (value_at s j) = false).
Proof.
  unfold reversion_pos.
  destruct (isna pre) eqn:Hn; [discriminate|].
  destruct (pre =? 0) eqn:Hz; [discriminate|]. simpl.
  set (e := Nat.min (p + L) (length s)).
  destruct (first_index _ (iloc_slice s p e)) as [k|] eqn:F; [|discriminate].
  simpl. intros [= <-].
  apply first_index_Some in F. destruct F as (Hk & (x & Hx & Fx) & Hj).
  assert (Hlt : (k < e - p)%nat).
  { rewrite iloc_slice_length in Hk; [exact Hk|]. unfold e. lia. }
  repeat split; auto; try lia.
  - rewrite nth_error_iloc_slice in Hx by assumption.
    unfold value_at, values. erewrite nth_error_nth; [exact Fx|].
    now rewrite nth_error_map, Hx.
  - intros j Hjr.
    assert (Hjs : (j < length s)%nat) by (unfold e in Hlt; lia).
    destruct (nth_error s j) as [y|] eqn:Ey; [|apply nth_error_None in Ey; lia].
    unfold value_at, values. erewrite nth_error_nth; [|now rewrite nth_error_map, Ey].
    simpl. apply (Hj (j - p)%nat y); [lia|].
    rewrite nth_error_iloc_slice by lia. now replace (p + (j - p))%nat with j by lia.
Qed.

Lemma reversion_pos_None (s : Series float) p pre t L :
  reversion_pos s p pre t L = None ->
  isna pre = true \/ (pre =? 0) = true \/
  (forall j, (p <= j < Nat.min (p + L) (length s))%nat ->
             reverted t pre (value_at s j) = false).
Proof.
  unfold reversion_pos.
  destruct (isna pre) eqn:Hn; [now left|].
  destruct (pre =? 0) eqn:Hz; [now right; left|]. simpl.
  set (e := Nat.min (p + L) (length s)).
  destruct (first_index _ (iloc_slice s p e)) as [k|] eqn:F; [discriminate|].
  intros _. right. right. intros j Hj.
  destruct (nth_error s j) as [y|] eqn:Ey; [|apply nth_error_None in Ey; lia].
  unfold value_at, values. erewrite nth_error_nth; [|now rewrite nth_error_map, Ey].
  simpl. apply (first_index_None _ _ F (j - p)%nat y).
  rewrite nth_error_iloc_slice by lia. now replace (p + (j - p))%nat with j by lia.
Qed.

(** Conversely, the search is determined by these properties. *)
Lemma reversion_pos_first (s : Series float) p pre t L r :
  isna pre = false -> (pre =? 0) = false ->
  (p <= r < Nat.min (p + L) (length s))%nat ->
  reverted t pre (value_at s r) = true ->
  (forall j, (p <= j < r)%nat -> reverted t pre (value_at s j) = false) ->
  reversion_pos s p pre t L = Some r.
Proof.
  intros Hn Hz Hr Hrev Hfirst.
  destruct (reversion_pos s p pre t L) as [r'|] eqn:E.
  - apply reversion_pos_Some in E. destruct E as (_ & _ & Hr' & Hrev' & Hfirst').
    destruct (Nat.lt_trichotomy r r') as [Hlt|[->|Hgt]]; [|reflexivity|].
    + rewrite Hfirst' in Hrev by lia. discriminate.
    + rewrite Hfirst in Hrev' by lia. discriminate.
  - apply reversion_pos_None in E. destruct E as [E|[E|E]]; try congruence.
    rewrite E in Hrev by lia. discriminate.
Qed.

Lemma reversion_pos_none (s : Series float) p pre t L :
  (forall j, (p <= j < Nat.min (p + L) (length s))%nat ->
             reverted t pre (value_at s j) = false) ->
  reversion_pos s p pre t L = None.
Proof.
  intros H. destruct (reversion_pos s p pre t L) as [r|] eqn:E; [|reflexivity].
  apply reversion_pos_Some in E. destruct E as (_ & _ & Hr & Hrev & _).
  rewrite H in Hrev by lia. discriminate.
Qed.

(** * The detection loop, by position *)

Section Loop.
Variable s : Series float.
Variable t : float.
Variable L : nat.
Hypothesis unique_labels : NoDup (labels s).

(** On a series with distinct labels, the loop body at the label of
    position [p] is the positional step at [p]. *)
Lemma spike_loop_body_traced_pos m pu log l p :
  labels m = labels s ->
  nth_error (labels s) p = Some l ->
  spike_loop_body_traced s t L ((m, pu), log) l =
  Ok (step_pos s t L ((m, pu), log) p).
Proof.
  intros Hm Hl.
  assert (Hp : (p < length s)%nat).
  { rewrite <- labels_length. apply nth_error_Some. congruence. }
  unfold spike_loop_body_traced, step_pos.
  rewrite (get_loc_NoDup _ _ _ unique_labels Hl). simpl.
  destruct (Z.of_nat p <=? pu)%Z; [reflexivity|].
  assert (Hpre : (if (0 <? p)%nat then iloc s (p - 1) else Ok nan)
                 = Ok (pre_spike s p)).
  { unfold pre_spike. destruct (0 <? p)%nat eqn:E; [|reflexivity].
    apply iloc_value_at. lia. }
  rewrite Hpre. simpl. rewrite find_reversion_index_pos.
  destruct (reversion_pos s p (pre_spike s p) t L) as [r|] eqn:E; [|reflexivity].
  apply reversion_pos_Some in E. destruct E as (_ & _ & Hr & _).
  rewrite nth_error_labels by lia.
  unfold mark_spike_region. rewrite Hm.
  rewrite (get_loc_NoDup _ _ _ unique_labels Hl). simpl.
  rewrite (get_loc_NoDup _ _ r unique_labels) by (apply nth_error_labels; lia).
  reflexivity.
Qed.

Lemma step_pos_labels m pu log p :
  labels m = labels s ->
  labels (fst (fst (step_pos s t L ((m, pu), log) p))) = labels s.
Proof.
  intros Hm. unfold step_pos.
  destruct (Z.of_nat p <=? pu)%Z; [exact Hm|].
  destruct (reversion_pos s p (pre_spike s p) t L); simpl; auto.
  now rewrite labels_iloc_set_slice.
Qed.

Lemma for_each_traced_pos ls ps st :
  Forall2 (fun l p => nth_error (labels s) p = Some l /\ (p < length s)%nat) ls ps ->
  labels (fst (fst st)) = labels s ->
  for_each (spike_loop_body_traced s t L) ls st = Ok (run_pos s t L ps st).
Proof.
  intros H. revert st. induction H as [|l p ls ps [Hl Hp] _ IH]; intros st Hm.
  - reflexivity.
  - destruct st as [[m pu] log]. simpl in Hm.
    unfold run_pos in *. cbn [for_each fold_left].
    rewrite (spike_loop_body_traced_pos _ _ _ _ _ Hm Hl). cbn [bind].
    apply IH. now apply step_pos_labels.
Qed.

Lemma detect_reverting_spikes_traced_pos :
  detect_reverting_spikes_traced s t L =
  Ok (let st := run_pos s t L (candidate_positions s t)
                        ((all_false s, (-1)%Z), []) in
      (fst (fst st), snd st)).
Proof.
  unfold detect_reverting_spikes_traced.
  rewrite (for_each_traced_pos _ (candidate_positions s t)).
  - reflexivity.
  - apply candidate_labels.
  - apply labels_all_false.
Qed.

End Loop.

(** Erasing the recorded searches gives back the loop of the source. *)
Lemma spike_loop_body_erase s t L st log l :
  spike_loop_body s t L st l =
  (r <- spike_loop_body_traced s t L (st, log) l ;; Ok (fst r)).
Proof.
  destruct st as [m pu]. unfold spike_loop_body, spike_loop_body_traced.
  destruct (get_loc (labels s) l) as [p|e]; simpl; [|reflexivity].
  destruct (Z.of_nat p <=? pu)%Z; [reflexivity|].
  destruct (if (0 <? p)%nat then iloc s (p - 1) else Ok nan) as [pre|e]; simpl;
    [|reflexivity].
  destruct (find_reversion_index s p pre t L) as [rl|]; [|reflexivity].
  destruct (mark_spike_region m l rl) as [m'|e]; simpl; [|reflexivity].
  destruct (get_loc (labels s) rl) as [r|e]; reflexivity.
Qed.

Lemma for_each_erase s t L ls st log :
  for_each (spike_loop_body s t L) ls st =
  (r <- for_each (spike_loop_body_traced s t L) ls (st, log) ;; Ok (fst r)).
Proof.
  revert st log. induction ls as [|l ls IH]; intros st log; [reflexivity|].
  cbn [for_each]. rewrite (spike_loop_body_erase s t L st log l).
  destruct (spike_loop_body_traced s t L (st, log) l) as [[st' log']|e];
    cbn [bind fst]; [apply IH | reflexivity].
Qed.

Lemma detect_reverting_spikes_erase s t L :
  detect_reverting_spikes s t L =
  (r <- detect_reverting_spikes_traced s t L ;; Ok (fst r)).
Proof.
  unfold detect_reverting_spikes, detect_reverting_spikes_traced.
  rewrite (for_each_erase s t L _ _ []).
  destruct (for_each (spike_loop_body_traced s t L) _ _) as [[[m pu] log]|e];
    reflexivity.
Qed.

Lemma detect_reverting_spikes_pos s t L :
  NoDup (labels s) ->
  detect_reverting_spikes s t L =
  Ok (fst (fst (run_pos s t L (candidate_positions s t)
                        ((all_false s, (-1)%Z), [])))).
Proof.
  intros H. rewrite detect_reverting_spikes_erase.
  now rewrite detect_reverting_spikes_traced_pos.
Qed.

(** * Invariant of the detection loop *)

Lemma StronglySorted_snoc {A} (R : A -> A -> Prop) (l : list A) (x : A) :
  StronglySorted R l -> Forall (fun a => R a x) l -> StronglySorted R (l ++ [x]).
Proof.
  induction 1 as [|a l Hl IH Ha]; intros Hx; simpl.
  - repeat constructor.
  - inversion Hx; subst. constructor; auto.
    apply Forall_app. split; auto.
Qed.

Lemma flagged_all_false {A} (s : Series A) i : flagged (all_false s) i = false.
Proof.
  unfold flagged, all_false. rewrite values_map_values.
  revert i. induction (values s) as [|x l IH]; intros [|i]; simpl; auto.
Qed.

Lemma in_region_snoc_None log q i :
  in_region (log ++ [(q, None)]) i <-> in_region log i.
Proof.
  unfold in_region. split; intros (p & r & Hin & Hi); exists p, r; split; auto.
  - apply in_app_or in Hin. destruct Hin as [H|[H|[]]]; [exact H|discriminate].
  - apply in_or_app. now left.
Qed.

Lemma in_region_snoc_Some log q r i :
  in_region (log ++ [(q, Some r)]) i <-> in_region log i \/ (q <= i < r)%nat.
Proof.
  unfold in_region. split.
  - intros (p & r' & Hin & Hi). apply in_app_or in Hin.
    destruct Hin as [H|[H|[]]]; [left; eauto|].
    injection H as <- <-. now right.
  - intros [(p & r' & Hin & Hi)|Hi].
    + exists p, r'. split; auto. apply in_or_app. now left.
    + exists q, r. split; auto. apply in_or_app. right. now left.
Qed.

Section Invariant.
Variable s : Series float.
Variable t : float.
Variable L : nat.

Lemma loop_inv_init : loop_inv s t L [] ((all_false s, (-1)%Z), []).
Proof.
  constructor; simpl.
  - apply labels_all_false.
  - intros i. rewrite flagged_all_false. split; [discriminate|].
    intros (p & r & [] & _).
  - intros p res [].
  - intros p r [].
  - now left.
  - constructor.
  - intros q [].
Qed.

Lemma loop_inv_step done st q :
  loop_inv s t L done st ->
  (forall d, In d done -> (d < q)%nat) ->
  loop_inv s t L (done ++ [q]) (step_pos s t L st q).
Proof.
  destruct st as [[m pu] log]. intros [I1 I2 I3 I4 I5 I6 I7] Hdone.
  simpl in *. unfold step_pos.
  destruct (Z.leb_spec (Z.of_nat q) pu) as [Hskip|Hnew].
  - (* inside or at the end of a resolved region: skipped *)
    constructor; simpl; auto.
    + intros p res Hin. destruct (I3 p res Hin). split; auto.
      apply in_or_app. now left.
    + intros q' Hq'. apply in_app_or in Hq'. destruct Hq' as [Hq'|[<-|[]]]; auto.
      right. destruct I5 as [->|(p & r & Hin & ->)]; [lia|].
      exists p, r. split; auto. destruct (I3 _ _ Hin) as [Hp _].
      apply Hdone in Hp. lia.
  - assert (Hbefore : Forall (fun a => search_before a (q, reversion_pos s q (pre_spike s q) t L)) log).
    { apply Forall_forall. intros [p res] Hin. unfold search_before. simpl.
      destruct (I3 _ _ Hin) as [Hp _]. split; [now apply Hdone|].
      intros r ->. apply I4 in Hin. lia. }
    destruct (reversion_pos s q (pre_spike s q) t L) as [r|] eqn:E.
    + (* a reverting spike: region [q, r) is marked *)
      pose proof (reversion_pos_Some _ _ _ _ _ _ E) as (_ & _ & Hr & _).
      constructor; simpl.
      * now rewrite labels_iloc_set_slice.
      * intros i. rewrite in_region_snoc_Some, <- I2. unfold flagged.
        rewrite values_iloc_set_slice_nth.
        assert (Hlen : length m = length s).
        { rewrite <- !labels_length. now rewrite I1. }
        rewrite Hlen.
        destruct (Nat.leb_spec q i), (Nat.ltb_spec i r), (Nat.ltb_spec i (length s));
          simpl;
          (split;
           [ intros Hf; first [now left | right; lia]
           | intros [Hf|Hf]; first [assumption | reflexivity | lia] ]).
      * intros p res Hin. apply in_app_or in Hin.
        destruct Hin as [Hin|[[= <- <-]|[]]].
        -- destruct (I3 _ _ Hin). split; auto. apply in_or_app. now left.
        -- split; auto. apply in_or_app. right. now left.
      * intros p r' Hin. apply in_app_or in Hin.
        destruct Hin as [Hin|[[= <- <-]|[]]]; [|lia].
        apply I4 in Hin. lia.
      * right. exists q, r. split; auto. apply in_or_app. right. now left.
      * now apply StronglySorted_snoc.
      * intros q' Hq'. apply in_app_or in Hq'. destruct Hq' as [Hq'|[<-|[]]].
        -- destruct (I7 _ Hq') as [(res & Hin)|(p & r' & Hin & Hle)].
           ++ left. exists res. apply in_or_app. now left.
           ++ right. exists p, r'. split; auto. apply in_or_app. now left.
        -- left. exists (Some r). apply in_or_app. right. now left.
    + (* no reversion: permanent shift, nothing marked *)
      constructor; simpl; auto.
      * intros i. now rewrite in_region_snoc_None.
      * intros p res Hin. apply in_app_or in Hin.
        destruct Hin as [Hin|[[= <- <-]|[]]].
        -- destruct (I3 _ _ Hin). split; auto. apply in_or_app. now left.
        -- split; auto. apply in_or_app. right. now left.
      * intros p r Hin. apply in_app_or in Hin.
        destruct Hin as [Hin|[[=]|[]]]. now apply I4 in Hin.
      * destruct I5 as [->|(p & r & Hin & ->)]; [now left|right].
        exists p, r. split; auto. apply in_or_app. now left.
      * now apply StronglySorted_snoc.
      * intros q' Hq'. apply in_app_or in Hq'. destruct Hq' as [Hq'|[<-|[]]].
        -- destruct (I7 _ Hq') as [(res & Hin)|(p & r' & Hin & Hle)].
           ++ left. exists res. apply in_or_app. now left.
           ++ right. exists p, r'. split; auto. apply in_or_app. now left.
        -- left. exists None. apply in_or_app. right. now left.
Qed.

Lemma loop_inv_run rem : forall done st,
  StronglySorted lt rem ->
  (forall d q, In d done -> In q rem -> (d < q)%nat) ->
  loop_inv s t L done st ->
  loop_inv s t L (done ++ rem) (run_pos s t L rem st).
Proof.
  induction rem as [|q rem IH]; intros done st Hs Hlt Hinv.
  - now rewrite app_nil_r.
  - inversion Hs as [|? ? Hs' Hq]; subst.
    unfold run_pos. cbn [fold_left].
    replace (done ++ q :: rem) with ((done ++ [q]) ++ rem)
      by (now rewrite <- app_assoc).
    apply IH; auto.
    + intros d q' Hd Hq'. apply in_app_or in Hd. destruct Hd as [Hd|[<-|[]]].
      * apply Hlt; auto. now right.
      * rewrite Forall_forall in Hq. now apply Hq.
    + apply loop_inv_step; auto. intros d Hd. apply Hlt; auto. now left.
Qed.

(** The invariant holds when the loop ends. *)
Lemma loop_inv_final :
  loop_inv s t L (candidate_positions s t)
           (run_pos s t L (candidate_positions s t) ((all_false s, (-1)%Z), [])).
Proof.
  apply (loop_inv_run (candidate_positions s t) []).
  - apply candidate_positions_sorted.
  - intros d q [].
  - apply loop_inv_init.
Qed.

End Invariant.

(** * Forward fill *)

Lemma zip_with_nth_error {A B C} (f : A -> B -> C) (a : Series A) (b : Series B) i :
  nth_error (zip_with f a b) i =
  match nth_error a i, nth_error b i with
  | Some x, Some y => Some (fst x, f (snd x) (snd y))
  | _, _ => None
  end.
Proof.
  revert b i. induction a as [|x a IH]; intros [|y b] [|i]; simpl; auto.
  - now destruct (nth_error a i).
  - apply IH.
Qed.

Lemma zip_with_length {A B C} (f : A -> B -> C) (a : Series A) (b : Series B) :
  length (zip_with f a b) = Nat.min (length a) (length b).
Proof. unfold zip_with. now rewrite length_map, length_combine. Qed.

Lemma labels_zip_with {A B C} (f : A -> B -> C) (a : Series A) (b : Series B) :
  length a = length b -> labels (zip_with f a b) = labels a.
Proof.
  revert b. induction a as [|x a IH]; intros [|y b]; simpl; try discriminate; auto.
  intros [= H]. f_equal. now apply IH.
Qed.

Lemma value_at_nth_error (s : Series float) i e :
  nth_error s i = Some e -> value_at s i = snd e.
Proof.
  intros H. unfold value_at, values. apply nth_error_nth.
  now rewrite nth_error_map, H.
Qed.

Lemma flagged_nth_error (m : Series bool) i e :
  nth_error m i = Some e -> flagged m i = snd e.
Proof.
  intros H. unfold flagged, values. apply nth_error_nth.
  now rewrite nth_error_map, H.
Qed.

Lemma value_at_overflow (s : Series float) i :
  (length s <= i)%nat -> value_at s i = nan.
Proof. intros H. apply nth_overflow. now rewrite values_length. Qed.

Lemma set_where_value_at (s : Series float) (m : Series bool) i :
  length m = length s ->
  value_at (set_where s m nan) i = if flagged m i then nan else value_at s i.
Proof.
  intros Hlen. destruct (nth_error s i) as [x|] eqn:Ex.
  - destruct (nth_error m i) as [y|] eqn:Ey.
    + rewrite (flagged_nth_error _ _ _ Ey), (value_at_nth_error _ _ _ Ex).
      erewrite value_at_nth_error;
        [|unfold set_where; rewrite zip_with_nth_error, Ex, Ey; reflexivity].
      reflexivity.
    + apply nth_error_None in Ey.
      assert (i < length s)%nat by (apply nth_error_Some; congruence). lia.
  - apply nth_error_None in Ex.
    rewrite !value_at_overflow; [now destruct (flagged m i)|lia|].
    unfold set_where. rewrite zip_with_length. lia.
Qed.

Lemma labels_ffill_from last (c : Series float) :
  labels (ffill_from last c) = labels c.
Proof.
  revert last. induction c as [|e c IH]; intros last; simpl; auto.
  destruct (isna (snd e)); simpl; now rewrite IH.
Qed.

(** A present value is kept. *)
Lemma ffill_from_present last (c : Series float) i :
  isna (value_at c i) = false ->
  value_at (ffill_from last c) i = value_at c i.
Proof.
  revert last i. induction c as [|e c IH]; intros last i H; [reflexivity|].
  simpl. destruct i as [|i].
  - unfold value_at in *. simpl in *. now rewrite H.
  - destruct (isna (snd e)); apply IH; exact H.
Qed.

(** A missing first value takes the carried value. *)
Lemma ffill_from_first last (c : Series float) :
  (0 < length c)%nat -> isna (value_at c 0) = true ->
  value_at (ffill_from last c) 0 = last.
Proof.
  destruct c as [|e c]; simpl; [lia|]. intros _ H.
  unfold value_at in *. simpl in *. now rewrite H.
Qed.

(** A missing later value takes the filled value before it. *)
Lemma ffill_from_missing last (c : Series float) i :
  (S i < length c)%nat -> isna (value_at c (S i)) = true ->
  value_at (ffill_from last c) (S i) = value_at (ffill_from last c) i.
Proof.
  revert last i. induction c as [|e c IH]; intros last i Hi H; simpl in Hi; [lia|].
  destruct i as [|i].
  - assert (H0 : forall last', value_at (ffill_from last' c) 0 = last').
    { intros last'. apply ffill_from_first; [lia|exact H]. }
    simpl. destruct (isna (snd e)) eqn:E.
    + change (value_at (ffill_from last c) 0 = last). apply H0.
    + change (value_at (ffill_from (snd e) c) 0 = snd e). apply H0.
  - simpl. destruct (isna (snd e));
      [change (value_at (ffill_from last c) (S i) = value_at (ffill_from last c) i)
      |change (value_at (ffill_from (snd e) c) (S i) = value_at (ffill_from (snd e) c) i)];
      apply IH; auto; lia.
Qed.

(** Every filled value is the carried value or a present value at or
    before its position. *)
Lemma ffill_from_source last (c : Series float) i :
  (i < length c)%nat ->
  value_at (ffill_from last c) i = last \/
  exists j, (j <= i)%nat /\ isna (value_at c j) = false /\
            value_at (ffill_from last c) i = value_at c j.
Proof.
  revert last i. induction c as [|e c IH]; intros last i Hi; simpl in Hi; [lia|].
  simpl. destruct (isna (snd e)) eqn:E.
  - destruct i as [|i]; [now left|].
    destruct (IH last i ltac:(lia)) as [H|(j & Hj & Hn & H)]; [now left|].
    right. exists (S j). split; [lia|]. split; assumption.
  - destruct i as [|i].
    + right. exists 0%nat. split; [lia|]. split; [exact E|reflexivity].
    + destruct (IH (snd e) i ltac:(lia)) as [H|(j & Hj & Hn & H)].
      * right. exists 0%nat. split; [lia|]. split; [exact E|exact H].
      * right. exists (S j). split; [lia|]. split; assumption.
Qed.

(** ** The corrector *)

Section Corrector.
Variable s : Series float.
Variable m : Series bool.
Hypothesis same_length : length m = length s.

Let out := apply_forward_fill_correction s m.

Lemma set_where_length : length (set_where s m nan) = length s.
Proof. unfold set_where. rewrite zip_with_length. lia. Qed.

Lemma apply_forward_fill_correction_labels : labels out = labels s.
Proof.
  unfold out, apply_forward_fill_correction, ffill.
  rewrite labels_ffill_from. unfold set_where. apply labels_zip_with. lia.
Qed.

Lemma apply_forward_fill_correction_length : length out = length s.
Proof. rewrite <- !labels_length. now rewrite apply_forward_fill_correction_labels. Qed.

(** A position that is neither flagged nor missing keeps its value. *)
Lemma corrector_kept i :
  flagged m i = false -> isna (value_at s i) = false ->
  value_at out i = value_at s i.
Proof.
  intros Hf Hn. unfold out, apply_forward_fill_correction, ffill.
  rewrite ffill_from_present; rewrite set_where_value_at, Hf by assumption; auto.
Qed.

(** A flagged or missing position takes the output value before it. *)
Lemma corrector_filled i :
  (S i < length s)%nat ->
  flagged m (S i) = true \/ isna (value_at s (S i)) = true ->
  value_at out (S i) = value_at out i.
Proof.
  intros Hi H. unfold out, apply_forward_fill_correction, ffill.
  apply ffill_from_missing; [now rewrite set_where_length|].
  rewrite set_where_value_at by assumption.
  destruct (flagged m (S i)); [reflexivity|]. now destruct H.
Qed.

(** A flagged or missing first position is missing in the output. *)
Lemma corrector_first :
  (0 < length s)%nat ->
  flagged m 0 = true \/ isna (value_at s 0) = true ->
  value_at out 0 = nan.
Proof.
  intros Hi H. unfold out, apply_forward_fill_correction, ffill.
  apply ffill_from_first; [now rewrite set_where_length|].
  rewrite set_where_value_at by assumption.
  destruct (flagged m 0); [reflexivity|]. now destruct H.
Qed.

(** Every present output value is an unflagged input value at or before
    its position. *)
Lemma corrector_source i :
  (i < length s)%nat -> isna (value_at out i) = false ->
  exists j, (j <= i)%nat /\ flagged m j = false /\
            isna (value_at s j) = false /\ value_at out i = value_at s j.
Proof.
  intros Hi Hn. unfold out, apply_forward_fill_correction, ffill in *.
  destruct (ffill_from_source nan (set_where s m nan) i) as [H|(j & Hj & Hp & H)].
  - now rewrite set_where_length.
  - rewrite H in Hn. discriminate.
  - rewrite set_where_value_at in Hp, H by assumption.
    destruct (flagged m j) eqn:F; [discriminate|].
    exists j. auto.
Qed.

(** All positions of a flagged run take the output value just before the
    run. *)
Lemma corrector_run p i :
  (0 < p <= i)%nat -> (i < length s)%nat ->
  (forall k, (p <= k <= i)%nat -> flagged m k = true) ->
  value_at out i = value_at out (p - 1).
Proof.
  intros Hp Hi Hrun. induction i as [|i IH]; [lia|].
  destruct (Nat.eq_dec p (S i)) as [->|Hne].
  - rewrite corrector_filled; [|lia|left; apply Hrun; lia].
    now replace (S i - 1)%nat with i by lia.
  - rewrite corrector_filled; [|lia|left; apply Hrun; lia].
    apply IH; try lia. intros k Hk. apply Hrun. lia.
Qed.

End Corrector.

(** * The forward-fill corrector: frame and run properties *)

(** C2, refuted as stated: on the series [5, NaN] with nothing flagged, the
    corrector fills the missing value at position 1 with 5, although its
    mask entry is false. *)
Lemma forward_fill_fills_unflagged_missing :
  ~ (forall (s : Series float) (m : Series bool) (i : nat),
        length m = length s -> flagged m i = false ->
        value_at (apply_forward_fill_correction s m) i = value_at s i).
Proof.
  intros H.
  specialize (H (of_values [5; nan]) (of_values [false; false]) 1%nat
                eq_refl eq_refl).
  apply (f_equal isna) in H. vm_compute in H. discriminate.
Qed.

(** C2 (amended): the corrector leaves every unflagged position whose input
    value is present unchanged; an unflagged position whose input value is
    missing is filled like a flagged one: it takes the output value of the
    position before it (and is missing at position 0). *)
Theorem forward_fill_unflagged (s : Series float) (m : Series bool) (i : nat) :
  length m = length s -> (i < length s)%nat -> flagged m i = false ->
  (isna (value_at s i) = false ->
   value_at (apply_forward_fill_correction s m) i = value_at s i) /\
  (isna (value_at s i) = true ->
   value_at (apply_forward_fill_correction s m) i =
   match i with
   | O => nan
   | S k => value_at (apply_forward_fill_correction s m) k
   end).
Proof.
  intros Hlen Hi Hf. split; intros Hn.
  - now apply corrector_kept.
  - destruct i as [|k].
    + apply corrector_first; auto.
    + apply corrector_filled; auto.
Qed.

Lemma forward_fill_unflagged_witness :
  let s := of_values [5; nan; 7] in
  let m := of_values [false; false; true] in
  (isna (value_at s 1) = false ->
   value_at (apply_forward_fill_correction s m) 1 = value_at s 1) /\
  (isna (value_at s 1) = true ->
   value_at (apply_forward_fill_correction s m) 1 =
   value_at (apply_forward_fill_correction s m) 0).
Proof.
  intros s m. apply (forward_fill_unflagged s m 1).
  - reflexivity.
  - vm_compute. lia.
  - reflexivity.
Defined.

(** C7, refuted as stated: on [5, NaN, 9] with only position 2 flagged, the
    run [2, 3) follows the unflagged position 1, whose value is missing; the
    corrected value at 2 is 5, not the (missing) value at position 1. *)
Lemma forward_fill_run_skips_missing :
  ~ (forall (s : Series float) (m : Series bool) (p r i : nat),
        length m = length s ->
        (0 < p)%nat -> (p <= i < r)%nat -> (r <= length s)%nat ->
        (forall k, (p <= k < r)%nat -> flagged m k = true) ->
        flagged m (p - 1) = false -> flagged m r = false ->
        value_at (apply_forward_fill_correction s m) i = value_at s (p - 1)).
Proof.
  intros H.
  specialize (H (of_values [5; nan; 9]) (of_values [false; false; true])
                2%nat 3%nat 2%nat eq_refl).
  assert (E : value_at (apply_forward_fill_correction (of_values [5; nan; 9])
                          (of_values [false; false; true])) 2
              = value_at (of_values [5; nan; 9]) (2 - 1)).
  { apply H; try reflexivity; try lia; try (vm_compute; lia).
    intros k Hk. assert (k = 2%nat) as -> by lia. reflexivity. }
  apply (f_equal isna) in E. vm_compute in E. discriminate.
Qed.

(** C7 (amended): for a flagged run [p, r) with p > 0 whose predecessor
    p-1 is unflagged, every corrected value inside the run equals the
    corrected value at p-1; that is [value[p-1]] when [value[p-1]] is not
    missing (otherwise it is the last present value carried to p-1). *)
Theorem forward_fill_run (s : Series float) (m : Series bool) (p r i : nat) :
  length m = length s ->
  (0 < p)%nat -> (p <= i < r)%nat -> (r <= length s)%nat ->
  (forall k, (p <= k < r)%nat -> flagged m k = true) ->
  flagged m (p - 1) = false ->
  value_at (apply_forward_fill_correction s m) i =
  value_at (apply_forward_fill_correction s m) (p - 1) /\
  (isna (value_at s (p - 1)) = false ->
   value_at (apply_forward_fill_correction s m) i = value_at s (p - 1)).
Proof.
  intros Hlen Hp Hi Hr Hrun Hprev.
  assert (E : value_at (apply_forward_fill_correction s m) i =
              value_at (apply_forward_fill_correction s m) (p - 1)).
  { apply corrector_run; auto; try lia. intros k Hk. apply Hrun. lia. }
  split; [exact E|]. intros Hn. rewrite E. now apply corrector_kept.
Qed.

Lemma forward_fill_run_witness :
  let s := of_values [100; 100; 100; 250; 100; 100] in
  let m := of_values [false; false; false; true; false; false] in
  value_at (apply_forward_fill_correction s m) 3 =
  value_at (apply_forward_fill_correction s m) (3 - 1) /\
  (isna (value_at s (3 - 1)) = false ->
   value_at (apply_forward_fill_correction s m) 3 = value_at s (3 - 1)).
Proof.
  intros s m. apply (forward_fill_run s m 3 4 3).
  - reflexivity.
  - lia.
  - lia.
  - vm_compute. lia.
  - intros k Hk. assert (k = 3%nat) as -> by lia. reflexivity.
  - reflexivity.
Defined.

(** * Undefined bases *)

Lemma Forall2_In_l {A B} (R : A -> B -> Prop) (la : list A) (lb : list B) a :
  Forall2 R la lb -> In a la -> exists b, In b lb /\ R a b.
Proof.
  induction 1 as [|x y la lb Hxy _ IH]; intros Hin; [contradiction|].
  destruct Hin as [->|Hin].
  - exists y. split; [now left|assumption].
  - destruct (IH Hin) as (b & Hb & Hab). exists b. split; [now right|assumption].
Qed.

Lemma relative_deviation_nan_base x : relative_deviation nan x = nan.
Proof.
  unfold relative_deviation. now rewrite FloatFacts.div_nan_r.
Qed.

Lemma relative_deviation_nan_value b : relative_deviation b nan = nan.
Proof.
  unfold relative_deviation.
  now rewrite FloatFacts.sub_nan_l, FloatFacts.abs_nan, FloatFacts.div_nan_l.
Qed.

(** A candidate label of a series with distinct labels sits at a candidate
    position. *)
Lemma candidate_label_position (s : Series float) t l p :
  NoDup (labels s) -> nth_error (labels s) p = Some l ->
  In l (find_spike_start_indices (calculate_pct_change s) t) ->
  In p (candidate_positions s t).
Proof.
  intros Hnd Hl Hin.
  destruct (Forall2_In_l _ _ _ _ (candidate_labels s t) Hin) as (q & Hq & Hlq & Hlen).
  assert (p = q) as ->; [|exact Hq].
  apply (proj1 (NoDup_nth_error (labels s)) Hnd).
  - apply nth_error_Some. congruence.
  - congruence.
Qed.

(** C4, refuted as stated: in the series [0, 5] the value before position 1
    is zero, the percentage change at 1 is 5/0 = +infinity, which exceeds
    the threshold 1, and label 1 is collected as a spike-start candidate. *)
Lemma zero_base_candidate_collected :
  ~ (forall (s : Series float) (t : float) (i : nat),
        (0 < i < length s)%nat ->
        (value_at s (i - 1) =? 0) = true \/ isna (value_at s (i - 1)) = true ->
        ~ In (nth i (labels s) 0%Z)
             (find_spike_start_indices (calculate_pct_change s) t)).
Proof.
  intros H.
  apply (H (of_values [0; 5]) 1 1%nat).
  - vm_compute. lia.
  - left. reflexivity.
  - vm_compute. now left.
Qed.

(** C4 (amended): when [value[i-1]] is missing, the percentage change at
    [i] is missing and no candidate is collected at [i].  When
    [value[i-1]] is zero the percentage change is a division by zero
    (infinite when [value[i]] is a non-zero number), so [i] can be
    collected; but for a zero or missing base [find_reversion_index]
    returns no reversion and the loop body leaves mask and processed
    boundary as they are: no spike is flagged from an undefined base. *)
Theorem undefined_base_never_flags (s : Series float) (t : float) (L i : nat) :
  NoDup (labels s) -> (0 < i < length s)%nat ->
  (isna (value_at s (i - 1)) = true ->
   value_at (calculate_pct_change s) i = nan /\
   ~ In (nth i (labels s) 0%Z)
        (find_spike_start_indices (calculate_pct_change s) t)) /\
  (isna (value_at s (i - 1)) = true \/ (value_at s (i - 1) =? 0) = true ->
   find_reversion_index s i (value_at s (i - 1)) t L = None /\
   forall (m : Series bool) (pu : Z),
     labels m = labels s ->
     spike_loop_body s t L (m, pu) (nth i (labels s) 0%Z) = Ok (m, pu)).
Proof.
  intros Hnd Hi.
  assert (Hpre : pre_spike s i = value_at s (i - 1)).
  { unfold pre_spike. destruct (Nat.ltb_spec 0 i); [reflexivity|lia]. }
  split.
  - intros Hn. apply FloatFacts.isna_nan in Hn.
    assert (Hpct : pct_at s i = nan).
    { unfold pct_at. rewrite Hpre, Hn. apply relative_deviation_nan_base. }
    split.
    + erewrite value_at_nth_error; [|apply calculate_pct_change_nth; lia].
      exact Hpct.
    + intros Hin.
      apply (candidate_label_position s t _ i Hnd) in Hin;
        [|apply nth_error_labels; lia].
      apply candidate_positions_In in Hin. destruct Hin as [_ Hin].
      rewrite Hpct, FloatFacts.ltb_nan_r in Hin. discriminate.
  - intros Hbase.
    assert (Hguard : isna (value_at s (i - 1)) || (value_at s (i - 1) =? 0) = true).
    { apply orb_true_iff. exact Hbase. }
    split.
    + unfold find_reversion_index. now rewrite Hguard.
    + intros m pu Hm.
      rewrite (spike_loop_body_erase s t L (m, pu) [] _).
      rewrite (spike_loop_body_traced_pos s t L Hnd m pu [] _ i Hm)
        by (apply nth_error_labels; lia).
      unfold step_pos. destruct (Z.of_nat i <=? pu)%Z; [reflexivity|].
      unfold reversion_pos. rewrite Hpre, Hguard. reflexivity.
Qed.

Lemma undefined_base_never_flags_witness :
  let s := of_values [0; 5; 1] in
  (isna (value_at s (1 - 1)) = true ->
   value_at (calculate_pct_change s) 1 = nan /\
   ~ In (nth 1 (labels s) 0%Z)
        (find_spike_start_indices (calculate_pct_change s) 1)) /\
  (isna (value_at s (1 - 1)) = true \/ (value_at s (1 - 1) =? 0) = true ->
   find_reversion_index s 1 (value_at s (1 - 1)) 1 600 = None /\
   forall (m : Series bool) (pu : Z),
     labels m = labels s ->
     spike_loop_body s 1 600 (m, pu) (nth 1 (labels s) 0%Z) = Ok (m, pu)).
Proof.
  intros s. apply (undefined_base_never_flags s 1 600 1).
  - distinct_labels.
  - vm_compute. lia.
Defined.

(** * Rolling-median detector on a zero median *)

(** C5, the code at the failing input: in [0, 0, 0, 0, 0, 7] the centered
    rolling median at position 5 is defined (6 observations) and equal to
    zero; the deviation 7/0 is +infinity, which exceeds 0.40, so position 5
    is flagged and the corrector overwrites 7 with 0. *)
Theorem rolling_median_zero_flags :
  let s := of_values [0; 0; 0; 0; 0; 7] in
  value_at (rolling_median ROLLING_WINDOW_DAYS ROLLING_MIN_PERIODS s) 5 = 0 /\
  detect_rolling_median_outliers s
  = of_values [false; false; false; false; false; true] /\
  apply_forward_fill_correction s (detect_rolling_median_outliers s)
  = of_values [0; 0; 0; 0; 0; 0].
Proof. vm_compute. repeat split. Qed.

(** * No validation on entry *)

(** C3, refuted as stated: a series whose index repeats the label 0, and a
    series whose index decreases, both go through the pipeline, which
    returns a series and signals nothing. *)
Lemma invalid_index_not_rejected :
  let dup := [(0%Z, 1); (0%Z, 1)] in
  let dec := [(2%Z, 100); (1%Z, 250); (0%Z, 100)] in
  ~ NoDup (labels dup) /\
  correct_shares_outstanding_outliers dup = Ok dup /\
  ~ StronglySorted Z.lt (labels dec) /\
  correct_shares_outstanding_outliers dec
  = Ok [(2%Z, 100); (1%Z, 100); (0%Z, 100)].
Proof.
  simpl. repeat split.
  - intros H. inversion H as [|? ? Hnotin _]; subst. apply Hnotin. now left.
  - intros H. inversion H as [|? ? _ Hall]; subst.
    inversion Hall; subst. lia.
Qed.

(** * The passes of the pipeline *)

Lemma correct_shares_outstanding_outliers_passes (s : Series float) :
  correct_shares_outstanding_outliers s =
  (c <- reversion_passes s ;; Ok (rolling_pass c)).
Proof.
  unfold correct_shares_outstanding_outliers, reversion_passes, reversion_pass,
    rolling_pass.
  destruct (detect_reverting_spikes s 1 MAX_LOOKAHEAD_DAYS) as [o1|e];
    [cbn [bind]|reflexivity].
  destruct (detect_reverting_spikes _ 0.5 MAX_LOOKAHEAD_DAYS) as [o2|e];
    [cbn [bind]|reflexivity].
  destruct (detect_reverting_spikes _ 0.35 MAX_LOOKAHEAD_DAYS) as [o3|e];
    reflexivity.
Qed.

Lemma same_labels_length {A B} (a : Series A) (b : Series B) :
  labels a = labels b -> length a = length b.
Proof. intros H. rewrite <- !labels_length. now rewrite H. Qed.

(** On distinct labels the detector returns a mask over the same index. *)
Lemma detect_reverting_spikes_ok (s : Series float) t L :
  NoDup (labels s) ->
  exists mask, detect_reverting_spikes s t L = Ok mask /\ labels mask = labels s.
Proof.
  intros Hnd. rewrite (detect_reverting_spikes_pos s t L Hnd).
  eexists. split; [reflexivity|]. apply (inv_labels _ _ _ _ _ (loop_inv_final s t L)).
Qed.

Lemma copies_forward_trans a b c :
  copies_forward a b -> copies_forward b c -> copies_forward a c.
Proof.
  intros [Lab Hab] [Lbc Hbc]. split; [congruence|].
  assert (Hlen : length b = length a) by now apply same_labels_length.
  intros i Hi Hn.
  destruct (Hbc i ltac:(lia) Hn) as (j & Hj & Hnj & Ej).
  destruct (Hab j ltac:(lia) Hnj) as (k & Hk & Hnk & Ek).
  exists k. split; [lia|]. split; [assumption|congruence].
Qed.

Lemma corrector_copies_forward (s : Series float) (m : Series bool) :
  labels m = labels s -> copies_forward s (apply_forward_fill_correction s m).
Proof.
  intros Hm. assert (Hlen : length m = length s) by now apply same_labels_length.
  split.
  - now apply apply_forward_fill_correction_labels.
  - intros i Hi Hn.
    destruct (corrector_source s m Hlen i Hi Hn) as (j & Hj & _ & Hnj & E).
    exists j. auto.
Qed.

Lemma labels_detect_rolling_median_outliers (s : Series float) :
  labels (detect_rolling_median_outliers s) = labels s.
Proof.
  unfold detect_rolling_median_outliers, fillna_false.
  rewrite labels_map_values. apply labels_zip_with.
  unfold rolling_median. rewrite length_combine, length_map, length_seq, labels_length.
  lia.
Qed.

Lemma reversion_pass_ok (s : Series float) t :
  NoDup (labels s) ->
  exists out, reversion_pass s t = Ok out /\ copies_forward s out.
Proof.
  intros Hnd. unfold reversion_pass.
  destruct (detect_reverting_spikes_ok s t MAX_LOOKAHEAD_DAYS Hnd) as (m & -> & Hm).
  eexists. split; [reflexivity|]. now apply corrector_copies_forward.
Qed.

Lemma reversion_passes_ok (s : Series float) :
  NoDup (labels s) ->
  exists out, reversion_passes s = Ok out /\ copies_forward s out.
Proof.
  intros Hnd. unfold reversion_passes.
  destruct (reversion_pass_ok s 1 Hnd) as (c1 & -> & H1). cbn [bind].
  assert (Hnd1 : NoDup (labels c1)) by (destruct H1 as [-> _]; exact Hnd).
  destruct (reversion_pass_ok c1 0.5 Hnd1) as (c2 & -> & H2). cbn [bind].
  assert (Hnd2 : NoDup (labels c2)) by (destruct H2 as [-> _]; exact Hnd1).
  destruct (reversion_pass_ok c2 0.35 Hnd2) as (c3 & -> & H3).
  exists c3. split; [reflexivity|].
  eapply copies_forward_trans; [|exact H3].
  eapply copies_forward_trans; eassumption.
Qed.

Lemma pipeline_ok (s : Series float) :
  NoDup (labels s) ->
  exists out, correct_shares_outstanding_outliers s = Ok out /\
              copies_forward s out.
Proof.
  intros Hnd. rewrite correct_shares_outstanding_outliers_passes.
  destruct (reversion_passes_ok s Hnd) as (c & -> & Hc). cbn [bind].
  eexists. split; [reflexivity|].
  eapply copies_forward_trans; [exact Hc|].
  apply corrector_copies_forward. apply labels_detect_rolling_median_outliers.
Qed.

(** * The only exception *)

Lemma positions_of_In ls l i p :
  In p (positions_of ls l i) -> (i <= p)%nat /\ nth_error ls (p - i) = Some l.
Proof.
  revert i. induction ls as [|l' ls IH]; intros i; simpl; [contradiction|].
  assert (Hrec : In p (positions_of ls l (S i)) ->
                 (i <= p)%nat /\ nth_error (l' :: ls) (p - i) = Some l).
  { intros H. apply IH in H. destruct H as [Hle Hn]. split; [lia|].
    replace (p - i)%nat with (S (p - S i)) by lia. exact Hn. }
  destruct (Z.eqb_spec l' l) as [->|_]; [|exact Hrec].
  intros [<-|H]; [|now apply Hrec].
  split; [lia|]. now rewrite Nat.sub_diag.
Qed.

Lemma positions_of_nonempty ls l i : In l ls -> positions_of ls l i <> [].
Proof.
  revert i. induction ls as [|l' ls IH]; intros i Hin; [contradiction|].
  simpl. destruct (Z.eqb_spec l' l) as [->|Hne]; [discriminate|].
  apply IH. destruct Hin as [->|Hin]; [contradiction|exact Hin].
Qed.

(** Looking up a label of the index gives its position, or fails because
    the label is repeated. *)
Lemma get_loc_In ls l :
  In l ls ->
  (exists p, get_loc ls l = Ok p /\ nth_error ls p = Some l) \/
  get_loc ls l = Raise NonIntegerLocation.
Proof.
  intros Hin. unfold get_loc.
  destruct (positions_of ls l 0) as [|p [|q ps]] eqn:E.
  - now apply positions_of_nonempty with (i := 0%nat) in Hin.
  - left. exists p. split; [reflexivity|].
    destruct (positions_of_In ls l 0 p) as [_ H]; [rewrite E; now left|].
    now rewrite Nat.sub_0_r in H.
  - now right.
Qed.

Lemma read_pre_spike (s : Series float) p :
  (p < length s)%nat ->
  (if (0 <? p)%nat then iloc s (p - 1) else Ok nan) = Ok (pre_spike s p).
Proof.
  intros Hp. unfold pre_spike. destruct (0 <? p)%nat eqn:E; [|reflexivity].
  apply iloc_value_at. lia.
Qed.

Lemma find_reversion_index_In (s : Series float) p pre t L l :
  find_reversion_index s p pre t L = Some l -> In l (labels s).
Proof.
  rewrite find_reversion_index_pos.
  destruct (reversion_pos s p pre t L); [|discriminate].
  apply nth_error_In.
Qed.

Lemma spike_loop_body_raises (s : Series float) t L m pu l :
  labels m = labels s -> In l (labels s) ->
  (exists st, spike_loop_body s t L (m, pu) l = Ok st /\
              labels (fst st) = labels s) \/
  spike_loop_body s t L (m, pu) l = Raise NonIntegerLocation.
Proof.
  intros Hm Hin. unfold spike_loop_body.
  destruct (get_loc_In _ _ Hin) as [(p & Hg & Hp)|Hg]; rewrite Hg;
    [cbn [bind]|now right].
  destruct (Z.of_nat p <=? pu)%Z; [left; eauto|].
  rewrite read_pre_spike
    by (rewrite <- labels_length; apply nth_error_Some; congruence).
  cbn [bind].
  destruct (find_reversion_index s p (pre_spike s p) t L) as [rl|] eqn:E;
    [|left; eauto].
  apply find_reversion_index_In in E.
  unfold mark_spike_region. rewrite Hm, Hg. cbn [bind].
  destruct (get_loc_In _ _ E) as [(r & Hgr & _)|Hgr]; rewrite Hgr;
    [cbn [bind]|now right].
  left. eexists. split; [reflexivity|]. simpl.
  now rewrite labels_iloc_set_slice.
Qed.

Lemma for_each_raises (s : Series float) t L ls : forall m pu,
  labels m = labels s -> (forall l, In l ls -> In l (labels s)) ->
  (exists st, for_each (spike_loop_body s t L) ls (m, pu) = Ok st /\
              labels (fst st) = labels s) \/
  for_each (spike_loop_body s t L) ls (m, pu) = Raise NonIntegerLocation.
Proof.
  induction ls as [|l ls IH]; intros m pu Hm Hls.
  - left. eexists. split; [reflexivity|exact Hm].
  - cbn [for_each].
    destruct (spike_loop_body_raises s t L m pu l Hm (Hls l (or_introl eq_refl)))
      as [([m' pu'] & -> & Hm')| ->]; [cbn [bind]|now right].
    apply IH; [exact Hm'|]. intros l' Hl'. apply Hls. now right.
Qed.

Lemma candidate_labels_In (s : Series float) t l :
  In l (find_spike_start_indices (calculate_pct_change s) t) -> In l (labels s).
Proof.
  unfold find_spike_start_indices, labels at 1. intros H.
  apply in_map_iff in H. destruct H as (e & <- & He).
  apply filter_In in He. destruct He as [He _].
  rewrite <- labels_calculate_pct_change. unfold labels. now apply in_map.
Qed.

Lemma detect_reverting_spikes_raises (s : Series float) t L :
  (exists mask, detect_reverting_spikes s t L = Ok mask /\
                labels mask = labels s) \/
  detect_reverting_spikes s t L = Raise NonIntegerLocation.
Proof.
  unfold detect_reverting_spikes.
  destruct (for_each_raises s t L
              (find_spike_start_indices (calculate_pct_change s) t)
              (all_false s) (-1)%Z (labels_all_false s)
              (candidate_labels_In s t))
    as [(st & -> & Hst)| ->]; [left|now right].
  eexists. split; [reflexivity|exact Hst].
Qed.

Lemma reversion_pass_raises (s : Series float) t :
  (exists out, reversion_pass s t = Ok out /\ labels out = labels s) \/
  reversion_pass s t = Raise NonIntegerLocation.
Proof.
  unfold reversion_pass.
  destruct (detect_reverting_spikes_raises s t MAX_LOOKAHEAD_DAYS)
    as [(mask & -> & Hm)| ->]; [left|now right].
  eexists. split; [reflexivity|].
  apply apply_forward_fill_correction_labels. now apply same_labels_length.
Qed.

Lemma pipeline_raises (s : Series float) :
  (exists out, correct_shares_outstanding_outliers s = Ok out /\
               labels out = labels s) \/
  correct_shares_outstanding_outliers s = Raise NonIntegerLocation.
Proof.
  rewrite correct_shares_outstanding_outliers_passes. unfold reversion_passes.
  destruct (reversion_pass_raises s 1) as [(c1 & -> & H1)| ->];
    [cbn [bind]|now right].
  destruct (reversion_pass_raises c1 0.5) as [(c2 & -> & H2)| ->];
    [cbn [bind]|now right].
  destruct (reversion_pass_raises c2 0.35) as [(c3 & -> & H3)| ->];
    [cbn [bind]|now right].
  left. eexists. split; [reflexivity|].
  unfold rolling_pass. rewrite apply_forward_fill_correction_labels.
  - congruence.
  - apply same_labels_length. apply labels_detect_rolling_median_outliers.
Qed.

(** C3 (amended): the pipeline validates nothing on entry and has no
    [InvalidSeriesError].  For every series whose index labels are pairwise
    distinct, in increasing order or not, it returns normally a corrected
    series over the same index.  On any series at all it either returns
    such a series or fails in a position lookup that meets a repeated
    label (pandas' TypeError or ValueError). *)
Theorem pipeline_validates_nothing :
  (forall s : Series float,
      NoDup (labels s) ->
      exists out, correct_shares_outstanding_outliers s = Ok out /\
                  labels out = labels s /\ length out = length s) /\
  (forall s : Series float,
      (exists out, correct_shares_outstanding_outliers s = Ok out /\
                   labels out = labels s) \/
      correct_shares_outstanding_outliers s = Raise NonIntegerLocation).
Proof.
  split.
  - intros s Hnd. destruct (pipeline_ok s Hnd) as (out & E & Hl & _).
    exists out. split; [exact E|]. split; [exact Hl|].
    now apply same_labels_length.
  - apply pipeline_raises.
Qed.

Lemma pipeline_validates_nothing_witness :
  let s := [(7%Z, 100); (3%Z, 250); (5%Z, 100)] in
  exists out, correct_shares_outstanding_outliers s = Ok out /\
              labels out = labels s /\ length out = length s.
Proof.
  intros s. apply (proj1 pipeline_validates_nothing s). distinct_labels.
Defined.

Example repeated_label_lookup_fails :
  correct_shares_outstanding_outliers [(0%Z, 100); (0%Z, 250); (0%Z, 100)]
  = Raise NonIntegerLocation.
Proof. reflexivity. Qed.

(** C10: every present value of the pipeline's output is the input's value
    at the same or an earlier position; the pipeline copies observed values
    forward and makes up none. *)
Theorem pipeline_copies_observed_values (s : Series float) :
  NoDup (labels s) ->
  exists out, correct_shares_outstanding_outliers s = Ok out /\
    length out = length s /\
    forall i, (i < length s)%nat -> isna (value_at out i) = false ->
      exists j, (j <= i)%nat /\ value_at out i = value_at s j.
Proof.
  intros Hnd. destruct (pipeline_ok s Hnd) as (out & E & Hl & Hsrc).
  exists out. split; [exact E|]. split; [now apply same_labels_length|].
  intros i Hi Hn. destruct (Hsrc i Hi Hn) as (j & Hj & _ & Ej). eauto.
Qed.

Lemma pipeline_copies_observed_values_witness :
  let s := of_values [100; 100; 100; 250; 100; 100] in
  exists out, correct_shares_outstanding_outliers s = Ok out /\
    length out = length s /\
    forall i, (i < length s)%nat -> isna (value_at out i) = false ->
      exists j, (j <= i)%nat /\ value_at out i = value_at s j.
Proof.
  intros s. apply (pipeline_copies_observed_values s).
  distinct_labels.
Defined.

(** * The reversion detector, candidate by candidate *)

Lemma Forall2_labels_map (ls : list label) (labs : list label) (ps : list nat) :
  Forall2 (fun l p => nth_error ls p = Some l /\ (p < length ls)%nat) labs ps ->
  labs = map (fun p => nth p ls 0%Z) ps.
Proof.
  induction 1 as [|l p labs ps [Hl _] _ IH]; [reflexivity|].
  simpl. f_equal; [|exact IH]. symmetry. now apply nth_error_nth.
Qed.

Lemma find_spike_start_indices_positions (s : Series float) t :
  find_spike_start_indices (calculate_pct_change s) t =
  map (fun p => nth p (labels s) 0%Z) (candidate_positions s t).
Proof.
  apply Forall2_labels_map. eapply Forall2_impl; [|apply candidate_labels].
  simpl. intros l p [H1 H2]. split; [exact H1|]. now rewrite labels_length.
Qed.

Lemma pct_at_first (s : Series float) : pct_at s 0 = nan.
Proof. unfold pct_at, pre_spike. simpl. apply relative_deviation_nan_base. Qed.

Lemma candidate_positive (s : Series float) t p :
  In p (candidate_positions s t) -> (0 < p)%nat.
Proof.
  intros H. apply candidate_positions_In in H. destruct H as [_ H].
  destruct p; [|lia]. rewrite pct_at_first, FloatFacts.ltb_nan_r in H. discriminate.
Qed.

Lemma pct_entry (s : Series float) t p :
  (p < length s)%nat ->
  (t <? pct_at s p) = true <->
  exists e, nth_error (calculate_pct_change s) p = Some e /\ (t <? snd e) = true.
Proof.
  intros Hp. rewrite calculate_pct_change_nth by assumption. split.
  - intros H. eexists. split; [reflexivity|exact H].
  - intros (e & [= <-] & H). exact H.
Qed.

Lemma spike_loop_body_pos (s : Series float) t L m pu p :
  NoDup (labels s) -> labels m = labels s -> (p < length s)%nat ->
  spike_loop_body s t L (m, pu) (nth p (labels s) 0%Z) =
  Ok (fst (step_pos s t L ((m, pu), []) p)).
Proof.
  intros Hnd Hm Hp.
  rewrite (spike_loop_body_erase s t L (m, pu) [] _).
  rewrite (spike_loop_body_traced_pos s t L Hnd m pu [] _ p Hm)
    by (apply nth_error_labels; lia).
  reflexivity.
Qed.

(** * Regions of one pass *)

Lemma StronglySorted_pairs {A} (R : A -> A -> Prop) (l : list A) a b :
  StronglySorted R l -> In a l -> In b l -> a = b \/ R a b \/ R b a.
Proof.
  induction 1 as [|x l Hl IH Hx]; intros Ha Hb; [contradiction|].
  rewrite Forall_forall in Hx.
  destruct Ha as [<-|Ha], Hb as [<-|Hb]; auto.
Qed.

Lemma regions_disjoint (log : list search) p1 r1 p2 r2 :
  StronglySorted search_before log ->
  In (p1, Some r1) log -> In (p2, Some r2) log ->
  (p1 = p2 /\ r1 = r2) \/ (r1 < p2)%nat \/ (r2 < p1)%nat.
Proof.
  intros Hs H1 H2.
  destruct (StronglySorted_pairs _ _ _ _ Hs H1 H2) as [[= -> ->]|[[_ H]|[_ H]]].
  - now left.
  - right. left. exact (H r1 eq_refl).
  - right. right. exact (H r2 eq_refl).
Qed.

(** The searches and regions of a pass on a series with distinct labels. *)
Lemma detect_reverting_spikes_regions (s : Series float) t L :
  NoDup (labels s) ->
  exists mask pu log,
    detect_reverting_spikes_traced s t L = Ok (mask, log) /\
    detect_reverting_spikes s t L = Ok mask /\
    loop_inv s t L (candidate_positions s t) ((mask, pu), log).
Proof.
  intros Hnd.
  pose proof (loop_inv_final s t L) as Hinv.
  rewrite detect_reverting_spikes_erase, (detect_reverting_spikes_traced_pos s t L Hnd).
  destruct (run_pos s t L (candidate_positions s t) ((all_false s, (-1)%Z), []))
    as [[mask pu] log].
  exists mask, pu, log. auto.
Qed.

(** C6: within one call the searches are ordered: a search that follows a
    resolved region [start, reversion) starts strictly after [reversion];
    hence two marked regions never overlap; the mask is the union of the
    regions; and each search starts at a position whose percentage change,
    computed on the input of the pass, exceeds the threshold. *)
Theorem spike_regions_never_overlap (s : Series float) (t : float) (L : nat) :
  NoDup (labels s) ->
  exists (mask : Series bool) (log : list search),
    detect_reverting_spikes_traced s t L = Ok (mask, log) /\
    detect_reverting_spikes s t L = Ok mask /\
    (forall i, flagged mask i = true <->
               exists p r, In (p, Some r) log /\ (p <= i < r)%nat) /\
    StronglySorted
      (fun a b : search =>
         (fst a < fst b)%nat /\ forall r, snd a = Some r -> (r < fst b)%nat) log /\
    (forall p1 r1 p2 r2,
        In (p1, Some r1) log -> In (p2, Some r2) log ->
        (p1 = p2 /\ r1 = r2) \/ (r1 < p2)%nat \/ (r2 < p1)%nat) /\
    (forall p res, In (p, res) log ->
        exists e, nth_error (calculate_pct_change s) p = Some e /\
                  (t <? snd e) = true).
Proof.
  intros Hnd.
  destruct (detect_reverting_spikes_regions s t L Hnd)
    as (mask & pu & log & Ht & Hd & [I1 I2 I3 I4 I5 I6 I7]).
  simpl in *. exists mask, log.
  split; [exact Ht|]. split; [exact Hd|]. split; [exact I2|].
  split; [exact I6|]. split.
  - intros p1 r1 p2 r2. now apply regions_disjoint.
  - intros p res Hin. destruct (I3 _ _ Hin) as [Hc _].
    apply candidate_positions_In in Hc. destruct Hc as [Hp Hc].
    now apply pct_entry.
Qed.

Lemma spike_regions_never_overlap_witness :
  let s := of_values [100; 250; 100; 100; 300; 100] in
  exists (mask : Series bool) (log : list search),
    detect_reverting_spikes_traced s 1 600 = Ok (mask, log) /\
    detect_reverting_spikes s 1 600 = Ok mask /\
    (forall i, flagged mask i = true <->
               exists p r, In (p, Some r) log /\ (p <= i < r)%nat) /\
    StronglySorted
      (fun a b : search =>
         (fst a < fst b)%nat /\ forall r, snd a = Some r -> (r < fst b)%nat) log /\
    (forall p1 r1 p2 r2,
        In (p1, Some r1) log -> In (p2, Some r2) log ->
        (p1 = p2 /\ r1 = r2) \/ (r1 < p2)%nat \/ (r2 < p1)%nat) /\
    (forall p res, In (p, res) log ->
        exists e, nth_error (calculate_pct_change s) p = Some e /\
                  (1 <? snd e) = true).
Proof.
  intros s. apply (spike_regions_never_overlap s 1 600).
  distinct_labels.
Defined.

Example two_regions_traced :
  detect_reverting_spikes_traced (of_values [100; 250; 100; 100; 300; 100]) 1 600
  = Ok (of_values [false; true; false; false; true; false],
        [(1%nat, Some 2%nat); (4%nat, Some 5%nat)]).
Proof. reflexivity. Qed.

(** * Degenerate series *)

Lemma no_candidates_all_false (s : Series float) t L :
  (forall p, (p < length s)%nat -> (t <? pct_at s p) = false) ->
  detect_reverting_spikes s t L = Ok (all_false s).
Proof.
  intros H. unfold detect_reverting_spikes.
  rewrite find_spike_start_indices_positions.
  destruct (candidate_positions s t) as [|p ps] eqn:E; [reflexivity|].
  assert (Hin : In p (candidate_positions s t)) by (rewrite E; now left).
  apply candidate_positions_In in Hin. destruct Hin as [Hp Hin].
  rewrite H in Hin by assumption. discriminate.
Qed.

Lemma value_at_all_missing (s : Series float) i :
  Forall (fun v => isna v = true) (values s) -> value_at s i = nan.
Proof.
  intros H. unfold value_at.
  destruct (Nat.lt_ge_cases i (length (values s))) as [Hi|Hi].
  - rewrite Forall_forall in H. apply FloatFacts.isna_nan, H. now apply nth_In.
  - now apply nth_overflow.
Qed.

Lemma set_where_all_false (s : Series float) :
  set_where s (all_false s) nan = s.
Proof.
  unfold set_where, zip_with, all_false, map_values.
  induction s as [|[l x] s IH]; simpl; [reflexivity|]. f_equal. exact IH.
Qed.

Lemma nth_error_combine {A B} (a : list A) (b : list B) i :
  nth_error (combine a b) i =
  match nth_error a i, nth_error b i with
  | Some x, Some y => Some (x, y)
  | _, _ => None
  end.
Proof.
  revert b i. induction a as [|x a IH]; intros [|y b] [|i]; simpl; auto.
  now destruct (nth_error a i).
Qed.

(** The rolling-median mask, entry by entry. *)
Lemma detect_rolling_median_outliers_nth (s : Series float) i e :
  nth_error s i = Some e ->
  nth_error (detect_rolling_median_outliers s) i =
  Some (fst e,
        ROLLING_DEVIATION_THRESHOLD <?
        relative_deviation
          (window_median ROLLING_MIN_PERIODS
             (values (centered_window ROLLING_WINDOW_DAYS
                        (map_values prep_value s) i)))
          (snd e)).
Proof.
  intros He.
  assert (Hi : (i < length s)%nat) by (apply nth_error_Some; congruence).
  unfold detect_rolling_median_outliers, fillna_false, map_values.
  rewrite nth_error_map, zip_with_nth_error, He.
  unfold rolling_median. cbv zeta. rewrite nth_error_combine.
  unfold labels at 1. rewrite nth_error_map, He. simpl.
  rewrite nth_error_map, (nth_error_nth' _ 0%nat) by now rewrite length_seq.
  rewrite seq_nth by assumption. reflexivity.
Qed.

Lemma window_median_short (w : list float) :
  (length w < ROLLING_MIN_PERIODS)%nat -> window_median ROLLING_MIN_PERIODS w = nan.
Proof.
  intros H. unfold window_median.
  pose proof (filter_length_le (fun x => negb (isna x)) w) as Hle.
  destruct (Nat.leb_spec ROLLING_MIN_PERIODS
              (length (filter (fun x => negb (isna x)) w))); [lia|reflexivity].
Qed.

(** What a flag of the rolling-median detector does guarantee: the median
    and the value are present and their ratio exceeds the threshold.  (The
    median may still be zero.) *)
Lemma rolling_median_flag_sound (s : Series float) i :
  flagged (detect_rolling_median_outliers s) i = true ->
  let med := window_median ROLLING_MIN_PERIODS
               (values (centered_window ROLLING_WINDOW_DAYS
                        (map_values prep_value s) i)) in
  isna med = false /\ isna (value_at s i) = false /\
  (ROLLING_DEVIATION_THRESHOLD <? relative_deviation med (value_at s i)) = true.
Proof.
  intros Hf med.
  destruct (nth_error s i) as [e|] eqn:E.
  - rewrite (flagged_nth_error _ _ _ (detect_rolling_median_outliers_nth s i e E))
      in Hf.
    simpl in Hf. fold med in Hf. rewrite (value_at_nth_error s i e E).
    split; [|split; [|exact Hf]].
    + destruct (isna med) eqn:Hm; [|reflexivity].
      rewrite (FloatFacts.isna_nan _ Hm), relative_deviation_nan_base,
        FloatFacts.ltb_nan_r in Hf. discriminate.
    + destruct (isna (snd e)) eqn:Hv; [|reflexivity].
      rewrite (FloatFacts.isna_nan _ Hv), relative_deviation_nan_value,
        FloatFacts.ltb_nan_r in Hf. discriminate.
  - apply nth_error_None in E. unfold flagged in Hf.
    rewrite nth_overflow in Hf; [discriminate|].
    rewrite values_length.
    now rewrite (same_labels_length _ s (labels_detect_rolling_median_outliers s)).
Qed.

Lemma detect_rolling_median_outliers_all_false (s : Series float) :
  (forall i e, nth_error s i = Some e ->
     (ROLLING_DEVIATION_THRESHOLD <?
      relative_deviation
        (window_median ROLLING_MIN_PERIODS
           (values (centered_window ROLLING_WINDOW_DAYS
                        (map_values prep_value s) i)))
        (snd e)) = false) ->
  detect_rolling_median_outliers s = all_false s.
Proof.
  intros H. apply nth_error_ext. intros i.
  destruct (nth_error s i) as [e|] eqn:E.
  - rewrite (detect_rolling_median_outliers_nth s i e E), (H i e E).
    unfold all_false, map_values. now rewrite nth_error_map, E.
  - transitivity (@None (label * bool)); [|symmetry]; apply nth_error_None.
    + rewrite (same_labels_length _ s (labels_detect_rolling_median_outliers s)).
      now apply nth_error_None.
    + unfold all_false. rewrite map_values_length. now apply nth_error_None.
Qed.

(** A short series never has the observations a median needs. *)
Lemma short_series_no_rolling_outlier (s : Series float) :
  (length s < ROLLING_MIN_PERIODS)%nat ->
  detect_rolling_median_outliers s = all_false s.
Proof.
  intros Hlen. apply detect_rolling_median_outliers_all_false. intros i e He.
  rewrite window_median_short.
  - now rewrite relative_deviation_nan_base, FloatFacts.ltb_nan_r.
  - rewrite values_length. unfold centered_window, iloc_slice.
    rewrite length_firstn, length_skipn, map_values_length. lia.
Qed.

Lemma all_missing_no_rolling_outlier (s : Series float) :
  Forall (fun v => isna v = true) (values s) ->
  detect_rolling_median_outliers s = all_false s.
Proof.
  intros Hall. apply detect_rolling_median_outliers_all_false. intros i e He.
  assert (Hv : snd e = nan).
  { rewrite <- (value_at_nth_error s i e He). now apply value_at_all_missing. }
  now rewrite Hv, relative_deviation_nan_value, FloatFacts.ltb_nan_r.
Qed.

Lemma ffill_all_missing (s : Series float) :
  Forall (fun v => isna v = true) (values s) -> ffill s = s.
Proof.
  unfold ffill. induction s as [|[l x] s IH]; intros H; [reflexivity|].
  inversion H as [|? ? Hx Hs]; subst. simpl in *. rewrite Hx.
  rewrite (FloatFacts.isna_nan x Hx). f_equal. now apply IH.
Qed.

Lemma ffill_short (s : Series float) : (length s <= 1)%nat -> ffill s = s.
Proof.
  destruct s as [|[l x] [|e s]]; simpl; try lia; intros _; [reflexivity|].
  unfold ffill. simpl. destruct (isna x) eqn:E; [|reflexivity].
  now rewrite (FloatFacts.isna_nan x E).
Qed.

(** Empty, single-element and all-missing series. *)
Lemma degenerate_series (s : Series float) :
  (length s <= 1)%nat \/ Forall (fun v => isna v = true) (values s) ->
  (forall t L, detect_reverting_spikes s t L = Ok (all_false s)) /\
  detect_rolling_median_outliers s = all_false s /\
  apply_forward_fill_correction s (all_false s) = s.
Proof.
  intros H. split; [|split].
  - intros t L. apply no_candidates_all_false. intros p Hp.
    destruct H as [H|H].
    + assert (p = 0%nat) as -> by lia.
      now rewrite pct_at_first, FloatFacts.ltb_nan_r.
    + unfold pct_at. rewrite (value_at_all_missing s p H).
      now rewrite relative_deviation_nan_value, FloatFacts.ltb_nan_r.
  - destruct H as [H|H].
    + apply short_series_no_rolling_outlier. unfold ROLLING_MIN_PERIODS. lia.
    + now apply all_missing_no_rolling_outlier.
  - unfold apply_forward_fill_correction. rewrite set_where_all_false.
    destruct H as [H|H]; [now apply ffill_short | now apply ffill_all_missing].
Qed.

(** C9: on a well-formed series (numeric values, distinct index labels) the
    pipeline returns a series and never raises; on an empty, single-element
    or all-missing series every detector returns the all-false mask and the
    pipeline returns its input. *)
Theorem pipeline_total_and_degenerate :
  (forall s : Series float,
      NoDup (labels s) ->
      exists out, correct_shares_outstanding_outliers s = Ok out) /\
  (forall s : Series float,
      (length s <= 1)%nat \/ Forall (fun v => isna v = true) (values s) ->
      (forall t L, detect_reverting_spikes s t L = Ok (all_false s)) /\
      detect_rolling_median_outliers s = all_false s /\
      correct_shares_outstanding_outliers s = Ok s).
Proof.
  split.
  - intros s Hnd. destruct (pipeline_ok s Hnd) as (out & E & _). eauto.
  - intros s H. destruct (degenerate_series s H) as (Hd & Hr & Hf).
    split; [exact Hd|]. split; [exact Hr|].
    unfold correct_shares_outstanding_outliers.
    rewrite Hd. cbn [bind]. rewrite Hf.
    rewrite Hd. cbn [bind]. rewrite Hf.
    rewrite Hd. cbn [bind]. rewrite Hf.
    now rewrite Hr, Hf.
Qed.

Lemma pipeline_total_and_degenerate_witness :
  (exists out,
      correct_shares_outstanding_outliers (of_values [100; 250; 100]) = Ok out) /\
  correct_shares_outstanding_outliers (of_values [nan; nan; nan])
  = Ok (of_values [nan; nan; nan]) /\
  correct_shares_outstanding_outliers (of_values [42]) = Ok (of_values [42]).
Proof.
  split; [|split].
  - apply (proj1 pipeline_total_and_degenerate).
    distinct_labels.
  - apply (proj2 pipeline_total_and_degenerate). right.
    vm_compute. repeat constructor.
  - apply (proj2 pipeline_total_and_degenerate). left. vm_compute. lia.
Defined.

(** * One reversion pass on a series without gaps *)

Lemma ffill_from_present_all last (s : Series float) :
  all_present s -> ffill_from last s = s.
Proof.
  revert last. induction s as [|[l x] s IH]; intros last H; [reflexivity|].
  simpl. assert (Hx : isna x = false) by (apply (H 0%nat); simpl; lia).
  rewrite Hx. f_equal. apply IH. intros i Hi. apply (H (S i)). simpl. lia.
Qed.

(** Forward fill changes nothing exactly on the series without gaps. *)
Lemma ffill_gap_free (s : Series float) : gap_free s -> ffill s = s.
Proof.
  unfold ffill. induction s as [|[l x] s IH]; intros H; [reflexivity|].
  simpl. destruct (isna x) eqn:Hx.
  - rewrite (FloatFacts.isna_nan x Hx). f_equal. apply IH.
    intros i j Hij. apply (H (S i) (S j)). simpl. lia.
  - f_equal. apply ffill_from_present_all. intros j Hj.
    apply (H 0%nat (S j)); [simpl; lia|exact Hx].
Qed.

Lemma ffill_fixed_gap_free (s : Series float) : ffill s = s -> gap_free s.
Proof.
  intros Hfix i j [Hij Hj] Hi.
  replace j with (i + (j - i))%nat in * by lia.
  induction (j - i)%nat as [|d IH]; [now rewrite Nat.add_0_r|].
  destruct (isna (value_at s (i + S d))) eqn:E; [exfalso|reflexivity].
  assert (Hd : isna (value_at s (i + d)) = false) by (apply IH; lia).
  replace (i + S d)%nat with (S (i + d)) in * by lia.
  pose proof (ffill_from_missing nan s (i + d) Hj E) as Hm.
  fold (ffill s) in Hm. rewrite Hfix in Hm. congruence.
Qed.

Lemma corrector_all_false_gap_free (s : Series float) :
  gap_free s -> apply_forward_fill_correction s (all_false s) = s.
Proof.
  intros H. unfold apply_forward_fill_correction.
  rewrite set_where_all_false. now apply ffill_gap_free.
Qed.

(** A stable series goes through the detector unmarked. *)
Lemma run_pos_stable (s : Series float) t L cands m log :
  (forall q, In q cands -> reversion_pos s q (pre_spike s q) t L = None) ->
  fst (run_pos s t L cands ((m, (-1)%Z), log)) = (m, (-1)%Z).
Proof.
  revert log. induction cands as [|q cands IH]; intros log H; [reflexivity|].
  unfold run_pos. cbn [fold_left]. unfold step_pos at 2.
  destruct (Z.leb_spec (Z.of_nat q) (-1)); [lia|].
  rewrite (H q) by now left. apply IH. intros q' Hq'. apply H. now right.
Qed.

Lemma stable_detect (s : Series float) t L :
  NoDup (labels s) -> stable s t L ->
  detect_reverting_spikes s t L = Ok (all_false s).
Proof.
  intros Hnd Hst. rewrite (detect_reverting_spikes_pos s t L Hnd).
  now rewrite run_pos_stable.
Qed.

Lemma stable_pass (s : Series float) t :
  NoDup (labels s) -> gap_free s -> stable s t MAX_LOOKAHEAD_DAYS ->
  reversion_pass s t = Ok s.
Proof.
  intros Hnd Hp Hst. unfold reversion_pass.
  rewrite (stable_detect s t _ Hnd Hst). cbn [bind].
  now rewrite corrector_all_false_gap_free.
Qed.

(** * Stability after a pass *)

Lemma pre_spike_pos (s : Series float) q :
  (0 < q)%nat -> pre_spike s q = value_at s (q - 1).
Proof. intros H. unfold pre_spike. destruct (Nat.ltb_spec 0 q); [reflexivity|lia]. Qed.

Lemma relative_deviation_same a t :
  (0 <=? t) = true -> (t <? relative_deviation a a) = false.
Proof. apply FloatFacts.pct_same. Qed.

Lemma reversion_pos_guard (s : Series float) p pre t L :
  isna pre = true \/ (pre =? 0) = true -> reversion_pos s p pre t L = None.
Proof.
  intros H. unfold reversion_pos.
  assert (G : isna pre || (pre =? 0) = true) by (apply orb_true_iff; exact H).
  now rewrite G.
Qed.

Section Pass.
Variable x : Series float.
Variable t' : float.
Variable L : nat.
Variable mask : Series bool.
Variable pu : Z.
Variable log : list search.
Hypothesis gapless : gap_free x.
Hypothesis inv : loop_inv x t' L (candidate_positions x t') ((mask, pu), log).

Let x' := apply_forward_fill_correction x mask.

Lemma pass_mask_length : length mask = length x.
Proof. apply same_labels_length. exact (inv_labels _ _ _ _ _ inv). Qed.

Lemma pass_length : length x' = length x.
Proof. apply apply_forward_fill_correction_length. apply pass_mask_length. Qed.

Lemma pass_labels : labels x' = labels x.
Proof. apply apply_forward_fill_correction_labels. apply pass_mask_length. Qed.

Lemma flagged_in_region i : flagged mask i = true <-> in_region log i.
Proof. exact (inv_mask _ _ _ _ _ inv i). Qed.

Lemma unflagged_not_in_region i : flagged mask i = false <-> ~ in_region log i.
Proof.
  rewrite <- flagged_in_region. destruct (flagged mask i); split; congruence.
Qed.

Lemma region_facts p r :
  In (p, Some r) log ->
  (0 < p)%nat /\ (p <= r < length x)%nat /\
  In p (candidate_positions x t') /\
  reversion_pos x p (pre_spike x p) t' L = Some r.
Proof.
  intros Hin. destruct (inv_log _ _ _ _ _ inv _ _ Hin) as [Hc Hr].
  symmetry in Hr. pose proof (reversion_pos_Some _ _ _ _ _ _ Hr) as (_ & _ & Hb & _).
  split; [eapply candidate_positive; eauto|]. split; [lia|]. auto.
Qed.

Lemma before_region_unflagged p r :
  In (p, Some r) log -> flagged mask (p - 1) = false.
Proof.
  intros Hin. apply unflagged_not_in_region. intros (p' & r' & Hin' & Hi).
  destruct (region_facts _ _ Hin) as (Hp & Hr & _).
  destruct (region_facts _ _ Hin') as (Hp' & Hr' & _).
  destruct (regions_disjoint log p' r' p r (inv_sorted _ _ _ _ _ inv) Hin' Hin)
    as [[-> ->]|[H|H]]; lia.
Qed.

(** The pre-spike value of a region is present. *)
Lemma region_pre_present p r :
  In (p, Some r) log -> isna (value_at x (p - 1)) = false.
Proof.
  intros Hin. destruct (region_facts _ _ Hin) as (Hp & _ & _ & Hrev).
  apply reversion_pos_Some in Hrev. rewrite pre_spike_pos in Hrev by assumption.
  tauto.
Qed.

(** Up to a missing value of a series without gaps, the output is missing. *)
Lemma pass_leading_missing i :
  (i < length x)%nat -> isna (value_at x i) = true ->
  forall k, (k <= i)%nat -> value_at x' k = nan.
Proof.
  intros Hi Hn.
  assert (Hk : forall k, (k <= i)%nat -> isna (value_at x k) = true).
  { intros k Hk. destruct (isna (value_at x k)) eqn:E; [reflexivity|].
    rewrite (gapless k i) in Hn by (auto; lia). discriminate. }
  induction k as [|k IH]; intros Hle.
  - apply corrector_first; [apply pass_mask_length|lia|]. right. apply Hk. lia.
  - unfold x'. rewrite corrector_filled; [apply IH; lia|apply pass_mask_length|lia|].
    right. apply Hk. lia.
Qed.

(** Outside the regions the pass changes nothing. *)
Lemma pass_value_out i :
  (i < length x)%nat -> flagged mask i = false -> value_at x' i = value_at x i.
Proof.
  intros Hi Hf. destruct (isna (value_at x i)) eqn:Hn.
  - rewrite (pass_leading_missing i Hi Hn i) by lia.
    symmetry. now apply FloatFacts.isna_nan.
  - apply corrector_kept; auto using pass_mask_length.
Qed.

(** Inside a region every value becomes the pre-spike value. *)
Lemma pass_value_in p r i :
  In (p, Some r) log -> (p <= i < r)%nat -> value_at x' i = value_at x (p - 1).
Proof.
  intros Hin Hi. destruct (region_facts _ _ Hin) as (Hp & Hr & _).
  unfold x'. rewrite (corrector_run x mask pass_mask_length p i); try lia.
  - apply pass_value_out; [lia|]. eapply before_region_unflagged; eauto.
  - intros k Hk. apply flagged_in_region. exists p, r. split; [exact Hin|lia].
Qed.

(** The corrected series has no gap either. *)
Lemma pass_gap_free : gap_free x'.
Proof.
  intros i j [Hij Hj] Hi. rewrite pass_length in Hj.
  destruct (flagged mask j) eqn:Fj.
  - apply flagged_in_region in Fj. destruct Fj as (p & r & Hin & Hpr).
    rewrite (pass_value_in p r j Hin Hpr). eapply region_pre_present; eauto.
  - rewrite pass_value_out by assumption.
    destruct (flagged mask i) eqn:Fi.
    + apply flagged_in_region in Fi. destruct Fi as (p & r & Hin & Hpr).
      apply (gapless (p - 1)%nat j); [lia|]. eapply region_pre_present; eauto.
    + rewrite pass_value_out in Hi by (auto; lia).
      now apply (gapless i j).
Qed.


(** ** Stability after the pass *)

Variable t : float.
Hypothesis t_nonneg : (0 <=? t) = true.
Hypothesis t_above : (t' <=? t) = true.
Hypothesis unresolved : t' = t \/ stable x t L.

(** A candidate of the corrected series lies outside the regions of the
    pass, and so does the position before it. *)
Lemma candidate_after_pass_outside q :
  In q (candidate_positions x' t) ->
  flagged mask q = false /\ flagged mask (q - 1) = false.
Proof.
  intros Hq. pose proof (candidate_positive _ _ _ Hq) as Hq0.
  apply candidate_positions_In in Hq. destruct Hq as [Hlen Hc].
  rewrite pass_length in Hlen.
  unfold pct_at in Hc. rewrite pre_spike_pos in Hc by assumption.
  destruct (flagged mask q) eqn:Fq.
  - (* inside a region: the value equals the one before it *)
    exfalso. apply flagged_in_region in Fq.
    destruct Fq as (p & r & Hin & Hpr).
    destruct (region_facts _ _ Hin) as (Hp & Hr & _).
    assert (E1 : value_at x' q = value_at x (p - 1))
      by (eapply pass_value_in; eauto).
    assert (E2 : value_at x' (q - 1) = value_at x (p - 1)).
    { destruct (Nat.eq_dec q p) as [->|Hne].
      - apply pass_value_out; [lia|].
        eapply before_region_unflagged; eauto.
      - eapply pass_value_in; eauto. lia. }
    rewrite E1, E2, relative_deviation_same in Hc by assumption. discriminate.
  - split; [reflexivity|].
    destruct (flagged mask (q - 1)) eqn:Fq1; [|reflexivity].
    (* just after a region: the change is within the pass threshold *)
    exfalso. apply flagged_in_region in Fq1.
    destruct Fq1 as (p & r & Hin & Hpr).
    destruct (region_facts _ _ Hin) as (Hp & Hr & _ & Hrev).
    assert (q = r) as ->.
    { destruct (Nat.lt_ge_cases q r) as [Hlt|Hge]; [|lia].
      assert (F : flagged mask q = true).
      { apply flagged_in_region. exists p, r.
        split; [exact Hin|lia]. }
      congruence. }
    apply reversion_pos_Some in Hrev. destruct Hrev as (_ & _ & _ & Hrev & _).
    rewrite pre_spike_pos in Hrev by assumption. unfold reverted in Hrev.
    assert (E1 : value_at x' r = value_at x r)
      by (apply pass_value_out; [lia|assumption]).
    assert (E2 : value_at x' (r - 1) = value_at x (p - 1))
      by (eapply pass_value_in; eauto).
    rewrite E1, E2 in Hc.
    rewrite (FloatFacts.leb_leb_not_ltb _ _ _ Hrev t_above) in Hc. discriminate.
Qed.

(** Such a candidate was a candidate before the pass, and found no
    reversion then. *)
Lemma candidate_after_pass_unresolved q :
  In q (candidate_positions x' t) ->
  pre_spike x' q = pre_spike x q /\
  reversion_pos x q (pre_spike x q) t L = None.
Proof.
  intros Hq. pose proof (candidate_positive _ _ _ Hq) as Hq0.
  destruct (candidate_after_pass_outside q Hq) as [Fq Fq1].
  apply candidate_positions_In in Hq. destruct Hq as [Hlen Hc].
  rewrite pass_length in Hlen.
  assert (E1 : value_at x' q = value_at x q)
    by (apply pass_value_out; [lia|assumption]).
  assert (E2 : value_at x' (q - 1) = value_at x (q - 1))
    by (apply pass_value_out; [lia|assumption]).
  assert (Hpre : pre_spike x' q = pre_spike x q)
    by (rewrite !pre_spike_pos by assumption; exact E2).
  split; [exact Hpre|].
  assert (Hcx : In q (candidate_positions x t)).
  { apply candidate_positions_In. split; [exact Hlen|].
    unfold pct_at in *. now rewrite <- Hpre, <- E1. }
  destruct unresolved as [Heq|Hst]; [|now apply Hst].
  rewrite <- Heq in Hcx |- *.
  destruct (inv_complete _ _ _ _ _ inv q Hcx) as [(res & Hin)|(p & r & Hin & Hpr)].
  - destruct (inv_log _ _ _ _ _ inv _ _ Hin) as [_ Hres]. simpl in Hres.
    destruct res as [r|]; [|now symmetry].
    exfalso.
    destruct (region_facts _ _ Hin) as (_ & Hr & _ & Hrev).
    destruct (Nat.eq_dec q r) as [<-|Hne].
    + apply reversion_pos_Some in Hrev. destruct Hrev as (_ & _ & _ & Hrev & _).
      apply candidate_positions_In in Hcx. destruct Hcx as [_ Hcx].
      unfold pct_at in Hcx. unfold reverted in Hrev.
      rewrite (FloatFacts.leb_not_ltb _ _ Hrev) in Hcx. discriminate.
    + assert (F : flagged mask q = true).
      { apply flagged_in_region. exists q, r.
        split; [exact Hin|lia]. }
      congruence.
  - exfalso. destruct (Nat.eq_dec q r) as [->|Hne].
    + assert (F : flagged mask (r - 1) = true).
      { apply flagged_in_region. exists p, r.
        split; [exact Hin|lia]. }
      congruence.
    + assert (F : flagged mask q = true).
      { apply flagged_in_region. exists p, r.
        split; [exact Hin|lia]. }
      congruence.
Qed.

(** After a pass at [t'], no candidate at [t >= t'] reverts. *)
Lemma pass_stable : stable x' t L.
Proof.
  intros q Hq.
  destruct (candidate_after_pass_outside q Hq) as [Fq Fq1].
  destruct (candidate_after_pass_unresolved q Hq) as [Hpre Hnone].
  rewrite Hpre.
  apply reversion_pos_None in Hnone.
  destruct Hnone as [Hn|[Hz|Hwin]]; [apply reversion_pos_guard; auto ..|].
  apply reversion_pos_none. intros j Hj.
  rewrite pass_length in Hj.
  destruct (flagged mask j) eqn:Fj.
  - apply flagged_in_region in Fj.
    destruct Fj as (p & r & Hin & Hpr).
    destruct (region_facts _ _ Hin) as (Hp & Hr & _).
    assert (Hqp : (q < p)%nat).
    { destruct (Nat.lt_ge_cases q p) as [Hlt|Hge]; [exact Hlt|].
      assert (F : flagged mask q = true).
      { apply flagged_in_region. exists p, r.
        split; [exact Hin|lia]. }
      congruence. }
    rewrite (pass_value_in p r j Hin Hpr).
    apply Hwin. lia.
  - rewrite (pass_value_out j) by (auto; lia).
    apply Hwin. lia.
Qed.

End Pass.

(** * Running the pipeline twice *)

Lemma reversion_pass_stable (x : Series float) (t' : float) :
  NoDup (labels x) -> gap_free x ->
  exists x', reversion_pass x t' = Ok x' /\
    labels x' = labels x /\ gap_free x' /\
    forall t, (0 <=? t) = true -> (t' <=? t) = true ->
              t' = t \/ stable x t MAX_LOOKAHEAD_DAYS ->
              stable x' t MAX_LOOKAHEAD_DAYS.
Proof.
  intros Hnd Hp.
  destruct (detect_reverting_spikes_regions x t' MAX_LOOKAHEAD_DAYS Hnd)
    as (mask & pu & log & _ & Hd & Hinv).
  exists (apply_forward_fill_correction x mask).
  split; [unfold reversion_pass; now rewrite Hd|].
  split; [exact (pass_labels x t' _ mask pu log Hinv)|].
  split; [exact (pass_gap_free x t' _ mask pu log Hp Hinv)|].
  intros t H0 Hle Hun.
  exact (pass_stable x t' _ mask pu log Hp Hinv t H0 Hle Hun).
Qed.

(** C8, refuted as stated: the pipeline turns [120, 150, 100, 250, 250]
    into [120, 150, 100, 100, 100] (the rolling-median pass flags the two
    250s against the median 150); run again, the median is 100, position 1
    is flagged, and the output is [120, 120, 100, 100, 100]. *)
Lemma pipeline_not_idempotent :
  ~ (forall s y : Series float,
        correct_shares_outstanding_outliers s = Ok y ->
        correct_shares_outstanding_outliers y = Ok y).
Proof.
  intros H.
  specialize (H (of_values [120; 150; 100; 250; 250])
                (of_values [120; 150; 100; 100; 100]) eq_refl).
  apply (f_equal (fun r => match r with
                           | Ok o => value_at o 1 <? 130
                           | Raise _ => false
                           end)) in H.
  vm_compute in H. discriminate.
Qed.

(** C8 (amended): on a series without gaps (no value missing after a
    present one) the three reversion passes are idempotent: run on their
    own output [y] they change nothing, so the pipeline returns on [y] what
    it returns on the input, the rolling-median pass of [y].  The
    rolling-median pass is not idempotent; whenever it flags nothing on
    [y], whatever the length, the full pipeline returns [y] on the input
    and on [y]; this is the case of every series of fewer than 5
    observations. *)
Theorem reversion_passes_idempotent (s : Series float) :
  NoDup (labels s) ->
  (forall i j, (i <= j < length s)%nat ->
               isna (value_at s i) = false -> isna (value_at s j) = false) ->
  exists y,
    reversion_passes s = Ok y /\
    reversion_passes y = Ok y /\
    (correct_shares_outstanding_outliers s = Ok (rolling_pass y) /\
     correct_shares_outstanding_outliers y = Ok (rolling_pass y)) /\
    (detect_rolling_median_outliers y = all_false y ->
     correct_shares_outstanding_outliers s = Ok y /\
     correct_shares_outstanding_outliers y = Ok y) /\
    ((length s < 5)%nat ->
     detect_rolling_median_outliers y = all_false y /\
     correct_shares_outstanding_outliers s = Ok y /\
     correct_shares_outstanding_outliers y = Ok y).
Proof.
  intros Hnd Hall. change (gap_free s) in Hall.
  destruct (reversion_pass_stable s 1 Hnd Hall) as (x1 & E1 & L1 & P1 & S1).
  assert (N1 : NoDup (labels x1)) by now rewrite L1.
  destruct (reversion_pass_stable x1 0.5 N1 P1) as (x2 & E2 & L2 & P2 & S2).
  assert (N2 : NoDup (labels x2)) by now rewrite L2.
  destruct (reversion_pass_stable x2 0.35 N2 P2) as (x3 & E3 & L3 & P3 & S3).
  assert (N3 : NoDup (labels x3)) by now rewrite L3.
  (* stability at each threshold, established by its own pass and kept by
     the later ones *)
  assert (A1 : stable x1 1 MAX_LOOKAHEAD_DAYS) by (apply S1; auto).
  assert (A2 : stable x2 1 MAX_LOOKAHEAD_DAYS) by (apply S2; auto).
  assert (A3 : stable x3 1 MAX_LOOKAHEAD_DAYS) by (apply S3; auto).
  assert (B2 : stable x2 0.5 MAX_LOOKAHEAD_DAYS) by (apply S2; auto).
  assert (B3 : stable x3 0.5 MAX_LOOKAHEAD_DAYS) by (apply S3; auto).
  assert (C3 : stable x3 0.35 MAX_LOOKAHEAD_DAYS) by (apply S3; auto).
  assert (Hy : reversion_passes s = Ok x3).
  { unfold reversion_passes. rewrite E1. cbn [bind]. rewrite E2. cbn [bind].
    exact E3. }
  assert (Hyy : reversion_passes x3 = Ok x3).
  { unfold reversion_passes.
    rewrite (stable_pass x3 1 N3 P3 A3). cbn [bind].
    rewrite (stable_pass x3 0.5 N3 P3 B3). cbn [bind].
    exact (stable_pass x3 0.35 N3 P3 C3). }
  assert (Hs : correct_shares_outstanding_outliers s = Ok (rolling_pass x3)).
  { now rewrite correct_shares_outstanding_outliers_passes, Hy. }
  assert (Hsy : correct_shares_outstanding_outliers x3 = Ok (rolling_pass x3)).
  { now rewrite correct_shares_outstanding_outliers_passes, Hyy. }
  assert (Hquiet : detect_rolling_median_outliers x3 = all_false x3 ->
                   rolling_pass x3 = x3).
  { intros Hq. unfold rolling_pass. rewrite Hq.
    now apply corrector_all_false_gap_free. }
  exists x3. split; [exact Hy|]. split; [exact Hyy|].
  split; [split; assumption|]. split.
  - intros Hq. rewrite Hs, Hsy, (Hquiet Hq). split; reflexivity.
  - intros Hlen.
    assert (Hq : detect_rolling_median_outliers x3 = all_false x3).
    { apply short_series_no_rolling_outlier.
      rewrite (same_labels_length x3 s) by congruence. exact Hlen. }
    split; [exact Hq|]. rewrite Hs, Hsy, (Hquiet Hq). split; reflexivity.
Qed.

(** Six observations with a leading missing value and one spike: the
    rolling-median pass finds nothing to flag after the reversion passes. *)
Lemma reversion_passes_idempotent_witness :
  let s := of_values [nan; 100; 250; 100; 110; 100; 100] in
  let y := of_values [nan; 100; 100; 100; 110; 100; 100] in
  reversion_passes s = Ok y /\
  reversion_passes y = Ok y /\
  detect_rolling_median_outliers y = all_false y /\
  correct_shares_outstanding_outliers s = Ok y /\
  correct_shares_outstanding_outliers y = Ok y.
Proof.
  intros s y.
  assert (Hnd : NoDup (labels s)) by distinct_labels.
  assert (Hgap : forall i j, (i <= j < length s)%nat ->
            isna (value_at s i) = false -> isna (value_at s j) = false)
    by (apply ffill_fixed_gap_free; reflexivity).
  destruct (reversion_passes_idempotent s Hnd Hgap)
    as (y' & Hy & Hyy & _ & Hquiet & _).
  assert (y' = y) as ->.
  { assert (E : reversion_passes s = Ok y) by reflexivity.
    rewrite E in Hy. now injection Hy. }
  assert (Hq : detect_rolling_median_outliers y = all_false y) by reflexivity.
  destruct (Hquiet Hq) as [H1 H2].
  repeat split; assumption.
Defined.

Example short_series_second_run :
  let s := of_values [100; 250; 180; 100] in
  correct_shares_outstanding_outliers s = Ok (of_values [100; 100; 100; 100]) /\
  correct_shares_outstanding_outliers (of_values [100; 100; 100; 100])
  = Ok (of_values [100; 100; 100; 100]).
Proof. split; reflexivity. Qed.

Example reversion_passes_example :
  reversion_passes (of_values [100; 250; 180; 100])
  = Ok (of_values [100; 100; 100; 100]).
Proof. reflexivity. Qed.

(** A gap breaks the idempotence of the reversion passes: pass 1 sees the
    missing value, the later passes see it filled. *)
Example gap_breaks_idempotence :
  correct_shares_outstanding_outliers (of_values [100; nan; 300; 180])
  = Ok (of_values [100; 100; 300; 180]) /\
  correct_shares_outstanding_outliers (of_values [100; 100; 300; 180])
  = Ok (of_values [100; 100; 100; 180]).
Proof. split; reflexivity. Qed.

(** * Further properties of the code *)

(** ** Marking a region *)

Lemma get_loc_absent ls l : ~ In l ls -> get_loc ls l = Raise KeyError.
Proof. intros H. unfold get_loc. now rewrite positions_of_notin. Qed.

(** X1: on a mask with distinct labels, [mark_spike_region] between the
    labels of positions [a] and [b] flags exactly the positions
    [a <= i < b] (the end label is exclusive), clears no flag and keeps the
    index; nothing changes when [b <= a]. *)
Theorem mark_spike_region_marks (m : Series bool) (a b : nat) (la lb : label) :
  NoDup (labels m) ->
  nth_error (labels m) a = Some la -> nth_error (labels m) b = Some lb ->
  exists m', mark_spike_region m la lb = Ok m' /\
    labels m' = labels m /\
    (forall i, flagged m' i = ((a <=? i) && (i <? b))%nat || flagged m i) /\
    ((b <= a)%nat -> m' = m).
Proof.
  intros Hnd Ha Hb. unfold mark_spike_region.
  rewrite (get_loc_NoDup _ _ _ Hnd Ha), (get_loc_NoDup _ _ _ Hnd Hb). cbn [bind].
  eexists. split; [reflexivity|]. split; [apply labels_iloc_set_slice|].
  assert (Hblen : (b < length m)%nat).
  { rewrite <- labels_length. apply nth_error_Some. congruence. }
  split.
  - intros i. unfold flagged. rewrite values_iloc_set_slice_nth.
    destruct (Nat.leb_spec a i), (Nat.ltb_spec i b); simpl; auto.
    destruct (Nat.ltb_spec i (length m)); [reflexivity|lia].
  - intros Hle. clear - Hle. revert a b Hle.
    induction m as [|e m IH]; intros a b Hle; [reflexivity|].
    simpl. destruct b as [|b]; [reflexivity|].
    destruct a as [|a]; [lia|]. f_equal. apply IH. lia.
Qed.

Lemma mark_spike_region_marks_witness :
  let m := of_values [false; false; true; false; false] in
  exists m', mark_spike_region m 1%Z 3%Z = Ok m' /\
    labels m' = labels m /\
    (forall i, flagged m' i = ((1 <=? i) && (i <? 3))%nat || flagged m i) /\
    ((3 <= 1)%nat -> m' = m).
Proof.
  intros m. apply (mark_spike_region_marks m 1 3 1%Z 3%Z).
  - distinct_labels.
  - reflexivity.
  - reflexivity.
Defined.

(** X2: when one of the two labels is not in the index of the mask (all
    labels distinct), [mark_spike_region] raises [KeyError] and returns no
    mask. *)
Theorem mark_spike_region_absent_label (m : Series bool) (la lb : label) :
  NoDup (labels m) ->
  ~ In la (labels m) \/ ~ In lb (labels m) ->
  mark_spike_region m la lb = Raise KeyError.
Proof.
  intros Hnd H. unfold mark_spike_region.
  destruct (in_dec Z.eq_dec la (labels m)) as [Hin|Hout].
  - destruct H as [H|H]; [contradiction|].
    apply In_nth_error in Hin. destruct Hin as [a Ha].
    rewrite (get_loc_NoDup _ _ _ Hnd Ha). cbn [bind].
    now rewrite get_loc_absent.
  - now rewrite get_loc_absent.
Qed.

Lemma mark_spike_region_absent_label_witness :
  mark_spike_region (of_values [false; false; false]) 1%Z 7%Z = Raise KeyError.
Proof.
  apply mark_spike_region_absent_label.
  - distinct_labels.
  - right. vm_compute. intuition lia.
Defined.

(** ** What the reversion detector flags *)

(** The region around a flagged position. *)
Lemma flagged_region (s : Series float) t L mask pu log i :
  loop_inv s t L (candidate_positions s t) ((mask, pu), log) ->
  flagged mask i = true ->
  exists p r,
    (0 < p <= i)%nat /\ (i < r)%nat /\ (r < length s)%nat /\ (r < p + L)%nat /\
    flagged mask (p - 1) = false /\ flagged mask r = false /\
    (forall k, (p <= k < r)%nat -> flagged mask k = true) /\
    isna (value_at s (p - 1)) = false /\ (value_at s (p - 1) =? 0) = false /\
    (t <? relative_deviation (value_at s (p - 1)) (value_at s p)) = true /\
    (relative_deviation (value_at s (p - 1)) (value_at s r) <=? t) = true /\
    (forall k, (p <= k < r)%nat ->
       (relative_deviation (value_at s (p - 1)) (value_at s k) <=? t) = false).
Proof.
  intros inv Hf.
  apply (flagged_in_region _ _ _ _ _ _ inv) in Hf.
  destruct Hf as (p & r & Hin & Hpr).
  destruct (region_facts _ _ _ _ _ _ inv _ _ Hin) as (Hp & Hr & Hc & Hrev).
  pose proof (reversion_pos_Some _ _ _ _ _ _ Hrev) as (Hn & Hz & Hw & Hrv & Hfirst).
  rewrite pre_spike_pos in Hn, Hz, Hrv, Hfirst by assumption.
  exists p, r. repeat split; try lia; auto.
  - eapply before_region_unflagged; eauto.
  - destruct (flagged mask r) eqn:F; [|reflexivity]. exfalso.
    apply (flagged_in_region _ _ _ _ _ _ inv) in F.
    destruct F as (p' & r' & Hin' & Hpr').
    destruct (region_facts _ _ _ _ _ _ inv _ _ Hin') as (_ & Hr' & _).
    destruct (regions_disjoint log p r p' r' (inv_sorted _ _ _ _ _ inv) Hin Hin')
      as [[-> ->]|[H|H]]; lia.
  - intros k Hk. apply (flagged_in_region _ _ _ _ _ _ inv). exists p, r. auto.
  - apply candidate_positions_In in Hc. destruct Hc as [_ Hc].
    unfold pct_at in Hc. now rewrite pre_spike_pos in Hc by assumption.
Qed.

Lemma detect_inv (s : Series float) t L mask :
  NoDup (labels s) -> detect_reverting_spikes s t L = Ok mask ->
  exists pu log, loop_inv s t L (candidate_positions s t) ((mask, pu), log).
Proof.
  intros Hnd Hd.
  destruct (detect_reverting_spikes_regions s t L Hnd) as (m & pu & log & _ & E & inv).
  rewrite Hd in E. injection E as <-. eauto.
Qed.

(** X3: every position the reversion detector flags lies in a run
    [p .. r-1] bracketed by two unflagged positions [p-1] and [r]: the
    value at [p-1] is present and non-zero, the change at [p] exceeds the
    threshold, [r] is less than [L] positions after [p], the value at [r]
    is back within the threshold of the value at [p-1], and no value of
    the run is. *)
Theorem flagged_run_is_bracketed (s : Series float) (t : float) (L : nat)
    (mask : Series bool) (i : nat) :
  NoDup (labels s) -> detect_reverting_spikes s t L = Ok mask ->
  flagged mask i = true ->
  exists p r,
    (0 < p <= i)%nat /\ (i < r)%nat /\ (r < length s)%nat /\ (r < p + L)%nat /\
    flagged mask (p - 1) = false /\ flagged mask r = false /\
    (forall k, (p <= k < r)%nat -> flagged mask k = true) /\
    isna (value_at s (p - 1)) = false /\ (value_at s (p - 1) =? 0) = false /\
    (t <? relative_deviation (value_at s (p - 1)) (value_at s p)) = true /\
    (relative_deviation (value_at s (p - 1)) (value_at s r) <=? t) = true /\
    (forall k, (p <= k < r)%nat ->
       (relative_deviation (value_at s (p - 1)) (value_at s k) <=? t) = false).
Proof.
  intros Hnd Hd Hf. destruct (detect_inv s t L mask Hnd Hd) as (pu & log & inv).
  eapply flagged_region; eauto.
Qed.

Lemma flagged_run_is_bracketed_witness :
  let s := of_values [100; 100; 250; 260; 100; 100] in
  let mask := of_values [false; false; true; true; false; false] in
  exists p r,
    (0 < p <= 3)%nat /\ (3 < r)%nat /\ (r < length s)%nat /\ (r < p + 600)%nat /\
    flagged mask (p - 1) = false /\ flagged mask r = false /\
    (forall k, (p <= k < r)%nat -> flagged mask k = true) /\
    isna (value_at s (p - 1)) = false /\ (value_at s (p - 1) =? 0) = false /\
    (1 <? relative_deviation (value_at s (p - 1)) (value_at s p)) = true /\
    (relative_deviation (value_at s (p - 1)) (value_at s r) <=? 1) = true /\
    (forall k, (p <= k < r)%nat ->
       (relative_deviation (value_at s (p - 1)) (value_at s k) <=? 1) = false).
Proof.
  intros s mask. apply (flagged_run_is_bracketed s 1 600 mask 3).
  - distinct_labels.
  - reflexivity.
  - reflexivity.
Defined.

(** X4: the reversion detector never flags the first nor the last
    position of a series; in particular it never flags a whole series. *)
Theorem ends_never_flagged (s : Series float) (t : float) (L : nat)
    (mask : Series bool) :
  NoDup (labels s) -> detect_reverting_spikes s t L = Ok mask ->
  flagged mask 0 = false /\ flagged mask (length s - 1) = false.
Proof.
  intros Hnd Hd. destruct (detect_inv s t L mask Hnd Hd) as (pu & log & inv).
  split.
  - destruct (flagged mask 0) eqn:F; [|reflexivity].
    destruct (flagged_region s t L mask pu log 0 inv F) as (p & r & H & _). lia.
  - destruct (flagged mask (length s - 1)) eqn:F; [|reflexivity].
    destruct (flagged_region s t L mask pu log _ inv F) as (p & r & _ & H1 & H2 & _).
    lia.
Qed.

Lemma ends_never_flagged_witness :
  let s := of_values [100; 250; 100; 300] in
  flagged (of_values [false; true; false; false]) 0 = false /\
  flagged (of_values [false; true; false; false]) (length s - 1) = false.
Proof.
  intros s. apply (ends_never_flagged s 1 600).
  - distinct_labels.
  - reflexivity.
Defined.

(** ** Passes that flag nothing *)

Lemma not_reverted_stable (s : Series float) t L :
  (forall p j, (0 < p)%nat -> (p <= j < Nat.min (p + L) (length s))%nat ->
     (t <? relative_deviation (value_at s (p - 1)) (value_at s p)) = true ->
     (relative_deviation (value_at s (p - 1)) (value_at s j) <=? t) = false) ->
  stable s t L.
Proof.
  intros H q Hq. pose proof (candidate_positive _ _ _ Hq) as Hq0.
  apply candidate_positions_In in Hq. destruct Hq as [_ Hc].
  unfold pct_at in Hc. rewrite pre_spike_pos in * by assumption.
  apply reversion_pos_none. intros j Hj. unfold reverted. now apply H.
Qed.

(** X5: a change that never comes back is left alone.  When, for every
    position [p] whose change exceeds the threshold, no value of
    [p .. min (p + L, length) - 1] is within the threshold of the value
    before [p], the detector flags nothing; and the corrector then returns
    a series without gaps unchanged. *)
Theorem permanent_shift_preserved (s : Series float) (t : float) (L : nat) :
  NoDup (labels s) ->
  (forall p j, (0 < p)%nat -> (p <= j < Nat.min (p + L) (length s))%nat ->
     (t <? relative_deviation (value_at s (p - 1)) (value_at s p)) = true ->
     (relative_deviation (value_at s (p - 1)) (value_at s j) <=? t) = false) ->
  detect_reverting_spikes s t L = Ok (all_false s) /\
  ((forall i j, (i <= j < length s)%nat ->
      isna (value_at s i) = false -> isna (value_at s j) = false) ->
   apply_forward_fill_correction s (all_false s) = s).
Proof.
  intros Hnd H. split.
  - apply stable_detect; [exact Hnd|]. now apply not_reverted_stable.
  - intros Hgap. now apply corrector_all_false_gap_free.
Qed.

Lemma permanent_shift_preserved_witness :
  let s := of_values [100; 100; 100; 250; 260; 270; 280] in
  detect_reverting_spikes s 1 600 = Ok (all_false s) /\
  ((forall i j, (i <= j < length s)%nat ->
      isna (value_at s i) = false -> isna (value_at s j) = false) ->
   apply_forward_fill_correction s (all_false s) = s).
Proof.
  intros s. apply (permanent_shift_preserved s 1 600).
  - distinct_labels.
  - intros p j Hp Hj.
    assert (Hlen : length s = 7%nat) by reflexivity. rewrite Hlen in Hj.
    destruct p as [|[|[|[|[|[|[|p]]]]]]]; try lia;
      destruct j as [|[|[|[|[|[|[|j]]]]]]]; try lia;
      vm_compute; intuition congruence.
Defined.

(** X6: with a lookahead of 0 or 1 the detector can confirm no reversion
    (the window is empty, or holds the spike start alone) and flags
    nothing, whatever the series and threshold. *)
Theorem short_lookahead_flags_nothing (s : Series float) (t : float) (L : nat) :
  NoDup (labels s) -> L = 0%nat \/ L = 1%nat ->
  detect_reverting_spikes s t L = Ok (all_false s).
Proof.
  intros Hnd HL. assert (HL' : (L <= 1)%nat) by lia.
  apply stable_detect; [exact Hnd|].
  apply not_reverted_stable. intros p j Hp Hj Hc.
  assert (j = p) as -> by lia.
  destruct (relative_deviation (value_at s (p - 1)) (value_at s p) <=? t) eqn:E;
    [|reflexivity].
  rewrite (FloatFacts.leb_not_ltb _ _ E) in Hc. discriminate.
Qed.

Lemma short_lookahead_flags_nothing_witness :
  let s := of_values [100; 250; 100] in
  detect_reverting_spikes s 1 1 = Ok (all_false s).
Proof.
  intros s. apply (short_lookahead_flags_nothing s 1 1).
  - distinct_labels.
  - right. reflexivity.
Defined.

(** X7: one reversion pass is idempotent for every threshold [t >= 0] and
    every lookahead: on a series without gaps, after the detector's mask is
    forward-filled, the detector at the same threshold flags nothing and
    the corrector changes nothing. *)
Theorem reversion_pass_idempotent (s : Series float) (t : float) (L : nat) :
  NoDup (labels s) ->
  (forall i j, (i <= j < length s)%nat ->
      isna (value_at s i) = false -> isna (value_at s j) = false) ->
  (0 <=? t) = true ->
  exists mask,
    detect_reverting_spikes s t L = Ok mask /\
    let s' := apply_forward_fill_correction s mask in
    detect_reverting_spikes s' t L = Ok (all_false s') /\
    apply_forward_fill_correction s' (all_false s') = s'.
Proof.
  intros Hnd Hgap Ht. change (gap_free s) in Hgap.
  destruct (detect_reverting_spikes_regions s t L Hnd)
    as (mask & pu & log & _ & Hd & inv).
  exists mask. split; [exact Hd|]. cbv zeta.
  assert (Htt : (t <=? t) = true).
  { apply FloatFacts.leb_refl. destruct (isna t) eqn:E; [|reflexivity].
    rewrite (FloatFacts.isna_nan t E) in Ht. vm_compute in Ht. discriminate. }
  split.
  - apply stable_detect.
    + now rewrite (pass_labels s t L mask pu log inv).
    + apply (pass_stable s t L mask pu log Hgap inv t Ht Htt). now left.
  - apply corrector_all_false_gap_free.
    exact (pass_gap_free s t L mask pu log Hgap inv).
Qed.

Lemma reversion_pass_idempotent_witness :
  let s := of_values [nan; 100; 150; 90; 140; 100] in
  exists mask,
    detect_reverting_spikes s 0.35 2 = Ok mask /\
    let s' := apply_forward_fill_correction s mask in
    detect_reverting_spikes s' 0.35 2 = Ok (all_false s') /\
    apply_forward_fill_correction s' (all_false s') = s'.
Proof.
  intros s. apply (reversion_pass_idempotent s 0.35 2).
  - distinct_labels.
  - apply ffill_fixed_gap_free. reflexivity.
  - reflexivity.
Defined.

(** ** The corrector, further *)

Lemma series_ext (a b : Series float) :
  labels a = labels b ->
  (forall i, (i < length a)%nat -> value_at a i = value_at b i) ->
  a = b.
Proof.
  revert b. induction a as [|[l x] a IH]; intros [|[l' x'] b] Hl Hv;
    try discriminate; [reflexivity|].
  simpl in Hl. injection Hl as -> Hl.
  assert (x = x') as -> by (apply (Hv 0%nat); simpl; lia).
  f_equal. apply IH; [exact Hl|].
  intros i Hi. apply (Hv (S i)). simpl. lia.
Qed.

Section CorrectorMore.
Variable s : Series float.
Variable m : Series bool.
Hypothesis same_length : length m = length s.

(** The output is missing at [i] exactly when no position up to [i] is
    both unflagged and present. *)
Lemma corrector_missing_iff i :
  (i < length s)%nat ->
  isna (value_at (apply_forward_fill_correction s m) i) = true <->
  forall j, (j <= i)%nat -> flagged m j = true \/ isna (value_at s j) = true.
Proof.
  induction i as [|i IH]; intros Hi.
  - destruct (flagged m 0) eqn:F.
    + rewrite corrector_first by auto. split; [|reflexivity].
      intros _ j Hj. assert (j = 0%nat) as -> by lia. now left.
    + destruct (isna (value_at s 0)) eqn:N.
      * rewrite corrector_first by auto. split; [|reflexivity].
        intros _ j Hj. assert (j = 0%nat) as -> by lia. now right.
      * rewrite corrector_kept by assumption. rewrite N. split; [discriminate|].
        intros H. destruct (H 0%nat (le_n 0)); congruence.
  - destruct (flagged m (S i)) eqn:F.
    + rewrite corrector_filled by auto. rewrite IH by lia. split.
      * intros H j Hj. destruct (Nat.eq_dec j (S i)) as [->|]; [now left|].
        apply H. lia.
      * intros H j Hj. apply H. lia.
    + destruct (isna (value_at s (S i))) eqn:N.
      * rewrite corrector_filled by auto. rewrite IH by lia. split.
        -- intros H j Hj. destruct (Nat.eq_dec j (S i)) as [->|]; [now right|].
           apply H. lia.
        -- intros H j Hj. apply H. lia.
      * rewrite corrector_kept by assumption. rewrite N. split; [discriminate|].
        intros H. destruct (H (S i) (le_n _)); congruence.
Qed.

Lemma corrector_gap_free : gap_free (apply_forward_fill_correction s m).
Proof.
  intros i j [Hij Hj] Hi.
  rewrite (apply_forward_fill_correction_length s m same_length) in Hj.
  destruct (isna (value_at (apply_forward_fill_correction s m) j)) eqn:E;
    [exfalso|reflexivity].
  pose proof (proj1 (corrector_missing_iff j Hj) E) as E'.
  assert (Hi' : isna (value_at (apply_forward_fill_correction s m) i) = true).
  { apply (proj2 (corrector_missing_iff i ltac:(lia))).
    intros k Hk. apply E'. lia. }
  congruence.
Qed.

Lemma corrector_twice_value i :
  (i < length s)%nat ->
  value_at (apply_forward_fill_correction (apply_forward_fill_correction s m) m) i
  = value_at (apply_forward_fill_correction s m) i.
Proof.
  set (out := apply_forward_fill_correction s m).
  assert (Hlen : length m = length out).
  { unfold out. now rewrite apply_forward_fill_correction_length. }
  assert (Hout : length out = length s).
  { unfold out. now apply apply_forward_fill_correction_length. }
  induction i as [|i IH]; intros Hi.
  - destruct (flagged m 0) eqn:F.
    + rewrite corrector_first by (auto; lia).
      unfold out. now rewrite corrector_first by auto.
    + destruct (isna (value_at out 0)) eqn:N.
      * rewrite corrector_first by (auto; lia).
        symmetry. now apply FloatFacts.isna_nan.
      * now apply corrector_kept.
  - destruct (flagged m (S i)) eqn:F.
    + rewrite corrector_filled by (auto; lia). rewrite IH by lia.
      unfold out. now rewrite (corrector_filled s m same_length i) by auto.
    + destruct (isna (value_at out (S i))) eqn:N.
      * rewrite corrector_filled by (auto; lia). rewrite IH by lia.
        destruct (isna (value_at s (S i))) eqn:Ns.
        -- unfold out. now rewrite (corrector_filled s m same_length i) by auto.
        -- unfold out in N. rewrite corrector_kept in N by assumption.
           congruence.
      * now apply corrector_kept.
Qed.

End CorrectorMore.

(** X8: correcting twice with the same mask is correcting once. *)
Theorem forward_fill_correction_idempotent (s : Series float) (m : Series bool) :
  length m = length s ->
  apply_forward_fill_correction (apply_forward_fill_correction s m) m
  = apply_forward_fill_correction s m.
Proof.
  intros Hlen.
  assert (Hlen' : length m = length (apply_forward_fill_correction s m)).
  { now rewrite apply_forward_fill_correction_length. }
  apply series_ext.
  - now rewrite !apply_forward_fill_correction_labels.
  - intros i Hi. apply corrector_twice_value; [exact Hlen|].
    now rewrite !apply_forward_fill_correction_length in Hi.
Qed.

Lemma forward_fill_correction_idempotent_witness :
  let s := of_values [nan; 5; nan; 9; 7] in
  let m := of_values [false; false; false; true; false] in
  apply_forward_fill_correction (apply_forward_fill_correction s m) m
  = apply_forward_fill_correction s m.
Proof.
  intros s m. apply (forward_fill_correction_idempotent s m). reflexivity.
Defined.

(** X9: a value of the corrected series is missing exactly when no
    position at or before it is both unflagged and present in the input.
    Hence a flagged first observation stays missing, and the corrected
    series has no gap: once a value is present, all later ones are. *)
Theorem corrected_missing_only_leading (s : Series float) (m : Series bool) :
  length m = length s ->
  let out := apply_forward_fill_correction s m in
  (forall i, (i < length s)%nat ->
     (isna (value_at out i) = true <->
      forall j, (j <= i)%nat -> flagged m j = true \/ isna (value_at s j) = true)) /\
  (forall i j, (i <= j < length s)%nat ->
     isna (value_at out i) = false -> isna (value_at out j) = false).
Proof.
  intros Hlen out. split.
  - intros i Hi. now apply corrector_missing_iff.
  - intros i j Hij. apply (corrector_gap_free s m Hlen i j).
    unfold out. now rewrite apply_forward_fill_correction_length.
Qed.

Lemma corrected_missing_only_leading_witness :
  let s := of_values [7; nan; 5; nan; 9] in
  let m := of_values [true; false; false; false; true] in
  let out := apply_forward_fill_correction s m in
  (forall i, (i < length s)%nat ->
     (isna (value_at out i) = true <->
      forall j, (j <= i)%nat -> flagged m j = true \/ isna (value_at s j) = true)) /\
  (forall i j, (i <= j < length s)%nat ->
     isna (value_at out i) = false -> isna (value_at out j) = false).
Proof.
  intros s m. apply (corrected_missing_only_leading s m). reflexivity.
Defined.

(** X10: whatever series the pipeline returns has no gap: its missing
    values, if any, all come before its first present value. *)
Theorem pipeline_output_has_no_gap (s out : Series float) :
  correct_shares_outstanding_outliers s = Ok out ->
  forall i j, (i <= j < length out)%nat ->
    isna (value_at out i) = false -> isna (value_at out j) = false.
Proof.
  rewrite correct_shares_outstanding_outliers_passes.
  destruct (reversion_passes s) as [c|e]; [cbn [bind]|discriminate].
  intros [= <-]. unfold rolling_pass.
  apply corrector_gap_free.
  apply same_labels_length, labels_detect_rolling_median_outliers.
Qed.

Lemma pipeline_output_has_no_gap_witness :
  isna (value_at (of_values [100; 100; 300; 180]) 3) = false.
Proof.
  apply (pipeline_output_has_no_gap (of_values [100; nan; 300; 180])
           (of_values [100; 100; 300; 180]) eq_refl 1 3).
  - vm_compute. lia.
  - reflexivity.
Defined.

(** ** The rolling-median detector, further *)

(** The centered window of position [i]: the positions within 31 of [i]. *)
Lemma centered_window_bounds {A} (s : Series A) i :
  centered_window ROLLING_WINDOW_DAYS s i =
  iloc_slice s (i - 31) (Nat.min (i + 32) (length s)).
Proof.
  unfold centered_window, ROLLING_WINDOW_DAYS.
  change ((63 - 1) / 2)%nat with 31%nat.
  replace (i + 1 + 31 - 63)%nat with (i - 31)%nat by lia.
  now replace (i + 1 + 31)%nat with (i + 32)%nat by lia.
Qed.

Lemma window_median_present (w : list float) :
  isna (window_median ROLLING_MIN_PERIODS w) = false ->
  (ROLLING_MIN_PERIODS <= length (filter (fun x => negb (isna x)) w))%nat.
Proof.
  unfold window_median.
  destruct (Nat.leb_spec ROLLING_MIN_PERIODS
              (length (filter (fun x => negb (isna x)) w))) as [H|H]; [auto|].
  simpl. discriminate.
Qed.

Lemma present_prepared (w : list float) :
  filter (fun x => negb (isna x)) (map prep_value w) = filter finite_value w.
Proof.
  induction w as [|x w IH]; [reflexivity|].
  cbn [filter map]. unfold finite_value at 1.
  assert (Hx : prep_value x = if is_infinity x then nan else x) by reflexivity.
  destruct (is_infinity x); rewrite Hx.
  - rewrite andb_false_r. exact IH.
  - rewrite andb_true_r. destruct (isna x); cbn [negb]; now rewrite IH.
Qed.

Lemma present_finite (w : list float) :
  filter (fun x => negb (isna x)) (filter finite_value w) = filter finite_value w.
Proof.
  induction w as [|x w IH]; [reflexivity|].
  cbn [filter].
  assert (Hx : finite_value x = negb (isna x) && negb (is_infinity x))
    by reflexivity.
  rewrite Hx. clear Hx.
  destruct (isna x) eqn:E; cbn [negb andb]; [exact IH|].
  destruct (is_infinity x); cbn [negb filter]; [exact IH|].
  now rewrite E, IH.
Qed.

(** The median of a prepared window is the median of its finite values. *)
Lemma window_median_prepared (n : nat) (w : list float) :
  window_median n (map prep_value w) = window_median n (filter finite_value w).
Proof.
  unfold window_median. now rewrite present_prepared, present_finite.
Qed.

Lemma values_iloc_slice_map_values {A B} (f : A -> B) (s : Series A) a b :
  values (iloc_slice (map_values f s) a b) = map f (values (iloc_slice s a b)).
Proof.
  unfold values, iloc_slice, map_values.
  rewrite skipn_map, firstn_map, !map_map. reflexivity.
Qed.

(** X11: the rolling-median detector flags a position only if its value
    is present, at least 5 finite values (neither missing nor infinite) lie
    among the positions within 31 of it, and the value deviates from the
    median of those finite values by more than 0.40 of it; a missing
    value, or one with fewer than 5 finite neighbours, is never flagged. *)
Theorem rolling_flag_needs_observations (s : Series float) (i : nat) :
  flagged (detect_rolling_median_outliers s) i = true ->
  let window := values (iloc_slice s (i - 31) (Nat.min (i + 32) (length s))) in
  let observations := filter finite_value window in
  (i < length s)%nat /\
  isna (value_at s i) = false /\
  (5 <= length observations)%nat /\
  (0.40 <? relative_deviation (window_median 5 observations) (value_at s i)) = true.
Proof.
  intros Hf window observations.
  assert (Hi : (i < length s)%nat).
  { destruct (Nat.lt_ge_cases i (length s)) as [H|H]; [exact H|].
    unfold flagged in Hf. rewrite nth_overflow in Hf; [discriminate|].
    rewrite values_length.
    now rewrite (same_labels_length _ s (labels_detect_rolling_median_outliers s)). }
  destruct (rolling_median_flag_sound s i Hf) as (Hm & Hv & Hr).
  rewrite centered_window_bounds, values_iloc_slice_map_values, map_values_length,
    window_median_prepared in Hm, Hr.
  fold window in Hm, Hr. fold observations in Hm, Hr.
  split; [exact Hi|]. split; [exact Hv|]. split; [|exact Hr].
  apply window_median_present in Hm. unfold observations.
  now rewrite <- present_finite.
Qed.

Lemma rolling_flag_needs_observations_witness :
  let s := of_values [10; 10; 10; 15; 15; infinity; infinity; infinity] in
  let window := values (iloc_slice s (3 - 31) (Nat.min (3 + 32) (length s))) in
  let observations := filter finite_value window in
  (3 < length s)%nat /\
  isna (value_at s 3) = false /\
  (5 <= length observations)%nat /\
  (0.40 <? relative_deviation (window_median 5 observations) (value_at s 3)) = true.
Proof.
  intros s. apply (rolling_flag_needs_observations s 3). reflexivity.
Defined.

Lemma values_iloc_slice_nth_error {A} (s : Series A) a b k :
  (b <= length s)%nat ->
  nth_error (values (iloc_slice s a b)) k =
  if (k <? b - a)%nat then nth_error (values s) (a + k) else None.
Proof.
  intros Hb. unfold values.
  destruct (Nat.ltb_spec k (b - a)) as [H|H].
  - rewrite !nth_error_map. now rewrite nth_error_iloc_slice.
  - apply nth_error_None. rewrite length_map, iloc_slice_length by assumption. lia.
Qed.

Lemma nth_error_values (s : Series float) j :
  (j < length s)%nat -> nth_error (values s) j = Some (value_at s j).
Proof.
  intros H. unfold value_at. apply nth_error_nth'. now rewrite values_length.
Qed.

Lemma rolling_flag_local (s s' : Series float) (i : nat) :
  length s = length s' ->
  (forall j, (i - 31 <= j <= i + 31)%nat -> value_at s j = value_at s' j) ->
  flagged (detect_rolling_median_outliers s) i
  = flagged (detect_rolling_median_outliers s') i.
Proof.
  intros Hlen Hagree.
  assert (Hw : values (centered_window ROLLING_WINDOW_DAYS (map_values prep_value s) i)
               = values (centered_window ROLLING_WINDOW_DAYS
                           (map_values prep_value s') i)).
  { rewrite !centered_window_bounds, !values_iloc_slice_map_values,
      !map_values_length.
    f_equal. apply nth_error_ext. intros k.
    rewrite !values_iloc_slice_nth_error by lia. rewrite <- Hlen.
    destruct (Nat.ltb_spec k (Nat.min (i + 32) (length s) - (i - 31)));
      [|reflexivity].
    rewrite !nth_error_values by lia. f_equal. apply Hagree. lia. }
  destruct (nth_error s i) as [e|] eqn:E.
  - assert (Hi : (i < length s)%nat) by (apply nth_error_Some; congruence).
    destruct (nth_error s' i) as [e'|] eqn:E';
      [|apply nth_error_None in E'; lia].
    rewrite (flagged_nth_error _ _ _ (detect_rolling_median_outliers_nth s i e E)).
    rewrite (flagged_nth_error _ _ _ (detect_rolling_median_outliers_nth s' i e' E')).
    simpl. rewrite Hw.
    rewrite <- (value_at_nth_error s i e E), <- (value_at_nth_error s' i e' E').
    rewrite (Hagree i) by lia. reflexivity.
  - apply nth_error_None in E. unfold flagged.
    rewrite !nth_overflow; [reflexivity| |]; rewrite values_length.
    + rewrite (same_labels_length _ s' (labels_detect_rolling_median_outliers s')).
      lia.
    + now rewrite (same_labels_length _ s (labels_detect_rolling_median_outliers s)).
Qed.

(** X12: the flag of a position depends only on the values within 31
    positions of it: two series of the same length that agree there get
    the same flag. *)
Theorem rolling_flag_is_local (s s' : Series float) (i : nat) :
  length s = length s' ->
  (forall j, (i - 31 <= j <= i + 31)%nat -> value_at s j = value_at s' j) ->
  flagged (detect_rolling_median_outliers s) i
  = flagged (detect_rolling_median_outliers s') i.
Proof. apply rolling_flag_local. Qed.

Lemma rolling_flag_is_local_witness :
  let s := of_values [100; 100; 100; 160; 100; 100] in
  let s' := [(10%Z, 100); (20%Z, 100); (30%Z, 100); (40%Z, 160); (50%Z, 100);
             (60%Z, 100)] in
  flagged (detect_rolling_median_outliers s) 3
  = flagged (detect_rolling_median_outliers s') 3.
Proof.
  intros s s'. apply (rolling_flag_is_local s s' 3); [reflexivity|].
  intros j Hj. destruct j as [|[|[|[|[|[|j]]]]]]; reflexivity.
Defined.

(** ** Percentage change and candidates, further *)

Lemma SFdiv_abs_sign f g :
  SFltb (SF64div (SFabs f) (SFabs g)) (S754_zero false) = false.
Proof.
  destruct f as [sf|sf| |sf mf ef], g as [sg|sg| |sg mg eg]; try reflexivity.
  unfold SF64div, SFdiv, SFabs.
  destruct (SFdiv_core_binary prec emax (Z.pos mf) ef (Z.pos mg) eg) as [[mz ez] lz].
  unfold binary_round_aux.
  destruct (shr_fexp prec emax mz ez lz) as [mrs' e'].
  destruct (shr_fexp prec emax _ e' loc_Exact) as [mrs'' e''].
  destruct (shr_m mrs''); try reflexivity.
  simpl. now destruct (Z.leb e'' _).
Qed.

Lemma relative_deviation_nonneg b x : (relative_deviation b x <? 0) = false.
Proof.
  unfold relative_deviation. rewrite ltb_spec, div_spec, !abs_spec.
  apply SFdiv_abs_sign.
Qed.

(** X13: [calculate_pct_change] returns a series over the same index
    whose first value is missing and whose values are never negative. *)
Theorem pct_change_shape (s : Series float) :
  labels (calculate_pct_change s) = labels s /\
  ((0 < length s)%nat -> isna (value_at (calculate_pct_change s) 0) = true) /\
  forall i, (value_at (calculate_pct_change s) i <? 0) = false.
Proof.
  split; [apply labels_calculate_pct_change|]. split.
  - intros H. erewrite value_at_nth_error
      by (apply calculate_pct_change_nth; exact H).
    simpl. now rewrite pct_at_first.
  - intros i. destruct (Nat.lt_ge_cases i (length s)) as [H|H].
    + erewrite value_at_nth_error by (apply calculate_pct_change_nth; exact H).
      simpl. apply relative_deviation_nonneg.
    + rewrite value_at_overflow; [reflexivity|].
      now rewrite calculate_pct_change_length.
Qed.

Lemma ltb_leb_trans t1 t2 x :
  (t1 <=? t2) = true -> (t2 <? x) = true -> (t1 <? x) = true.
Proof.
  intros H1 H2.
  destruct (FloatFacts.leb_true_not_nan _ _ H1) as [N1 N2].
  assert (Nx : Prim2SF x <> S754_nan).
  { intros E. apply FloatFacts.isna_Prim2SF in E.
    rewrite (FloatFacts.isna_nan x E), FloatFacts.ltb_nan_r in H2.
    discriminate. }
  rewrite leb_spec in H1. rewrite ltb_spec in *.
  apply (FloatFacts.SFleb_key _ _ N1 N2) in H1.
  apply (FloatFacts.SFltb_key _ _ N2 Nx) in H2.
  apply (FloatFacts.SFltb_key _ _ N1 Nx).
  unfold lex_le, lex_lt in *.
  destruct (key (Prim2SF t1)) as [[? ?] ?], (key (Prim2SF t2)) as [[? ?] ?],
    (key (Prim2SF x)) as [[? ?] ?]. lia.
Qed.

(** X14: raising the threshold never adds a spike-start candidate: every
    label collected at threshold [t2] is collected at any [t1 <= t2]. *)
Theorem candidates_shrink_with_threshold (pct : Series float) (t1 t2 : float) :
  (t1 <=? t2) = true ->
  incl (find_spike_start_indices pct t2) (find_spike_start_indices pct t1).
Proof.
  intros Ht l Hl. unfold find_spike_start_indices, labels in *.
  apply in_map_iff in Hl. destruct Hl as (e & <- & He).
  apply filter_In in He. destruct He as [He Hx].
  apply in_map. apply filter_In. split; [exact He|].
  eapply ltb_leb_trans; eauto.
Qed.

Lemma candidates_shrink_with_threshold_witness :
  let pct := calculate_pct_change (of_values [100; 140; 100; 250; 100]) in
  incl (find_spike_start_indices pct 1) (find_spike_start_indices pct 0.35).
Proof.
  intros pct. apply (candidates_shrink_with_threshold pct 0.35 1). reflexivity.
Defined.

(** ** The moving-average crossover signal *)

Lemma lex_lt_or_le a b : lex_lt b a \/ lex_le a b.
Proof.
  unfold lex_lt, lex_le. destruct a as [[a1 a2] a3], b as [[b1 b2] b3]. lia.
Qed.

Lemma not_ltb_leb a b :
  isna a = false -> isna b = false -> (b <? a) = false -> (a <=? b) = true.
Proof.
  intros Na Nb H. apply FloatFacts.isna_false_SF in Na, Nb.
  rewrite leb_spec. rewrite ltb_spec in H.
  apply (FloatFacts.SFleb_key _ _ Na Nb).
  destruct (lex_lt_or_le (key (Prim2SF a)) (key (Prim2SF b))) as [Hlt|Hle];
    [|exact Hle].
  apply (FloatFacts.SFltb_key _ _ Nb Na) in Hlt. congruence.
Qed.

(** The right-hand side of the assignment holds, for the label of a valid
    position, the comparison at that position. *)
Lemma crossover_at_label (a b : Series (option float)) (mask : Series bool) :
  forall i ea eb em,
  labels a = labels b -> NoDup (labels a) ->
  nth_error a i = Some ea -> nth_error b i = Some eb ->
  nth_error mask i = Some em -> snd em = true ->
  at_label (map_values astype_float
              (zip_with gt (select_where a mask) (select_where b mask)))
           (fst ea)
  = astype_float (gt (snd ea) (snd eb)).
Proof.
  revert b mask.
  induction a as [|[la xa] a IH]; intros [|[lb xb] b] [|[lm bm] mask] i ea eb em
    Hl Hnd Ha Hb Hm Hv; try (destruct i; discriminate); try discriminate.
  simpl in Hl. injection Hl as <- Hl.
  inversion Hnd as [|? ? Hnotin Hnd']; subst.
  destruct i as [|i]; simpl in Ha, Hb, Hm.
  - injection Ha as <-. injection Hb as <-. injection Hm as <-.
    simpl in Hv. subst bm. simpl. unfold at_label. simpl.
    now rewrite Z.eqb_refl.
  - assert (Hne : fst ea <> la).
    { intros <-. apply Hnotin. unfold labels. apply in_map.
      eapply nth_error_In; eauto. }
    simpl. destruct bm; simpl.
    + unfold at_label. simpl.
      destruct (Z.eqb_spec la (fst ea)) as [E|_]; [congruence|].
      apply (IH b mask i ea eb em); auto.
    + apply (IH b mask i ea eb em); auto.
Qed.

Lemma c_sma_signal_nth (a b : Series (option float)) i ea eb :
  labels a = labels b -> NoDup (labels a) ->
  nth_error a i = Some ea -> nth_error b i = Some eb ->
  nth_error (c_sma_signal a b) i =
  Some (fst ea,
        match snd ea, snd eb with
        | Some x, Some y => if y <? x then 1 else 0
        | _, _ => nan
        end).
Proof.
  intros Hl Hnd Ha Hb. unfold c_sma_signal, assign_where.
  set (mask := zip_with andb (notna a) (notna b)).
  assert (Hm : nth_error mask i
               = Some (fst ea,
                       match snd ea with Some _ => true | None => false end
                       && match snd eb with Some _ => true | None => false end)).
  { unfold mask, notna, map_values.
    now rewrite zip_with_nth_error, !nth_error_map, Ha, Hb. }
  rewrite nth_error_map, nth_error_combine.
  unfold map_values at 2. rewrite nth_error_map, Ha, Hm. simpl.
  f_equal. f_equal.
  destruct (snd ea) as [x|] eqn:Na; [|reflexivity].
  destruct (snd eb) as [y|] eqn:Nb; [|reflexivity]. simpl.
  rewrite (crossover_at_label a b mask i ea eb _ Hl Hnd Ha Hb Hm eq_refl).
  rewrite Na, Nb. simpl. now destruct (y <? x).
Qed.

Lemma entry_at_nth_error {A} (s : Series (option A)) i e :
  nth_error s i = Some e -> entry_at s i = snd e.
Proof.
  intros H. unfold entry_at, values.
  apply nth_error_nth. now rewrite nth_error_map, H.
Qed.

(** X15: over one duplicate-free index, the signal has that index and, at
    every position, is missing (NaN) when either average is null; where
    neither is null it is 1 when the 50-day average is above the 200-day one
    and 0 otherwise: when the 50-day average is at or below the 200-day one,
    and also when either of them is a NaN, which is an entry like any
    other. *)
Theorem sma_signal_values (sma_50 sma_200 : Series (option float)) :
  labels sma_50 = labels sma_200 -> NoDup (labels sma_50) ->
  let signal := c_sma_signal sma_50 sma_200 in
  labels signal = labels sma_50 /\
  forall i, (i < length sma_50)%nat ->
    (entry_at sma_50 i = None \/ entry_at sma_200 i = None ->
     isna (value_at signal i) = true) /\
    (forall a b, entry_at sma_50 i = Some a -> entry_at sma_200 i = Some b ->
       ((b <? a) = true -> value_at signal i = 1) /\
       ((b <? a) = false -> value_at signal i = 0) /\
       (isna a = true \/ isna b = true -> value_at signal i = 0) /\
       (isna a = false -> isna b = false ->
        ((a <=? b) = true -> value_at signal i = 0) /\
        ((b <? a) = true \/ (a <=? b) = true))).
Proof.
  intros Hl Hnd signal.
  assert (Hlen : length sma_50 = length sma_200) by now apply same_labels_length.
  assert (Hnth : forall i, (i < length sma_50)%nat ->
            value_at signal i =
            match entry_at sma_50 i, entry_at sma_200 i with
            | Some x, Some y => if y <? x then 1 else 0
            | _, _ => nan
            end).
  { intros i Hi.
    destruct (nth_error sma_50 i) as [ea|] eqn:Ea;
      [|apply nth_error_None in Ea; lia].
    destruct (nth_error sma_200 i) as [eb|] eqn:Eb;
      [|apply nth_error_None in Eb; lia].
    unfold signal.
    rewrite (value_at_nth_error _ _ _ (c_sma_signal_nth _ _ i ea eb Hl Hnd Ea Eb)).
    now rewrite (entry_at_nth_error _ _ _ Ea), (entry_at_nth_error _ _ _ Eb). }
  split.
  - apply nth_error_ext. intros i. unfold labels at 1. rewrite nth_error_map.
    destruct (nth_error sma_50 i) as [ea|] eqn:Ea.
    + destruct (nth_error sma_200 i) as [eb|] eqn:Eb.
      * unfold signal. rewrite (c_sma_signal_nth _ _ i ea eb Hl Hnd Ea Eb).
        simpl. unfold labels. now rewrite nth_error_map, Ea.
      * apply nth_error_None in Eb.
        assert (i < length sma_50)%nat by (apply nth_error_Some; congruence). lia.
    + unfold labels. rewrite nth_error_map, Ea.
      apply nth_error_None in Ea.
      replace (nth_error signal i) with (@None (label * float)); [reflexivity|].
      symmetry. apply nth_error_None. unfold signal, c_sma_signal, assign_where.
      rewrite length_map, length_combine, map_values_length. lia.
  - intros i Hi. rewrite (Hnth i Hi). split.
    + intros [H|H]; rewrite H; [reflexivity|].
      now destruct (entry_at sma_50 i).
    + intros a b Ha Hb. rewrite Ha, Hb.
      split; [|split; [|split]].
      * intros Hab. now rewrite Hab.
      * intros Hab. now rewrite Hab.
      * intros [H|H]; apply FloatFacts.isna_nan in H; subst.
        -- now rewrite FloatFacts.ltb_nan_r.
        -- now rewrite FloatFacts.ltb_nan_l.
      * intros Na Nb. split.
        -- intros Hab. now rewrite (FloatFacts.leb_not_ltb _ _ Hab).
        -- destruct (b <? a) eqn:E; [now left|right].
           now apply not_ltb_leb.
Qed.

Lemma sma_signal_values_witness :
  let sma_50 := of_values [Some nan; Some 3; Some 5; Some 2; None] in
  let sma_200 := of_values [Some nan; Some nan; Some 4; Some 2; Some 1] in
  let signal := c_sma_signal sma_50 sma_200 in
  labels signal = labels sma_50 /\
  forall i, (i < length sma_50)%nat ->
    (entry_at sma_50 i = None \/ entry_at sma_200 i = None ->
     isna (value_at signal i) = true) /\
    (forall a b, entry_at sma_50 i = Some a -> entry_at sma_200 i = Some b ->
       ((b <? a) = true -> value_at signal i = 1) /\
       ((b <? a) = false -> value_at signal i = 0) /\
       (isna a = true \/ isna b = true -> value_at signal i = 0) /\
       (isna a = false -> isna b = false ->
        ((a <=? b) = true -> value_at signal i = 0) /\
        ((b <? a) = true \/ (a <=? b) = true))).
Proof.
  intros sma_50 sma_200. apply (sma_signal_values sma_50 sma_200).
  - reflexivity.
  - distinct_labels.
Defined.

(** X16: the signal cannot be bullish both ways: where the signal of
    (short, long) is 1, the signal of (long, short) is 0. *)
Theorem sma_signal_antisymmetric (x y : Series (option float)) (i : nat) :
  labels x = labels y -> NoDup (labels x) -> (i < length x)%nat ->
  value_at (c_sma_signal x y) i = 1 ->
  value_at (c_sma_signal y x) i = 0.
Proof.
  intros Hl Hnd Hi H1.
  assert (Hlen : length x = length y) by now apply same_labels_length.
  assert (Hnd' : NoDup (labels y)) by now rewrite <- Hl.
  destruct (nth_error x i) as [ex|] eqn:Ex; [|apply nth_error_None in Ex; lia].
  destruct (nth_error y i) as [ey|] eqn:Ey; [|apply nth_error_None in Ey; lia].
  rewrite (value_at_nth_error _ _ _ (c_sma_signal_nth _ _ i ex ey Hl Hnd Ex Ey)) in H1.
  rewrite (value_at_nth_error _ _ _
             (c_sma_signal_nth _ _ i ey ex (eq_sym Hl) Hnd' Ey Ex)).
  simpl in *.
  destruct (snd ex) as [vx|].
  2: { apply (f_equal isna) in H1. vm_compute in H1. discriminate. }
  destruct (snd ey) as [vy|].
  2: { apply (f_equal isna) in H1. vm_compute in H1. discriminate. }
  destruct (vy <? vx) eqn:E.
  - destruct (isna vx) eqn:Nx.
    { apply FloatFacts.isna_nan in Nx. subst.
      rewrite FloatFacts.ltb_nan_r in E. discriminate. }
    destruct (isna vy) eqn:Ny.
    { apply FloatFacts.isna_nan in Ny. subst.
      rewrite FloatFacts.ltb_nan_l in E. discriminate. }
    assert (Hle : (vy <=? vx) = true).
    { destruct (vy <=? vx) eqn:E2; [reflexivity|].
      destruct (vx <? vy) eqn:E3.
      - (* both strict comparisons cannot hold *)
        exfalso. rewrite ltb_spec in E, E3.
        apply FloatFacts.isna_false_SF in Nx, Ny.
        apply (FloatFacts.SFltb_key _ _ Ny Nx) in E.
        apply (FloatFacts.SFltb_key _ _ Nx Ny) in E3.
        unfold lex_lt in *.
        destruct (key (Prim2SF vx)) as [[? ?] ?],
          (key (Prim2SF vy)) as [[? ?] ?]. lia.
      - rewrite (not_ltb_leb vy vx Ny Nx E3) in E2. discriminate. }
    now rewrite (FloatFacts.leb_not_ltb _ _ Hle).
  - apply (f_equal (fun v => v =? 0)) in H1. vm_compute in H1. discriminate.
Qed.

Lemma sma_signal_antisymmetric_witness :
  value_at (c_sma_signal (of_values [Some 4; Some 2]) (of_values [Some 5; Some 1])) 0
  = 0.
Proof.
  apply (sma_signal_antisymmetric (of_values [Some 5; Some 1])
           (of_values [Some 4; Some 2]) 0).
  - reflexivity.
  - distinct_labels.
  - vm_compute. lia.
  - reflexivity.
Defined.

(** ** The index carries no information *)

Lemma sorted_same_members (l1 l2 : list nat) :
  StronglySorted lt l1 -> StronglySorted lt l2 ->
  (forall x, In x l1 <-> In x l2) -> l1 = l2.
Proof.
  intros H1. revert l2. induction H1 as [|a l1 Hs1 IH Ha]; intros l2 H2 Hm.
  - destruct l2 as [|b l2]; [reflexivity|].
    exfalso. apply (Hm b). now left.
  - destruct H2 as [|b l2 Hs2 Hb].
    + exfalso. apply (Hm a). now left.
    + rewrite Forall_forall in Ha, Hb.
      assert (a = b) as ->.
      { destruct (proj1 (Hm a) (or_introl eq_refl)) as [->|Hin]; [reflexivity|].
        destruct (proj2 (Hm b) (or_introl eq_refl)) as [->|Hin']; [reflexivity|].
        apply Hb in Hin. apply Ha in Hin'. lia. }
      f_equal. apply IH; [exact Hs2|].
      intros x. split; intros Hx.
      * destruct (proj1 (Hm x) (or_intror Hx)) as [<-|]; [|assumption].
        apply Ha in Hx. lia.
      * destruct (proj2 (Hm x) (or_intror Hx)) as [<-|]; [|assumption].
        apply Hb in Hx. lia.
Qed.

Section SameValues.
Variables s s' : Series float.
Hypothesis same_values : values s = values s'.

Lemma same_values_length : length s = length s'.
Proof. rewrite <- !values_length. now rewrite same_values. Qed.

Lemma same_values_at i : value_at s i = value_at s' i.
Proof. unfold value_at. now rewrite same_values. Qed.

Lemma same_pre_spike p : pre_spike s p = pre_spike s' p.
Proof. unfold pre_spike. now rewrite same_values_at. Qed.

Lemma same_candidates t : candidate_positions s t = candidate_positions s' t.
Proof.
  apply sorted_same_members; try apply candidate_positions_sorted.
  intros p. rewrite !candidate_positions_In. unfold pct_at.
  now rewrite same_values_length, same_pre_spike, same_values_at.
Qed.

Lemma same_reversion_pos p pre t L :
  reversion_pos s p pre t L = reversion_pos s' p pre t L.
Proof.
  destruct (reversion_pos s p pre t L) as [r|] eqn:E; symmetry.
  - apply reversion_pos_Some in E. destruct E as (Hn & Hz & Hr & Hrev & Hfirst).
    apply reversion_pos_first; auto.
    + now rewrite <- same_values_length.
    + now rewrite <- same_values_at.
    + intros j Hj. rewrite <- same_values_at. now apply Hfirst.
  - apply reversion_pos_None in E. destruct E as [Hn|[Hz|Hw]].
    + apply reversion_pos_guard. now left.
    + apply reversion_pos_guard. now right.
    + apply reversion_pos_none. intros j Hj. rewrite <- same_values_at.
      apply Hw. now rewrite same_values_length.
Qed.

End SameValues.

Lemma values_iloc_set_slice_same {A} (m m' : Series A) a b v :
  values m = values m' ->
  values (iloc_set_slice m a b v) = values (iloc_set_slice m' a b v).
Proof.
  revert m' a b. induction m as [|e m IH]; intros [|e' m'] a b H;
    try discriminate; [reflexivity|].
  simpl in H. injection H as He Hm.
  simpl. destruct b as [|b]; [simpl; congruence|].
  destruct a as [|a]; simpl; f_equal; auto.
Qed.

Lemma same_run (s s' : Series float) t L cands : forall m m' pu log,
  values s = values s' -> values m = values m' ->
  values (fst (fst (run_pos s t L cands ((m, pu), log))))
  = values (fst (fst (run_pos s' t L cands ((m', pu), log)))).
Proof.
  induction cands as [|p cands IH]; intros m m' pu log Hs Hm; [exact Hm|].
  unfold run_pos. cbn [fold_left]. unfold step_pos at 2 4.
  destruct (Z.of_nat p <=? pu)%Z; [now apply IH|].
  rewrite (same_pre_spike s s' Hs), (same_reversion_pos s s' Hs).
  destruct (reversion_pos s' p (pre_spike s' p) t L) as [r|]; apply IH; auto.
  now apply values_iloc_set_slice_same.
Qed.

Lemma same_detect (s s' : Series float) t L :
  values s = values s' -> NoDup (labels s) -> NoDup (labels s') ->
  exists m m', detect_reverting_spikes s t L = Ok m /\
               detect_reverting_spikes s' t L = Ok m' /\
               labels m = labels s /\ labels m' = labels s' /\
               values m = values m'.
Proof.
  intros Hs Hnd Hnd'.
  rewrite (detect_reverting_spikes_pos s t L Hnd),
    (detect_reverting_spikes_pos s' t L Hnd').
  do 2 eexists. split; [reflexivity|]. split; [reflexivity|].
  split; [apply (inv_labels _ _ _ _ _ (loop_inv_final s t L))|].
  split; [apply (inv_labels _ _ _ _ _ (loop_inv_final s' t L))|].
  rewrite (same_candidates s s' Hs). apply same_run; [exact Hs|].
  unfold all_false. rewrite !values_map_values, Hs. reflexivity.
Qed.

Lemma values_ffill_from_same last (c c' : Series float) :
  values c = values c' ->
  values (ffill_from last c) = values (ffill_from last c').
Proof.
  revert last c'. induction c as [|e c IH]; intros last [|e' c'] H;
    try discriminate; [reflexivity|].
  simpl in H. injection H as He Hc. simpl. rewrite <- He.
  destruct (isna (snd e)); simpl; f_equal; auto.
Qed.

Lemma values_set_where_same (s s' : Series float) (m m' : Series bool) v :
  values s = values s' -> values m = values m' ->
  values (set_where s m v) = values (set_where s' m' v).
Proof.
  unfold set_where, zip_with. revert s' m m'.
  induction s as [|e s IH]; intros [|e' s'] m m' Hs Hm; try discriminate;
    [reflexivity|].
  destruct m as [|b m], m' as [|b' m']; try discriminate; [reflexivity|].
  simpl in *. injection Hs as He Hs. injection Hm as Hb Hm.
  rewrite He, Hb. f_equal. now apply IH.
Qed.

Lemma same_correction (s s' : Series float) (m m' : Series bool) :
  values s = values s' -> values m = values m' ->
  values (apply_forward_fill_correction s m)
  = values (apply_forward_fill_correction s' m').
Proof.
  intros Hs Hm. unfold apply_forward_fill_correction, ffill.
  apply values_ffill_from_same. now apply values_set_where_same.
Qed.

Lemma same_pass (s s' : Series float) t :
  values s = values s' -> NoDup (labels s) -> NoDup (labels s') ->
  exists c c', reversion_pass s t = Ok c /\ reversion_pass s' t = Ok c' /\
               labels c = labels s /\ labels c' = labels s' /\
               values c = values c'.
Proof.
  intros Hs Hnd Hnd'. unfold reversion_pass.
  destruct (same_detect s s' t MAX_LOOKAHEAD_DAYS Hs Hnd Hnd')
    as (m & m' & -> & -> & Hl & Hl' & Hm).
  do 2 eexists. split; [reflexivity|]. split; [reflexivity|].
  split; [apply apply_forward_fill_correction_labels;
          now apply same_labels_length|].
  split; [apply apply_forward_fill_correction_labels;
          now apply same_labels_length|].
  now apply same_correction.
Qed.

Lemma flagged_values_ext (m m' : Series bool) :
  length m = length m' -> (forall i, flagged m i = flagged m' i) ->
  values m = values m'.
Proof.
  intros Hlen H. apply (nth_ext _ _ false false).
  - now rewrite !values_length.
  - intros i _. apply H.
Qed.

Lemma same_rolling (s s' : Series float) :
  values s = values s' ->
  values (detect_rolling_median_outliers s)
  = values (detect_rolling_median_outliers s').
Proof.
  intros Hs.
  assert (Hlen : length s = length s') by now apply same_values_length.
  apply flagged_values_ext.
  - rewrite (same_labels_length _ s (labels_detect_rolling_median_outliers s)).
    now rewrite (same_labels_length _ s' (labels_detect_rolling_median_outliers s')).
  - intros i. apply rolling_flag_local; [exact Hlen|].
    intros j _. now apply same_values_at.
Qed.

(** X17: the pipeline reads the index only to locate positions: two
    series with the same values over any two duplicate-free indexes
    (integers, dates, sorted or not) get the same corrected values, each
    over its own index. *)
Theorem pipeline_ignores_index (s s' : Series float) :
  values s = values s' -> NoDup (labels s) -> NoDup (labels s') ->
  exists out out',
    correct_shares_outstanding_outliers s = Ok out /\
    correct_shares_outstanding_outliers s' = Ok out' /\
    labels out = labels s /\ labels out' = labels s' /\
    values out = values out'.
Proof.
  intros Hs Hnd Hnd'.
  rewrite !correct_shares_outstanding_outliers_passes. unfold reversion_passes.
  destruct (same_pass s s' 1 Hs Hnd Hnd') as (c1 & c1' & -> & -> & L1 & L1' & V1).
  cbn [bind].
  assert (N1 : NoDup (labels c1)) by now rewrite L1.
  assert (N1' : NoDup (labels c1')) by now rewrite L1'.
  destruct (same_pass c1 c1' 0.5 V1 N1 N1') as (c2 & c2' & -> & -> & L2 & L2' & V2).
  cbn [bind].
  assert (N2 : NoDup (labels c2)) by now rewrite L2.
  assert (N2' : NoDup (labels c2')) by now rewrite L2'.
  destruct (same_pass c2 c2' 0.35 V2 N2 N2') as (c3 & c3' & -> & -> & L3 & L3' & V3).
  cbn [bind].
  do 2 eexists. split; [reflexivity|]. split; [reflexivity|].
  unfold rolling_pass.
  split; [|split].
  - rewrite apply_forward_fill_correction_labels; [congruence|].
    apply same_labels_length, labels_detect_rolling_median_outliers.
  - rewrite apply_forward_fill_correction_labels; [congruence|].
    apply same_labels_length, labels_detect_rolling_median_outliers.
  - apply same_correction; [exact V3|]. now apply same_rolling.
Qed.

Lemma pipeline_ignores_index_witness :
  let s := of_values [100; 100; 100; 250; 100; 100] in
  let s' := [(20260105%Z, 100); (20260102%Z, 100); (20251231%Z, 100);
             (20251230%Z, 250); (20251229%Z, 100); (20251226%Z, 100)] in
  exists out out',
    correct_shares_outstanding_outliers s = Ok out /\
    correct_shares_outstanding_outliers s' = Ok out' /\
    labels out = labels s /\ labels out' = labels s' /\
    values out = values out'.
Proof.
  intros s s'. apply (pipeline_ignores_index s s').
  - reflexivity.
  - distinct_labels.
  - distinct_labels.
Defined.

(** ** What a reversion pass writes *)

(** X18: on a series without gaps, a reversion pass (detector, then
    corrector) leaves every unflagged value as it is and replaces every
    flagged value by the value just before its flagged run. *)
Theorem reversion_pass_writes_pre_spike_value (s : Series float) (t : float)
    (L : nat) (mask : Series bool) :
  NoDup (labels s) ->
  (forall i j, (i <= j < length s)%nat ->
      isna (value_at s i) = false -> isna (value_at s j) = false) ->
  detect_reverting_spikes s t L = Ok mask ->
  let out := apply_forward_fill_correction s mask in
  forall i, (i < length s)%nat ->
    (flagged mask i = false -> value_at out i = value_at s i) /\
    (flagged mask i = true ->
     exists p, (0 < p <= i)%nat /\
       (forall k, (p <= k <= i)%nat -> flagged mask k = true) /\
       flagged mask (p - 1) = false /\
       isna (value_at s (p - 1)) = false /\
       value_at out i = value_at s (p - 1)).
Proof.
  intros Hnd Hgap Hd out i Hi. change (gap_free s) in Hgap.
  destruct (detect_inv s t L mask Hnd Hd) as (pu & log & inv).
  split.
  - intros Hf. now apply (pass_value_out s t L mask pu log Hgap inv).
  - intros Hf. apply (flagged_in_region _ _ _ _ _ _ inv) in Hf.
    destruct Hf as (p & r & Hin & Hpr).
    destruct (region_facts _ _ _ _ _ _ inv _ _ Hin) as (Hp & Hr & _).
    exists p. split; [lia|]. split.
    + intros k Hk. apply (flagged_in_region _ _ _ _ _ _ inv). exists p, r.
      split; [exact Hin|lia].
    + split; [eapply before_region_unflagged; eauto|].
      split; [eapply region_pre_present; eauto|].
      now apply (pass_value_in s t L mask pu log Hgap inv p r).
Qed.

Lemma reversion_pass_writes_pre_spike_value_witness :
  let s := of_values [100; 100; 250; 260; 100; 100] in
  let mask := of_values [false; false; true; true; false; false] in
  let out := apply_forward_fill_correction s mask in
  (flagged mask 3 = false -> value_at out 3 = value_at s 3) /\
  (flagged mask 3 = true ->
   exists p, (0 < p <= 3)%nat /\
     (forall k, (p <= k <= 3)%nat -> flagged mask k = true) /\
     flagged mask (p - 1) = false /\
     isna (value_at s (p - 1)) = false /\
     value_at out 3 = value_at s (p - 1)).
Proof.
  intros s mask. apply (reversion_pass_writes_pre_spike_value s 1 600 mask).
  - distinct_labels.
  - apply ffill_fixed_gap_free. reflexivity.
  - reflexivity.
  - vm_compute. lia.
Defined.

(** X19: a flat series is never flagged by the reversion detector: when
    all values are equal (zero, infinite and missing ones included) and
    the threshold is not negative, the mask is all false, whatever the
    index. *)
Theorem flat_series_never_flagged (s : Series float) (t : float) (L : nat) :
  (0 <=? t) = true ->
  (forall i j, (i < length s)%nat -> (j < length s)%nat ->
               value_at s i = value_at s j) ->
  detect_reverting_spikes s t L = Ok (all_false s).
Proof.
  intros Ht Hflat. apply no_candidates_all_false. intros p Hp.
  destruct p as [|p].
  - now rewrite pct_at_first, FloatFacts.ltb_nan_r.
  - unfold pct_at. rewrite pre_spike_pos by lia.
    replace (S p - 1)%nat with p by lia.
    rewrite (Hflat p (S p)) by lia. now apply relative_deviation_same.
Qed.

Lemma flat_series_never_flagged_witness :
  let s := [(0%Z, 0); (0%Z, 0); (5%Z, 0)] in
  detect_reverting_spikes s 0.35 600 = Ok (all_false s).
Proof.
  intros s. apply (flat_series_never_flagged s 0.35 600).
  - reflexivity.
  - intros i j Hi Hj. simpl in Hi, Hj.
    destruct i as [|[|[|i]]]; try lia; destruct j as [|[|[|j]]]; try lia;
      reflexivity.
Defined.

(** ** The reversion search as a function *)

(** X20: on any index, [find_reversion_index] returns no label exactly
    when the pre-spike value is missing or zero or no value of the window
    [p .. min (p + L, length) - 1] is within the threshold of it; and a
    label it returns is the label of the first position of the window
    whose value is. *)
Theorem find_reversion_index_first (s : Series float) (p : nat)
    (pre t : float) (L : nat) :
  (find_reversion_index s p pre t L = None <->
   isna pre = true \/ (pre =? 0) = true \/
   forall j, (p <= j < Nat.min (p + L) (length s))%nat ->
             (relative_deviation pre (value_at s j) <=? t) = false) /\
  (forall l, find_reversion_index s p pre t L = Some l ->
   exists r, (p <= r < Nat.min (p + L) (length s))%nat /\
     nth_error (labels s) r = Some l /\
     (relative_deviation pre (value_at s r) <=? t) = true /\
     forall j, (p <= j < r)%nat ->
               (relative_deviation pre (value_at s j) <=? t) = false).
Proof.
  rewrite find_reversion_index_pos. split.
  - split.
    + destruct (reversion_pos s p pre t L) as [r|] eqn:E.
      * intros H. apply reversion_pos_Some in E.
        destruct E as (_ & _ & Hr & _).
        apply nth_error_None in H. rewrite labels_length in H. lia.
      * intros _. now apply reversion_pos_None.
    + intros [H|[H|H]].
      * rewrite reversion_pos_guard; auto.
      * rewrite reversion_pos_guard; auto.
      * now rewrite reversion_pos_none.
  - intros l H. destruct (reversion_pos s p pre t L) as [r|] eqn:E;
      [|discriminate].
    apply reversion_pos_Some in E. destruct E as (_ & _ & Hr & Hrev & Hfirst).
    exists r. auto.
Qed.

Lemma find_reversion_index_first_witness :
  let s := [(10%Z, 100); (20%Z, 250); (20%Z, 260); (40%Z, 110)] in
  exists r, (1 <= r < Nat.min (1 + 600) (length s))%nat /\
     nth_error (labels s) r = Some 40%Z /\
     (relative_deviation 100 (value_at s r) <=? 1) = true /\
     forall j, (1 <= j < r)%nat ->
               (relative_deviation 100 (value_at s j) <=? 1) = false.
Proof.
  intros s. apply (proj2 (find_reversion_index_first s 1 100 1 600)).
  reflexivity.
Defined.

(** ** The detection loop against its description *)

Lemma seq_sorted a n : StronglySorted lt (seq a n).
Proof.
  revert a. induction n as [|n IH]; intros a; simpl; constructor; [apply IH|].
  apply Forall_forall. intros x Hx. apply in_seq in Hx. lia.
Qed.

Lemma filter_sorted (f : nat -> bool) l :
  StronglySorted lt l -> StronglySorted lt (filter f l).
Proof.
  induction 1 as [|a l Hs IH Ha]; simpl; [constructor|].
  destruct (f a); [|exact IH]. constructor; [exact IH|].
  rewrite Forall_forall in *. intros x Hx. apply filter_In in Hx.
  apply Ha. tauto.
Qed.

Lemma described_candidates_eq (s : Series float) t :
  candidate_positions s t = described_candidates s t.
Proof.
  apply sorted_same_members.
  - apply candidate_positions_sorted.
  - apply filter_sorted, seq_sorted.
  - intros p. rewrite candidate_positions_In. unfold described_candidates.
    rewrite filter_In, in_seq. split; intros [H1 H2]; split; auto; lia.
Qed.

(** [find] over a range returns its first hit. *)
Lemma find_seq (f : nat -> bool) a n :
  match find f (seq a n) with
  | Some r => (a <= r < a + n)%nat /\ f r = true /\
              forall j, (a <= j < r)%nat -> f j = false
  | None => forall j, (a <= j < a + n)%nat -> f j = false
  end.
Proof.
  revert a. induction n as [|n IH]; intros a; simpl.
  - intros j Hj. lia.
  - destruct (f a) eqn:Fa.
    + split; [lia|]. split; [exact Fa|]. intros j Hj. lia.
    + specialize (IH (S a)). destruct (find f (seq (S a) n)) as [r|].
      * destruct IH as (Hr & Fr & Hj). split; [lia|]. split; [exact Fr|].
        intros j Hjr. destruct (Nat.eq_dec j a) as [->|Hne]; [exact Fa|].
        apply Hj. lia.
      * intros j Hj. destruct (Nat.eq_dec j a) as [->|Hne]; [exact Fa|].
        apply IH. lia.
Qed.

Lemma described_reversion_eq (s : Series float) t L p v :
  isna v = false -> (v =? 0) = false ->
  reversion_pos s p v t L = described_reversion s t L p v.
Proof.
  intros Hn Hz. unfold described_reversion.
  pose proof (find_seq (fun r => relative_deviation v (value_at s r) <=? t) p
                (Nat.min (p + L) (length s) - p)) as H.
  destruct (find _ _) as [r|].
  - destruct H as (Hr & Fr & Hj).
    apply reversion_pos_first; [exact Hn|exact Hz|lia|exact Fr|exact Hj].
  - apply reversion_pos_none. intros j Hj. apply H. lia.
Qed.

Lemma series_eta {A} (s : Series A) : combine (labels s) (values s) = s.
Proof.
  induction s as [|[l x] s IH]; simpl; [reflexivity|]. now rewrite IH.
Qed.

Lemma described_mark_eq (m : Series bool) p r :
  iloc_set_slice m p r true = described_mark m p r.
Proof.
  rewrite <- (series_eta (iloc_set_slice m p r true)). unfold described_mark.
  rewrite labels_iloc_set_slice. f_equal.
  assert (Hlen : length (iloc_set_slice m p r true) = length m).
  { apply same_labels_length, labels_iloc_set_slice. }
  apply (nth_ext _ _ false false).
  - now rewrite values_length, length_map, length_seq.
  - intros i Hi. rewrite values_length, Hlen in Hi.
    rewrite values_iloc_set_slice_nth.
    set (g := fun i => ((p <=? i) && (i <? r))%nat || flagged m i).
    rewrite (nth_indep (map g (seq 0 (length m))) false (g 0%nat))
      by now rewrite length_map, length_seq.
    rewrite map_nth, seq_nth by assumption. unfold g. simpl.
    destruct (Nat.ltb_spec i (length m)); [|lia].
    rewrite andb_true_r.
    now destruct ((p <=? i)%nat && (i <? r)%nat).
Qed.

Lemma described_step_eq (s : Series float) t L m pu log p :
  fst (step_pos s t L ((m, pu), log) p) = described_step s t L (m, pu) p.
Proof.
  unfold step_pos, described_step.
  destruct (Z.of_nat p <=? pu)%Z; [reflexivity|].
  destruct p as [|p].
  - assert (Hpre : pre_spike s 0 = nan) by reflexivity.
    rewrite Hpre, reversion_pos_guard by (left; reflexivity). reflexivity.
  - assert (Hpre : pre_spike s (S p) = value_at s (S p - 1)) by reflexivity.
    rewrite Hpre. set (v := value_at s (S p - 1)).
    change (S p =? 0)%nat with false. cbn [orb].
    destruct (isna v) eqn:Hn.
    { rewrite reversion_pos_guard by now left. reflexivity. }
    destruct (v =? 0) eqn:Hz.
    { rewrite reversion_pos_guard by now right. reflexivity. }
    rewrite described_reversion_eq by assumption.
    destruct (described_reversion s t L (S p) v); [|reflexivity].
    cbn [fst]. now rewrite described_mark_eq.
Qed.

Lemma described_run_eq (s : Series float) t L cands st :
  fst (run_pos s t L cands st) = fold_left (described_step s t L) cands (fst st).
Proof.
  unfold run_pos. revert st.
  induction cands as [|p cands IH]; intros [[m pu] log]; [reflexivity|].
  cbn [fold_left]. rewrite IH. cbn [fst].
  now rewrite described_step_eq.
Qed.

Lemma for_each_described (s : Series float) t L :
  NoDup (labels s) ->
  for_each (spike_loop_body s t L)
           (find_spike_start_indices (calculate_pct_change s) t)
           (all_false s, (-1)%Z)
  = Ok (described_loop s t L).
Proof.
  intros Hnd. rewrite (for_each_erase s t L _ _ []).
  rewrite (for_each_traced_pos s t L Hnd _ (candidate_positions s t)).
  - cbn [bind]. rewrite described_run_eq, described_candidates_eq. reflexivity.
  - apply candidate_labels.
  - apply labels_all_false.
Qed.

(** C1: on a series with distinct labels, [detect_reverting_spikes] is the
    described loop.  Its candidates are the positions whose percentage
    change exceeds the threshold, in increasing order; its [for] loop,
    started from the all-false mask and the boundary [-1], ends in the
    state the described steps reach over these candidates, and the detector
    returns the mask of that state; each run of the loop body is one
    described step.  In particular, for a candidate [p] beyond the
    processed boundary with a present non-zero pre-spike value [v]: when [r]
    is the smallest position of [p .. min (p + L, length) - 1] with
    [|value[r] - v| / |v| <= t], the loop body marks exactly [p .. r-1] and
    moves the boundary to [r]; when the window has no such position it
    leaves mask and boundary as they are. *)
Theorem reversion_search_loop (s : Series float) (t : float) (L : nat) :
  NoDup (labels s) ->
  let cands := candidate_positions s t in
  (cands = described_candidates s t /\
   StronglySorted lt cands /\
   (forall p, In p cands <->
      (p < length s)%nat /\
      exists e, nth_error (calculate_pct_change s) p = Some e /\
                (t <? snd e) = true) /\
   find_spike_start_indices (calculate_pct_change s) t =
     map (fun p => nth p (labels s) 0%Z) cands) /\
  (for_each (spike_loop_body s t L)
            (find_spike_start_indices (calculate_pct_change s) t)
            (all_false s, (-1)%Z)
   = Ok (described_loop s t L) /\
   detect_reverting_spikes s t L = Ok (fst (described_loop s t L))) /\
  (forall (m : Series bool) (pu : Z) (p : nat),
     labels m = labels s -> (p < length s)%nat ->
     spike_loop_body s t L (m, pu) (nth p (labels s) 0%Z)
     = Ok (described_step s t L (m, pu) p)) /\
  forall (m : Series bool) (pu : Z) (p : nat),
    labels m = labels s -> In p cands -> (pu < Z.of_nat p)%Z ->
    let v := value_at s (p - 1) in
    isna v = false -> (v =? 0) = false ->
    (forall r,
        (p <= r < Nat.min (p + L) (length s))%nat ->
        (relative_deviation v (value_at s r) <=? t) = true ->
        (forall j, (p <= j < r)%nat ->
                   (relative_deviation v (value_at s j) <=? t) = false) ->
        spike_loop_body s t L (m, pu) (nth p (labels s) 0%Z)
        = Ok (iloc_set_slice m p r true, Z.of_nat r) /\
        forall i, flagged (iloc_set_slice m p r true) i =
                  if ((p <=? i) && (i <? r))%nat then true else flagged m i) /\
    ((forall j, (p <= j < Nat.min (p + L) (length s))%nat ->
                (relative_deviation v (value_at s j) <=? t) = false) ->
     spike_loop_body s t L (m, pu) (nth p (labels s) 0%Z) = Ok (m, pu)).
Proof.
  intros Hnd cands. split; [|split; [|split]].
  { split; [apply described_candidates_eq|].
    split; [apply candidate_positions_sorted|].
    split; [|apply find_spike_start_indices_positions].
    intros p. unfold cands. rewrite candidate_positions_In. split.
    - intros [Hp H]. split; [exact Hp|]. now apply pct_entry.
    - intros [Hp H]. split; [exact Hp|]. now apply pct_entry. }
  { split; [now apply for_each_described|].
    unfold detect_reverting_spikes. cbv zeta.
    now rewrite for_each_described. }
  { intros m pu p Hm Hp. rewrite spike_loop_body_pos by assumption.
    now rewrite described_step_eq. }
  intros m pu p Hm Hin Hpu v Hn Hz.
  assert (Hp : (p < length s)%nat) by (apply candidate_positions_In in Hin; tauto).
  assert (H0 : (0 < p)%nat) by (eapply candidate_positive; eauto).
  assert (Hpre : pre_spike s p = v).
  { unfold pre_spike. destruct (Nat.ltb_spec 0 p); [reflexivity|lia]. }
  assert (Hbody : spike_loop_body s t L (m, pu) (nth p (labels s) 0%Z) =
                  Ok match reversion_pos s p v t L with
                     | Some r => (iloc_set_slice m p r true, Z.of_nat r)
                     | None => (m, pu)
                     end).
  { rewrite spike_loop_body_pos by assumption. unfold step_pos.
    destruct (Z.leb_spec (Z.of_nat p) pu); [lia|]. rewrite Hpre.
    now destruct (reversion_pos s p v t L). }
  split.
  - intros r Hr Hrev Hfirst. split.
    + rewrite Hbody, (reversion_pos_first s p v t L r); auto.
    + intros i. unfold flagged. rewrite values_iloc_set_slice_nth.
      assert (Hlen : length m = length s) by now apply same_labels_length.
      destruct (Nat.leb_spec p i), (Nat.ltb_spec i r); simpl; auto.
      destruct (Nat.ltb_spec i (length m)); [reflexivity|lia].
  - intros Hnone. rewrite Hbody, (reversion_pos_none s p v t L); auto.
Qed.

(** Two spikes, and a candidate (position 2) inside the first region. *)
Lemma reversion_search_loop_witness :
  let s := of_values [100; 250; 600; 100; 100; 300; 100] in
  detect_reverting_spikes s 1 600
  = Ok (of_values [false; true; true; false; false; true; false]).
Proof.
  intros s.
  refine (eq_trans (proj2 (proj1 (proj2 (reversion_search_loop s 1 600 _)))) _).
  - distinct_labels.
  - reflexivity.
Defined.
